(** * Shallow embedding of slim.app._deployment, slim.app._server_class and
      slim.app._internal.json_data *)

From stdpp Require Import base gmap sets list strings pretty.
From Stdlib Require Import Ascii Lia.

Open Scope string_scope.

(** ** Input groups (AppDeploymentSpecification.all_input_groups etc.) *)

Module InputGroups.

(** A frozenset of input group names. *)
Abbreviation input_groups := (gset string).

(** [frozenset('*')] *)
Definition all_input_groups : input_groups := {[ "*" ]}.

(** [frozenset()] *)
Definition no_input_groups : input_groups := ∅.

(** [AppDependencyGraph._union_of] *)
Definition _union_of (fg_1 fg_2 : input_groups) : input_groups :=
  if bool_decide ("*" ∈ fg_1 \/ "*" ∈ fg_2) then all_input_groups
  else fg_1 ∪ fg_2.

End InputGroups.

(** ** OrderedDict as an association list in insertion order *)

Module OD.

(** [d.get(k)] *)
Fixpoint od_get {K V} `{EqDecision K} (k : K) (d : list (K * V)) : option V :=
  match d with
  | [] => None
  | (k', v) :: d' => if decide (k = k') then Some v else od_get k d'
  end.

(** [d[k] = v]: an existing key keeps its position, a new key is appended. *)
Fixpoint od_set {K V} `{EqDecision K} (k : K) (v : V) (d : list (K * V))
  : list (K * V) :=
  match d with
  | [] => [(k, v)]
  | (k', v') :: d' =>
      if decide (k = k') then (k, v) :: d' else (k', v') :: od_set k v d'
  end.

(** [OrderedDict(pairs)] *)
Definition od_of_pairs {K V} `{EqDecision K} (pairs : list (K * V))
  : list (K * V) :=
  fold_left (fun d kv => od_set kv.1 kv.2 d) pairs [].

End OD.

(** ** The dependency graph and deployment specifications *)

Module Deployment.
Import InputGroups OD.

(** An [AppSource] is identified by its id. *)
Abbreviation AppSource := string.

(** A dependency declaration of a manifest. *)
Record Dependency := {
  dep_package : option string;
  dep_version : string;          (* the accepted version range *)
  dep_optional : bool
}.

(** An input group of a manifest; [requires] is [None] when the group has
    no [requires] attribute. It maps a dependency alias to the input groups
    required of that dependency. *)
Record InputGroup := {
  requires : option (list (string * input_groups))
}.

Record Manifest := {
  manifest_dependencies : option (list (string * Dependency));
  manifest_inputGroups : option (list (string * InputGroup))
}.

(** The state of an [AppDependencyGraph] object after construction, with the
    attributes of its app sources ([manifest] and [dependencies]). *)
Record AppDependencyGraph := {
  _root : AppSource;
  _graph : list (AppSource * list AppSource);
  _repository_sources : list (string * AppSource);
  manifest : AppSource -> Manifest;
  dependencies : AppSource -> list (Dependency * AppSource)
}.

Record AppDeploymentSpecification := mk_spec {
  spec_name : string;
  spec_workload : gset string;
  spec_inputGroups : option input_groups
}.

Abbreviation result_t := (list (AppSource * AppDeploymentSpecification)).

(** The requirements loop of [_get_deployment_specifications]: for every
    name of [deployment_specification.inputGroups] naming a group of the
    manifest with a [requires] clause, accumulate the required input groups
    per dependency source. [None] is a raised exception. *)
Definition requirements_of (g : AppDependencyGraph) (app_source : AppSource)
    (s : AppDeploymentSpecification) : option (list (AppSource * input_groups)) :=
  let deps := manifest_dependencies (manifest g app_source) in
  match manifest_inputGroups (manifest g app_source) with
  | None => Some []
  | Some igs =>
      names ← spec_inputGroups s;
      foldl (fun acc name =>
        requirements ← acc;
        match od_get name igs with
        | None => Some requirements
        | Some group =>
            match requires group with
            | None => Some requirements
            | Some aliases =>
                foldl (fun acc '(alias, requirement) =>
                  requirements ← acc;
                  dependencies ← deps;
                  dependency ← od_get alias dependencies;
                  package ← dep_package dependency;
                  dependency_source ← od_get package (_repository_sources g);
                  adjacent ← od_get app_source (_graph g);
                  if decide (dependency_source ∈ adjacent) then
                    Some (od_set dependency_source
                      (_union_of (default no_input_groups
                                   (od_get dependency_source requirements))
                                 requirement) requirements)
                  else None) (Some requirements) aliases
            end
        end) (Some []) (elements names)
  end.

(** [AppDependencyGraph._get_deployment_specifications]; the recursion is
    bounded by [fuel] ([None] when it runs out or an exception is raised). *)
Fixpoint _get_deployment_specifications (fuel : nat) (g : AppDependencyGraph)
    (app_source : AppSource) (s : AppDeploymentSpecification) (result : result_t)
    : option result_t :=
  match fuel with
  | O => None
  | S fuel =>
      let result := od_set app_source s result in
      requirements ← requirements_of g app_source s;
      (fix loop (deps : list (Dependency * AppSource)) (result : result_t) :=
         match deps with
         | [] => Some result
         | (_, dependency_source) :: deps =>
             let ig := default no_input_groups
                         (od_get dependency_source requirements) in
             dds ← match od_get dependency_source result with
                   | Some prev =>
                       prev_ig ← spec_inputGroups prev;
                       Some (mk_spec (spec_name s) (spec_workload s)
                               (Some (_union_of prev_ig ig)))
                   | None =>
                       Some (mk_spec (spec_name s) (spec_workload s) (Some ig))
                   end;
             result ← _get_deployment_specifications fuel g dependency_source dds result;
             loop deps result
         end) (dependencies g app_source) result
  end.

(** [AppDependencyGraph.get_deployment_specifications] *)
Definition get_deployment_specifications (fuel : nat) (g : AppDependencyGraph)
    (s : AppDeploymentSpecification) : option result_t :=
  let every := Some (od_of_pairs (map (fun source => (source, s)) (map fst (_graph g)))) in
  match spec_inputGroups s with
  | None => every
  | Some input_groups =>
      if decide (input_groups = all_input_groups) then every
      else _get_deployment_specifications fuel g (_root g) s []
  end.

End Deployment.

(** ** Input groups active along a path from the root *)

Module DeploymentPaths.
Import InputGroups OD Deployment.

(** Group [h] of app [p] declares, through its [requires] clause, the input
    groups [R] of the dependency source [ds]. *)
Definition declares (g : AppDependencyGraph) (p : AppSource) (h : string)
    (ds : AppSource) (R : input_groups) : Prop :=
  exists igs group aliases alias dependencies dependency package,
    manifest_inputGroups (manifest g p) = Some igs /\
    od_get h igs = Some group /\
    requires group = Some aliases /\
    (alias, R) ∈ aliases /\
    manifest_dependencies (manifest g p) = Some dependencies /\
    od_get alias dependencies = Some dependency /\
    dep_package dependency = Some package /\
    od_get package (_repository_sources g) = Some ds.

(** The input groups active at each node, starting from the specification's
    groups [G0] at the root and following the [requires] clauses of active
    groups (a declared set with the wildcard counts as ALL). *)
Inductive active_group (g : AppDependencyGraph) (G0 : input_groups)
    : AppSource -> string -> Prop :=
| active_root h : h ∈ G0 -> active_group g G0 (_root g) h
| active_required p h ds R x :
    active_group g G0 p h -> declares g p h ds R ->
    x ∈ _union_of no_input_groups R -> active_group g G0 ds x.

(** Node [n] is required by some group active along a path from the root. *)
Definition required (g : AppDependencyGraph) (G0 : input_groups) (n : AppSource) : Prop :=
  exists p h R, active_group g G0 p h /\ declares g p h n R.

End DeploymentPaths.

(** ** Cycle detection: [AppDependencyGraph._is_cyclic] *)

Module Cycle.
Import OD.

Abbreviation AppSource := string.
Abbreviation adjacency := (list (AppSource * list AppSource)).

(** The nested [visit] of [_is_cyclic], over the shared sets [visited] and
    [graph_path]; it returns its boolean and the two sets. The recursion is
    bounded by [fuel] ([None] when it runs out). *)
Fixpoint visit (fuel : nat) (graph : adjacency) (app_source : AppSource)
    (visited graph_path : gset AppSource) : option (bool * gset AppSource * gset AppSource) :=
  match fuel with
  | O => None
  | S fuel =>
      if decide (app_source ∈ visited) then Some (false, visited, graph_path)
      else
        (fix loop (neighbours : list AppSource) (visited graph_path : gset AppSource)
           : option (bool * gset AppSource * gset AppSource) :=
           match neighbours with
           | [] => Some (false, visited, graph_path ∖ {[ app_source ]})
           | neighbour :: neighbours =>
               if decide (neighbour ∈ graph_path) then Some (true, visited, graph_path)
               else
                 match visit fuel graph neighbour visited graph_path with
                 | None => None
                 | Some (true, visited, graph_path) => Some (true, visited, graph_path)
                 | Some (false, visited, graph_path) => loop neighbours visited graph_path
                 end
           end) (default [] (od_get app_source graph))
             ({[ app_source ]} ∪ visited) ({[ app_source ]} ∪ graph_path)
  end.

(** [any(visit(app_source) for app_source in graph)] *)
Fixpoint any_visit (fuel : nat) (graph : adjacency) (sources : list AppSource)
    (visited graph_path : gset AppSource) : option bool :=
  match sources with
  | [] => Some false
  | app_source :: sources =>
      match visit fuel graph app_source visited graph_path with
      | None => None
      | Some (true, _, _) => Some true
      | Some (false, visited, graph_path) => any_visit fuel graph sources visited graph_path
      end
  end.

(** Every node named by the adjacency mapping. *)
Definition universe (graph : adjacency) : gset AppSource :=
  list_to_set (map fst graph) ∪ ⋃ (map (fun e => list_to_set e.2) graph).

(** [AppDependencyGraph._is_cyclic], with enough fuel for the recursion. *)
Definition _is_cyclic (graph : adjacency) : option bool :=
  any_visit (S (size (universe graph))) graph (map fst graph) ∅ ∅.

(** The edges of the adjacency mapping, and its cycles. *)
Definition edge (graph : adjacency) (u v : AppSource) : Prop :=
  exists ns, od_get u graph = Some ns /\ v ∈ ns.

Definition has_cycle (graph : adjacency) : Prop :=
  exists u, tc (edge graph) u u.

End Cycle.

(** ** Graph construction: [AppDependencyGraph.__init__], [_add_source],
       [_get_dependencies], [_check_dependencies] *)

Module Construction.
Import OD.

Abbreviation AppSource := string.
Abbreviation Dependency := Deployment.Dependency.

(** [SlimLogger] calls and payload updates, in order. *)
Inductive event :=
| SlimError (msg : string)
| SlimWarning (msg : string)
| MissingDependency (name : string)            (* payload.add_missing_dependency *)
| MissingOptionalDependency (name : string)    (* payload.add_missing_optional_dependency *)
| StatusMissingDependencies.                   (* payload.status = STATUS_ERROR_MISSING_DEPENDENCIES *)

Record SourceManifest := {
  info_version : string;                                   (* manifest.info.id.version *)
  declared_dependencies : option (list (string * Dependency))  (* manifest.dependencies *)
}.

(** What the graph reads of an [AppSource]: its manifest (falsy as [None])
    and the value of [get_dependencies_for_target_os(target_os)] for the
    graph's target OS. *)
Record AppSourceData := {
  source_manifest : option SourceManifest;
  dependencies_for_target_os : list (string * Dependency)
}.

(** The constructor's inputs. [installed_packages] is [None] or a dict; both
    an absent and an empty dict are falsy, so [[]] stands for [None]. The
    version-range matcher is [semantic_version]'s [Spec.match]. *)
Record GraphInput := {
  app_sources : AppSource -> AppSourceData;
  dependency_sources : list (string * AppSource);   (* app_source.dependency_sources *)
  repository_sources : list (string * AppSource);   (* populate_dependency_sources(...) *)
  installed_packages : list (string * string);
  version_match : string -> string -> bool
}.

Record graph_state := {
  st_graph : list (AppSource * list AppSource);                    (* self._graph *)
  st_dependents : list (AppSource * list (Dependency * AppSource)); (* self._dependents *)
  st_dependencies : list (AppSource * list (Dependency * AppSource)); (* app_source._dependencies *)
  st_repository_sources : list (string * AppSource);               (* self._repository_sources *)
  st_log : list event
}.

(** Python truthiness of an optional string. *)
Definition truthy (o : option string) : option string :=
  match o with
  | Some p => if decide (p = "") then None else Some p
  | None => None
  end.

(** [if dependency.package: ... elif self._installed_packages and
    self._installed_packages.get(name): ...] *)
Definition package_choice (inp : GraphInput) (name : string) (dependency : Dependency)
  : option string :=
  match truthy (Deployment.dep_package dependency) with
  | Some package => Some package
  | None => truthy (od_get name (installed_packages inp))
  end.

(** [dependency_sources[package]], falling back to [repository_sources[package]]. *)
Definition lookup_source (inp : GraphInput) (repo : list (string * AppSource))
    (package : string) : option AppSource :=
  match od_get package (dependency_sources inp) with
  | Some source => Some source
  | None => od_get package repo
  end.

(** One iteration of the loop of [_get_dependencies]. *)
Definition get_dependency_step (inp : GraphInput) (app_source : AppSource)
    (acc : list (Dependency * AppSource) * list (string * AppSource) * list event)
    (entry : string * Dependency)
    : list (Dependency * AppSource) * list (string * AppSource) * list event :=
  let '(dependencies, repo, log) := acc in
  let '(name, dependency) := entry in
  match package_choice inp name dependency with
  | None =>
      if Deployment.dep_optional dependency then
        (dependencies, repo,
         app log [SlimWarning ("Skipping validation for optional dependency " ++ name);
                 MissingOptionalDependency name])
      else
        (dependencies, repo,
         app log [SlimWarning ("Skipping validation for dynamic dependency " ++ name);
                 MissingDependency name; StatusMissingDependencies])
  | Some package =>
      match lookup_source inp repo package with
      | None =>
          (dependencies, repo,
           app log [SlimError ("Expected to find static dependency " ++ package);
                   MissingDependency name; StatusMissingDependencies])
      | Some dependency_source =>
          let repo := od_set package dependency_source repo in
          match source_manifest (app_sources inp dependency_source) with
          | None => (dependencies, repo, log)
          | Some dependency_manifest =>
              let version := info_version dependency_manifest in
              let version_range := Deployment.dep_version dependency in
              let log :=
                if version_match inp version_range version then log
                else app log [SlimError (app_source ++ ": Packaged version of dependency "
                               ++ name ++ " is outside range " ++ version_range ++ ": "
                               ++ dependency_source)] in
              ((dependencies ++ [(dependency, dependency_source)])%list, repo, log)
          end
      end
  end.

(** [AppDependencyGraph._get_dependencies]; [None] is the [AttributeError]
    of an app source without manifest. *)
Definition _get_dependencies (inp : GraphInput) (app_source : AppSource)
    (repo : list (string * AppSource)) (log : list event)
    : option (list (Dependency * AppSource) * list (string * AppSource) * list event) :=
  match source_manifest (app_sources inp app_source) with
  | None => None
  | Some m =>
      match declared_dependencies m with
      | None => Some ([], repo, log)
      | Some _ =>
          Some (foldl (get_dependency_step inp app_source) ([], repo, log)
                      (dependencies_for_target_os (app_sources inp app_source)))
      end
  end.

(** [OrderedSet(items)] *)
Definition ordered_set (items : list AppSource) : list AppSource :=
  foldl (fun acc x => if decide (x ∈ acc) then acc else (acc ++ [x])%list) [] items.

(** The [_dependents] update of [_add_source] for one new app source. *)
Definition add_dependents (app_source : AppSource)
    (dependents : list (AppSource * list (Dependency * AppSource)))
    (app_dependencies : list (Dependency * AppSource)) :=
  foldl (fun d '(app_dependency, app_dependency_source) =>
           od_set app_dependency_source
             ((default [] (od_get app_dependency_source d) ++ [(app_dependency, app_source)])%list) d)
        dependents app_dependencies.

(** The loop of [_add_source] over the deque [queue] (left end first):
    [queue.pop()] takes the right end, [queue.extendleft(xs)] puts [xs]
    reversed in front. The iterations are bounded by [fuel]. *)
Fixpoint add_loop (fuel : nat) (inp : GraphInput) (queue : list AppSource)
    (st : graph_state) : option graph_state :=
  match fuel with
  | O => None
  | S fuel =>
      match rev queue with
      | [] => Some st
      | app_source :: rest =>
          let queue := rev rest in
          if decide (app_source ∈ map fst (st_graph st)) then add_loop fuel inp queue st
          else
            match _get_dependencies inp app_source (st_repository_sources st) (st_log st) with
            | None => None
            | Some (app_dependencies, repo, log) =>
                let dependency_sources := map snd app_dependencies in
                add_loop fuel inp ((rev dependency_sources) ++ queue)%list {|
                  st_graph := od_set app_source (ordered_set dependency_sources) (st_graph st);
                  st_dependents := add_dependents app_source (st_dependents st) app_dependencies;
                  st_dependencies := od_set app_source app_dependencies (st_dependencies st);
                  st_repository_sources := repo;
                  st_log := log |}
            end
      end
  end.

Definition initial_state (inp : GraphInput) : graph_state := {|
  st_graph := []; st_dependents := []; st_dependencies := [];
  st_repository_sources := repository_sources inp; st_log := [] |}.

(** [AppDependencyGraph._add_source(app_source)] *)
Definition _add_source (fuel : nat) (inp : GraphInput) (app_source : AppSource) : option graph_state :=
  add_loop fuel inp [app_source] (initial_state inp).

(** [AppDependencyGraph._check_dependencies]: it logs every range violation
    and returns [None]. *)
Definition _check_dependencies (inp : GraphInput) (st : graph_state) : option (list event) :=
  foldl (fun acc '(app_source, dependents) =>
    log ← acc;
    m ← source_manifest (app_sources inp app_source);
    let version := info_version m in
    Some (foldl (fun log '(dependency, dependent_source) =>
      let version_range := Deployment.dep_version dependency in
      if version_match inp version_range version then log
      else (app log [SlimError (app_source ++ ": Version " ++ version ++ " was selected, but version "
                       ++ version_range ++ " is required by " ++ dependent_source)])%list)
      log dependents)) (Some (st_log st)) (st_dependents st).

(** [AppDependencyGraph.__init__]: build, then report a cycle, or else run
    [_check_dependencies] (whose [None] result never reports a conflict). *)
Definition AppDependencyGraph_init (fuel : nat) (inp : GraphInput) (root : AppSource)
  : option graph_state :=
  match _add_source fuel inp root with
  | None => None
  | Some st =>
      let with_log (log : list event) : graph_state := {|
        st_graph := st_graph st; st_dependents := st_dependents st;
        st_dependencies := st_dependencies st;
        st_repository_sources := st_repository_sources st; st_log := log |} in
      match Cycle._is_cyclic (st_graph st) with
      | None => None
      | Some true =>
          Some (with_log (st_log st ++ [SlimError ("Dependency graph for " ++ root ++ " is cyclic.")])%list)
      | Some false =>
          match _check_dependencies inp st with
          | None => None
          | Some log => Some (with_log log)
          end
      end
  end.

Definition is_error (e : event) : bool :=
  match e with SlimError _ => true | _ => false end.

(** The dependency relation the graph is meant to close over: a declared
    dependency (for the target OS) of an app with a manifest, whose package
    resolves in the repository to a source with a manifest. *)
Definition resolve (inp : GraphInput) (package : string) : option AppSource :=
  lookup_source inp (repository_sources inp) package.

Definition dependency_edge (inp : GraphInput) (u v : AppSource) : Prop :=
  exists m name dependency package,
    source_manifest (app_sources inp u) = Some m /\
    declared_dependencies m <> None /\
    (name, dependency) ∈ dependencies_for_target_os (app_sources inp u) /\
    package_choice inp name dependency = Some package /\
    resolve inp package = Some v /\
    source_manifest (app_sources inp v) <> None.

(** The same relation restricted to static dependencies, those whose
    declaration names a package. *)
Definition static_dependency_edge (inp : GraphInput) (u v : AppSource) : Prop :=
  exists m name dependency package,
    source_manifest (app_sources inp u) = Some m /\
    declared_dependencies m <> None /\
    (name, dependency) ∈ dependencies_for_target_os (app_sources inp u) /\
    truthy (Deployment.dep_package dependency) = Some package /\
    resolve inp package = Some v /\
    source_manifest (app_sources inp v) <> None.

End Construction.

Module DeploymentExamples.
Import InputGroups Deployment.

Definition dep_a : Dependency := {| dep_package := Some "a.tgz"; dep_version := "1.0"; dep_optional := false |}.
Definition dep_b : Dependency := {| dep_package := Some "b.tgz"; dep_version := "1.0"; dep_optional := false |}.

(** The root [app] depends on [a] (alias [A]) and [b] (alias [B]); its input
    group [g1] requires the input group [x] of [A] only. *)
Definition paths_graph : AppDependencyGraph := {|
  _root := "app";
  _graph := [("app", ["a"; "b"]); ("a", []); ("b", [])];
  _repository_sources := [("a.tgz", "a"); ("b.tgz", "b")];
  manifest := fun source =>
    if decide (source = "app") then
      {| manifest_dependencies := Some [("A", dep_a); ("B", dep_b)];
         manifest_inputGroups := Some [("g1", {| requires := Some [("A", {[ "x" ]})] |})] |}
    else {| manifest_dependencies := None; manifest_inputGroups := None |};
  dependencies := fun source =>
    if decide (source = "app") then [(dep_a, "a"); (dep_b, "b")] else [] |}.

Definition spec_g1 : AppDeploymentSpecification := mk_spec "deployment" ∅ (Some {[ "g1" ]}).
Definition spec_absent : AppDeploymentSpecification := mk_spec "deployment" ∅ None.

End DeploymentExamples.

(** ** Asset exclusion rules of [AppDeploymentPackage] *)
Module Packaging.

(** An element of an exclusion pattern: a glob, or the method
    [_exclude_conf_spec] used as a filter. *)
Inductive pattern_item :=
| Glob (glob : string)
| ExcludeConfSpec.

Abbreviation pattern := (list pattern_item).

Definition _exclusion_rule : list (pattern * gset string) := [
  ([Glob "app.manifest"], {[ "forwarder"; "indexer"; "searchHead" ]});
  ([Glob "appserver"], {[ "forwarder"; "indexer" ]});
  ([Glob "lookups"], {[ "forwarder"; "indexer" ]});
  ([Glob "static"], {[ "forwarder"; "indexer" ]});
  ([Glob "default"; Glob "data"], {[ "forwarder"; "indexer" ]});
  ([Glob "default"; Glob "*.conf"], {[ "forwarder"; "indexer"; "searchHead" ]});
  ([Glob "local"; Glob "*.conf"], {[ "forwarder"; "indexer"; "searchHead" ]});
  ([Glob "metadata"; Glob "local.meta"], {[ "forwarder"; "indexer"; "searchHead" ]});
  ([Glob "README"; ExcludeConfSpec], {[ "forwarder"; "indexer"; "searchHead" ]})
]%list.

(** The loop of [AppDeploymentPackage.__init__] gathering the exclusion
    patterns of a rule table for the specification's [workload]. *)
Definition exclusion_patterns_of (rules : list (pattern * gset string)) (workload : gset string)
  : list pattern :=
  foldl (fun exclusion_patterns '(pattern, excluded_roles) =>
    if decide (size (workload ∖ excluded_roles) = 0)
    then (exclusion_patterns ++ [pattern])%list else exclusion_patterns) [] rules.

Definition exclusion_patterns (workload : gset string) : list pattern :=
  exclusion_patterns_of _exclusion_rule workload.

End Packaging.

(** ** [os.path] (posixpath) on strings *)
Module PosixPath.

Definition sep : Ascii.ascii := "/"%char.

(** [s.startswith(prefix)] *)
Fixpoint startswith (s prefix : string) : bool :=
  match prefix, s with
  | EmptyString, _ => true
  | String c prefix', String d s' => bool_decide (c = d) && startswith s' prefix'
  | String _ _, EmptyString => false
  end.

Fixpoint endswith_sep (s : string) : bool :=
  match s with
  | EmptyString => false
  | String c EmptyString => bool_decide (c = sep)
  | String _ s' => endswith_sep s'
  end.

(** [s.split('/')] *)
Fixpoint split_sep (s : string) : list string :=
  match s with
  | EmptyString => [""]
  | String c s' =>
      let rest := split_sep s' in
      if bool_decide (c = sep) then "" :: rest
      else match rest with
           | x :: r => String c x :: r
           | [] => [String c ""]
           end
  end.

(** ['/'.join(parts)] *)
Fixpoint join_sep (parts : list string) : string :=
  match parts with
  | [] => ""
  | [x] => x
  | x :: rest => x ++ String sep (join_sep rest)
  end.

(** [path.join(a, b)] *)
Definition join (a b : string) : string :=
  if startswith b "/" then b
  else if bool_decide (a = "") || endswith_sep a then a ++ b
  else a ++ String sep b.

(** [path.normpath(path)] *)
Definition normpath (p : string) : string :=
  if bool_decide (p = "") then "." else
  let initial_slashes : nat :=
    if startswith p "/" then
      if startswith p "//" && negb (startswith p "///") then 2 else 1
    else 0 in
  let new_comps := foldl (fun new_comps comp =>
    if bool_decide (comp = "" \/ comp = ".") then new_comps
    else if bool_decide (comp <> "..") || (bool_decide (initial_slashes = 0) && bool_decide (new_comps = []))
            || bool_decide (last new_comps = Some "..")
    then (new_comps ++ [comp])%list
    else match new_comps with
         | [] => new_comps
         | _ => removelast new_comps
         end) [] (split_sep p) in
  let path := join_sep new_comps in
  let path := match initial_slashes with
              | 0 => path
              | 1 => "/" ++ path
              | _ => "//" ++ path
              end in
  if bool_decide (path = "") then "." else path.

(** [p[:p.rfind('/') + 1]] *)
Fixpoint head_through_sep (p : string) : option string :=
  match p with
  | EmptyString => None
  | String c p' =>
      match head_through_sep p' with
      | Some h => Some (String c h)
      | None => if bool_decide (c = sep) then Some (String c "") else None
      end
  end.

Fixpoint all_sep (s : string) : bool :=
  match s with
  | EmptyString => true
  | String c s' => bool_decide (c = sep) && all_sep s'
  end.

(** [s.rstrip('/')] *)
Fixpoint rstrip_sep (s : string) : string :=
  match s with
  | EmptyString => EmptyString
  | String c s' =>
      let r := rstrip_sep s' in
      if bool_decide (r = "") && bool_decide (c = sep) then "" else String c r
  end.

(** [path.dirname(p)] *)
Definition dirname (p : string) : string :=
  let head := default "" (head_through_sep p) in
  if negb (bool_decide (head = "")) && negb (all_sep head) then rstrip_sep head else head.

End PosixPath.

(** ** [AppDeploymentPackage._detect_is_empty] *)
Module Emptiness.
Import PosixPath.

(** A documentation item of the manifest's [info]; [item.text]. *)
Record DocItem := { text : option string }.

Record AppInfo := {
  license : option DocItem;
  privacyPolicy : option DocItem;
  releaseNotes : option DocItem
}.

(** [while len(filename) > 0: empty_set.add(...); filename = path.dirname(filename)],
    bounded by [fuel]. *)
Fixpoint add_directory_chain (fuel : nat) (app_root filename : string) (empty_set : gset string)
  : option (gset string) :=
  match fuel with
  | O => None
  | S fuel =>
      if bool_decide (filename = "") then Some empty_set
      else add_directory_chain fuel app_root (dirname filename)
             ({[ normpath (join app_root filename) ]} ∪ empty_set)
  end.

(** [configurations] is given by its keys; [asset_filenames] is a set. [None]
    when the directory-chain loop runs out of fuel. *)
Definition _detect_is_empty (fuel : nat) (app_info : AppInfo) (app_root : string)
    (asset_filenames : gset string) (configurations : list string) : option bool :=
  if bool_decide (length configurations = 0) ||
     (bool_decide (length configurations = 1) && bool_decide ("app" ∈ configurations)) then
    if bool_decide (size asset_filenames = 0) then Some true else
    let empty_set : gset string :=
      {[ join app_root "metadata"; join (join app_root "metadata") "default.meta" ]} in
    let empty_set := foldl (fun empty_set asset_file =>
      let app_bin := join app_root "bin" in
      if startswith asset_file app_bin then {[ asset_file ]} ∪ empty_set else empty_set)
      empty_set (elements asset_filenames) in
    let add_item (acc : option (gset string)) (item : option DocItem) : option (gset string) :=
      match acc with
      | None => None
      | Some empty_set =>
          match item with
          | None => Some empty_set
          | Some {| text := None |} => Some empty_set
          | Some {| text := Some item_text |} =>
              add_directory_chain fuel app_root (normpath item_text) empty_set
          end
      end in
    match foldl add_item (Some empty_set)
            [license app_info; privacyPolicy app_info; releaseNotes app_info] with
    | None => None
    | Some empty_set => Some (bool_decide (asset_filenames ⊆ empty_set))
    end
  else Some false.

Definition no_documents : AppInfo :=
  {| license := None; privacyPolicy := None; releaseNotes := None |}.

End Emptiness.

(** ** [AppServerClass.remove_app] *)
Module ServerClass.
Import Construction.

Inductive SlimStatus :=
| STATUS_OK
| STATUS_ERROR_DEPENDENCY_REQUIRED
| OtherStatus (code : nat).

(** The part of [slim_configuration.payload] that [remove_app] writes. *)
Record Payload := {
  dependency_requirements : option (list string);
  status : SlimStatus
}.

Definition newline : string := String "010"%char EmptyString.

(** [separator.join(items)] *)
Fixpoint join_with (separator : string) (items : list string) : string :=
  match items with
  | [] => ""
  | [x] => x
  | x :: rest => x ++ separator ++ join_with separator rest
  end.

Definition remove_app_message (app_id : string) (dependents : list string) : string :=
  app_id ++ " cannot be uninstalled because it is still required by these apps:" ++ newline ++ "    "
    ++ join_with (newline ++ "    ") dependents.

(** The installation graph ([AppInstallationGraph], not part of the files
    modelled here) is abstract: [get] is [self.apps.get], [dependents] is
    [installation.dependents] and [remove_installation] is
    [self.apps.remove_installation]. *)
Section RemoveApp.
Context {AppInstallationGraph AppInstallation : Type}.
Variable get : AppInstallationGraph -> string -> option AppInstallation.
Variable dependents : AppInstallation -> list string.
Variable remove_installation : AppInstallationGraph -> AppInstallation -> AppInstallationGraph.

(** A server class's installation graph, the logger's messages and the payload. *)
Record server_class_state := {
  apps : AppInstallationGraph;
  log : list event;
  payload : Payload
}.

Definition remove_app (st : server_class_state) (app_id : string) : server_class_state :=
  match get (apps st) app_id with
  | None => st
  | Some installation =>
      if bool_decide (0 < length (dependents installation)) then
        {| apps := apps st;
           log := (log st ++ [SlimError (remove_app_message app_id (dependents installation))])%list;
           payload := {| dependency_requirements := Some (dependents installation);
                         status := STATUS_ERROR_DEPENDENCY_REQUIRED |} |}
      else
        {| apps := remove_installation (apps st) installation; log := log st; payload := payload st |}
  end.

End RemoveApp.

End ServerClass.

(** ** [AppDependencyGraph.description] *)
Module Describe.
Import Deployment.

(** The attributes of the app sources that [_describe] reads: [id],
    [version] and [dependencies], the (dependency, source) pairs of the
    source in declaration order. *)
Record DescribeInput := {
  src_id : AppSource -> string;
  src_version : AppSource -> string;
  src_dependencies : AppSource -> list (Dependency * AppSource)
}.

(** [' ' * 3 * n] written as ['   ' * n]. *)
Fixpoint repeat_string (s : string) (n : nat) : string :=
  match n with
  | O => ""
  | S n => s ++ repeat_string s n
  end.

(** [AppDependencyGraph._describe(app_source, level)], bounded by [fuel]. *)
Fixpoint _describe (fuel : nat) (inp : DescribeInput) (app_source : AppSource) (level : nat)
  : option string :=
  match fuel with
  | O => None
  | S fuel =>
      let graph_output :=
        if Nat.eqb level 1 then
          "|-- " ++ src_id inp app_source ++ "@" ++ src_version inp app_source ++ ServerClass.newline
        else "" in
      foldl (fun acc '(app_dependency, app_dependency_source) =>
        match acc with
        | None => None
        | Some graph_output =>
            let graph_output := graph_output ++ "|" ++ repeat_string "   " level ++
              "|-- " ++ src_id inp app_dependency_source ++
              "@" ++ src_version inp app_dependency_source ++
              " (accepting " ++ dep_version app_dependency ++ ")" ++ ServerClass.newline in
            match _describe fuel inp app_dependency_source (S level) with
            | None => None
            | Some sub => Some (graph_output ++ sub)
            end
        end) (Some graph_output) (src_dependencies inp app_source)
  end.

(** The [description] property: the cached [_description] is returned if
    set; otherwise [_describe(root, 1)] is computed and cached. The result
    pairs the description with the new cache. *)
Definition description (fuel : nat) (inp : DescribeInput) (root : AppSource)
    (_description : option string) : option (string * option string) :=
  match _description with
  | Some d => Some (d, Some d)
  | None =>
      match _describe fuel inp root 1 with
      | None => None
      | Some d => Some (d, Some d)
      end
  end.

(** The edges of the tree unfolded from [root], depth first in declaration
    order, each with its depth. *)
Fixpoint dfs_edges (fuel : nat) (inp : DescribeInput) (u : AppSource) (level : nat)
  : option (list (nat * Dependency * AppSource)) :=
  match fuel with
  | O => None
  | S fuel =>
      foldl (fun acc '(dependency, v) =>
        match acc with
        | None => None
        | Some edges =>
            match dfs_edges fuel inp v (S level) with
            | None => None
            | Some sub => Some (edges ++ [(level, dependency, v)] ++ sub)%list
            end
        end) (Some []) (src_dependencies inp u)
  end.

Fixpoint concat_lines (lines : list string) : string :=
  match lines with
  | [] => ""
  | line :: lines => line ++ concat_lines lines
  end.

Definition root_line (inp : DescribeInput) (root : AppSource) : string :=
  "|-- " ++ src_id inp root ++ "@" ++ src_version inp root ++ ServerClass.newline.

Definition entry_text (inp : DescribeInput) (dependency : Dependency) (v : AppSource) : string :=
  src_id inp v ++ "@" ++ src_version inp v ++ " (accepting " ++ dep_version dependency ++ ")"
    ++ ServerClass.newline.

(** The line of an edge at depth [n]: one bar, then three spaces per level. *)
Definition tree_line (inp : DescribeInput) (edge : nat * Dependency * AppSource) : string :=
  let '(n, dependency, v) := edge in
  "|" ++ repeat_string "   " n ++ "|-- " ++ entry_text inp dependency v.

(** The line of an edge at depth [n] as the spec words it: one ["|   "]
    unit per level before the ["|-- "] marker. *)
Definition spec_tree_line (inp : DescribeInput) (edge : nat * Dependency * AppSource) : string :=
  let '(n, dependency, v) := edge in
  repeat_string "|   " n ++ "|-- " ++ entry_text inp dependency v.

End Describe.

(** ** [JsonArray] of [_internal/json_data.py] *)
Module JsonData.

(** The JSON-decoded Python values. *)
#[warnings="-register-all"]
Inductive pyval :=
| PyNone
| PyBool (b : bool)
| PyNum (z : Z)
| PyStr (s : string)
| PyList (items : list pyval)
| PyDict (items : list (string * pyval)).

(** The data types and values of a schema, without converters and objects
    ([converter] is [None]). *)
Inductive data_type :=
| JsonBoolean
| JsonNumber
| JsonString
| JsonArray (definition : json_value)
with json_value :=
| JsonValue (data_type : data_type) (default : pyval) (required : bool).

Inductive exn := TypeError | ValueError.

(** An argument of [onerror]. *)
Inductive arg := AStr (s : string) | AVal (v : pyval).

(** A computation that may raise, threading the messages passed to an
    [onerror] that returns; [raising] is an [onerror] that raises
    [ValueError], as [JsonSchema._onerror] does. *)
Definition M (A : Type) : Type := bool -> list (list arg) -> exn + (A * list (list arg)).

Definition ret {A} (a : A) : M A := fun _ log => inr (a, log).
Definition bind {A B} (m : M A) (k : A -> M B) : M B :=
  fun raising log => match m raising log with
                     | inl e => inl e
                     | inr (a, log) => k a raising log
                     end.
Definition raise {A} (e : exn) : M A := fun _ _ => inl e.
Definition onerror (args : list arg) : M unit :=
  fun raising log => if raising then inl ValueError else inr (tt, (log ++ [args])%list).

Notation "'let*' x := m 'in' k" := (bind m (fun x => k)) (at level 200, x name, m at level 100, k at level 200).

(** [isinstance(value, Iterable)] *)
Definition iterable (v : pyval) : bool :=
  match v with PyStr _ | PyList _ | PyDict _ => true | _ => false end.

(** [enumerate(value)]'s elements, [TypeError] for a value that is not
    iterable. *)
Fixpoint string_chars (s : string) : list pyval :=
  match s with
  | EmptyString => []
  | String c s' => PyStr (String c EmptyString) :: string_chars s'
  end.

Definition elements_of (v : pyval) : M (list pyval) :=
  match v with
  | PyStr s => ret (string_chars s)
  | PyList items => ret items
  | PyDict items => ret (map (fun kv => PyStr kv.1) items)
  | _ => raise TypeError
  end.

Fixpoint dt_name (dt : data_type) : string :=
  match dt with
  | JsonBoolean => "Boolean"
  | JsonNumber => "Number"
  | JsonString => "String"
  | JsonArray (JsonValue d _ _) => "Array of " ++ dt_name d
  end.

(** [is_instance] *)
Fixpoint is_instance (dt : data_type) (v : pyval) : bool :=
  match dt, v with
  | JsonBoolean, PyBool _ => true
  | JsonNumber, PyNum _ => true
  | JsonString, PyStr _ => true
  | JsonArray (JsonValue d _ _), v => iterable v || is_instance d v
  | _, _ => false
  end.

(** [JsonDataType.validate] *)
Definition base_validate (dt : data_type) (name : string) (v : pyval) : M bool :=
  if is_instance dt v then ret true
  else let* _ := onerror [AStr "Expected "; AStr (dt_name dt); AStr " value for "; AStr name; AStr ", not "; AVal v] in
       ret false.

(** The index of [enumerate] as it is printed by [string(i)]. *)
Definition index_string (i : nat) : string := pretty (N.of_nat i).

(** [validate] of a data type ([JsonArray.validate] for arrays) and of a
    [JsonValue]. *)
Fixpoint dt_validate (dt : data_type) (name : string) (v : pyval) {struct dt} : M bool :=
  match dt with
  | JsonArray definition =>
      let* ok := base_validate dt name v in
      if negb ok then ret false
      else if is_instance dt v then
        let* elements := elements_of v in
        let* error_count := (fix count (i : nat) (elements : list pyval) : M nat :=
           match elements with
           | [] => ret 0
           | element :: elements =>
               let* r := value_validate definition (name ++ "[" ++ index_string i ++ "]") element in
               let* rest := count (S i) elements in
               ret ((if r then 0 else 1) + rest)
           end) 0 elements in
        ret (Nat.eqb error_count 0)
      else value_validate definition name v
  | _ => base_validate dt name v
  end
with value_validate (jv : json_value) (name : string) (v : pyval) {struct jv} : M bool :=
  match jv with
  | JsonValue dt _ required =>
      match v with
      | PyNone =>
          if required then let* _ := onerror [AStr "A value of type "; AStr (dt_name dt); AStr " is required for "; AStr name] in
                           ret false
          else ret true
      | _ => dt_validate dt name v
      end
  end.

(** [convert_from] of a data type ([JsonArray.convert_from] for arrays,
    [JsonDataType.convert_from] and [JsonString.convert_from] otherwise) and
    of a [JsonValue]; a non-list iterable rebuilt by [type(value)(...)] is
    reported as [TypeError]. *)
Fixpoint dt_convert_from (dt : data_type) (name : string) (v : pyval) (default : pyval) {struct dt}
  : M pyval :=
  match dt with
  | JsonArray definition =>
      let* ok := dt_validate dt name v in
      if negb ok then ret default
      else
        let '(JsonValue element_type _ _) := definition in
        if is_instance element_type v then
          let* x := value_convert_from definition name v in
          ret (PyList [x])
        else
          match v with
          | PyList items =>
              let* items := (fix convert (i : nat) (items : list pyval) : M (list pyval) :=
                 match items with
                 | [] => ret []
                 | element :: items =>
                     let* x := value_convert_from definition (name ++ "[" ++ index_string i ++ "]") element in
                     let* rest := convert (S i) items in
                     ret (x :: rest)
                 end) 0 items in
              ret (PyList items)
          | _ => raise TypeError
          end
  | _ =>
      let* ok := dt_validate dt name v in
      if ok then ret v else ret default
  end
with value_convert_from (jv : json_value) (name : string) (v : pyval) {struct jv} : M pyval :=
  match jv with
  | JsonValue dt default required =>
      match v with
      | PyNone =>
          if required then let* _ := onerror [AStr "A value of type "; AStr (dt_name dt); AStr " is required for "; AStr name] in
                           ret default
          else ret default
      | _ => dt_convert_from dt name v default
      end
  end.

End JsonData.

(** ** [JsonSchema.convert_from] *)
Module JsonSchemaModel.
Import JsonData.

(** [self.definition.validate(name, value, onerror)], then
    [self.definition.convert_from(name, value, onerror)] with the same
    [onerror] ([raising] for the default [JsonSchema._onerror]). *)
Definition JsonSchema_convert_from (definition : json_value) (name : string) (value : pyval)
  : M pyval :=
  let* _ := value_validate definition name value in
  value_convert_from definition name value.

(** The data types whose [validate] is [JsonDataType.validate]. *)
Definition scalar (dt : data_type) : bool :=
  match dt with JsonArray _ => false | _ => true end.

End JsonSchemaModel.

(** ** The converters of [AppDeploymentSpecification.schema] *)
Module SpecificationSchema.
Import InputGroups Deployment.

Abbreviation exn := JsonData.exn.
Abbreviation ValueError := JsonData.ValueError.

(** [AppDeploymentSpecification.is_all_input_groups]; [None] is [None]. *)
Definition is_all_input_groups (input_groups : option input_groups) : bool :=
  match input_groups with
  | None => true
  | Some g => bool_decide (g = all_input_groups)
  end.

(** [AppDeploymentSpecification.are_no_input_groups] *)
Definition are_no_input_groups (input_groups : option input_groups) : bool :=
  match input_groups with
  | None => false
  | Some g => bool_decide (g = no_input_groups)
  end.

(** [InputGroupsConverter.convert_from]; [value] is the converted JSON array
    of strings. *)
Definition InputGroupsConverter_convert_from (value : list string) : input_groups :=
  if bool_decide (length value = 0) then no_input_groups
  else
    let value : input_groups := list_to_set value in
    if bool_decide ("*" ∈ value) then all_input_groups else value.

Definition _workload_names : gset string := {[ "forwarder"; "indexer"; "searchHead" ]}.

(** [WorkloadConverter.convert_from] *)
Definition WorkloadConverter_convert_from (value : list string) : exn + gset string :=
  if bool_decide (list_to_set value ⊆ _workload_names) then inr (list_to_set value)
  else inl ValueError.

(** A character of the class [[-._ a-zA-Z0-9]]. *)
Definition safe_filename_char (c : ascii) : bool :=
  let n := nat_of_ascii c in
  Nat.eqb n 45 || Nat.eqb n 46 || Nat.eqb n 95 || Nat.eqb n 32 ||
  (Nat.leb 97 n && Nat.leb n 122) || (Nat.leb 65 n && Nat.leb n 90) ||
  (Nat.leb 48 n && Nat.leb n 57).

(** [_safe_filename.match(r)] for the pattern [[-._ a-zA-Z0-9]+$]: after at
    least one character of the class ([matched]), [$] matches at the end of
    the string or before a newline that ends it; otherwise one more
    character of the class is consumed. *)
Fixpoint safe_filename_match (r : string) (matched : bool) : bool :=
  (matched && (bool_decide (r = "") || bool_decide (r = String "010"%char ""))) ||
  match r with
  | EmptyString => false
  | String c r' => safe_filename_char c && safe_filename_match r' true
  end.

(** [SafeFilenameConverter.convert_from] *)
Definition SafeFilenameConverter_convert_from (value : string) : exn + string :=
  if safe_filename_match value false then inr value else inl ValueError.

(** [Converter.convert_from] on the object after its fields are converted;
    an absent [inputGroups] field is [None], as [value.get] has it. *)
Definition Converter_convert_from (value : AppDeploymentSpecification)
  : exn + AppDeploymentSpecification :=
  match spec_inputGroups value with
  | None =>
      if bool_decide ("forwarder" ∈ spec_workload value)
      then inr (mk_spec (spec_name value) (spec_workload value) (Some all_input_groups))
      else inr value
  | Some _ =>
      if bool_decide ("forwarder" ∈ spec_workload value) then inr value
      else inl ValueError
  end.

(** [AppDeploymentSpecification.schema.convert_from(value)] with the default
    [onerror] (which raises [ValueError]) for a JSON object whose fields are
    [name] (a string), [workload] (an array of strings) and, optionally,
    [inputGroups] (an array of strings, [None] when absent or null). Such an
    object validates; [JsonObject.convert_from] converts the fields in order
    and then applies [Converter]. A converter's [ValueError] either reaches
    [onerror], which raises [ValueError], or propagates ([JsonArray] calls
    its converter outside a [try]). An absent [inputGroups] is the field's
    default [None], its converter not being called. *)
Definition schema_convert_from (name : string) (workload : list string)
    (inputGroups : option (list string)) : exn + AppDeploymentSpecification :=
  match SafeFilenameConverter_convert_from name with
  | inl e => inl e
  | inr name =>
      match WorkloadConverter_convert_from workload with
      | inl e => inl e
      | inr workload =>
          Converter_convert_from
            (mk_spec name workload (option_map InputGroupsConverter_convert_from inputGroups))
      end
  end.

End SpecificationSchema.

(** ** [AppDeploymentSpecification.from_forwarder_workloads] *)
Module ForwarderWorkloads.
Import InputGroups OD Deployment.

(** The exceptions the method can raise; [AttributeError] would be reading
    [inputGroups] of a specification without it, which the dictionary never
    holds. *)
Inductive exn := ValueError | AttributeError.

Abbreviation specifications := (list (string * AppDeploymentSpecification)).



End ForwarderWorkloads.

(** ** [AppDeploymentSpecification.get_deployment_specifications] (the static one) *)
Module StaticSpecifications.
Import InputGroups Deployment.

(** [del deployment_specifications[index]] past the end. *)
Inductive exn := IndexError.

(** [SlimLogger.error] messages. *)
Abbreviation event := Construction.event.

Section Static.
(** [encode_string], from the utilities package. *)
Variable encode_string : string -> string.

Definition spec_without_input_groups (name : string) (workload : gset string) : AppDeploymentSpecification :=
  mk_spec name workload None.

(** [del l[index]] *)
Definition delete_at (index : nat) (l : list AppDeploymentSpecification)
  : exn + list AppDeploymentSpecification :=
  if bool_decide (index < length l) then inr (take index l ++ drop (S index) l)%list
  else inl IndexError.

(** [not workload.isdisjoint(('searchHead', 'indexer'))] *)
Definition targets_search_head_or_indexer (deployment_specification : AppDeploymentSpecification) : bool :=
  bool_decide ("searchHead" ∈ spec_workload deployment_specification \/
               "indexer" ∈ spec_workload deployment_specification).

(** The [enumerate] loop of the combined branch: the union of the input
    groups and the indices to remove. *)
Definition combined_loop (deployment_specifications : list AppDeploymentSpecification)
  : input_groups * list nat :=
  foldl (fun acc '(index, deployment_specification) =>
    let '(input_groups, remove_list) := acc in
    if negb (targets_search_head_or_indexer deployment_specification) then acc
    else match spec_inputGroups deployment_specification with
         | None => acc
         | Some g => (input_groups ∪ g, (remove_list ++ [index])%list)
         end) (∅, []) (zip (seq 0 (length deployment_specifications)) deployment_specifications).

(** [for index in remove_list: del deployment_specifications[index]] *)
Definition remove_indices (remove_list : list nat) (deployment_specifications : list AppDeploymentSpecification)
  : exn + list AppDeploymentSpecification :=
  foldl (fun acc index =>
    match acc with
    | inl e => inl e
    | inr l => delete_at index l
    end) (inr deployment_specifications) remove_list.

(** The [for deployment_specification in deployment_specifications] loop of
    the other branch, with its [break]; [None] is [update_list = None]. *)
Fixpoint update_loop (update_list : gset string) (deployment_specifications : list AppDeploymentSpecification)
  : option (gset string) :=
  match deployment_specifications with
  | [] => Some update_list
  | deployment_specification :: rest =>
      let workload := spec_workload deployment_specification ∩ update_list in
      let count := size workload in
      if bool_decide (count = 0) then update_loop update_list rest
      else if bool_decide (count = size update_list) then None
      else update_loop (update_list ∖ workload) rest
  end.

(** The name-clash loop: the error messages it logs. *)
Definition name_clash_errors (deployment_specifications : list AppDeploymentSpecification) : list event :=
  (foldl (fun acc deployment_specification =>
     let '(name_clashes, log) := acc in
     let name := spec_name deployment_specification in
     (({[ name ]} ∪ name_clashes : gset string),
      if bool_decide (name ∈ name_clashes)
      then (log ++ [Construction.SlimError ("Duplicate deployment specification name: " ++ encode_string name)])%list
      else log)) (∅, []) deployment_specifications).2.

Definition get_deployment_specifications (deployment_specifications : list AppDeploymentSpecification)
    (combine_search_head_indexer_workloads : bool)
    (forwarder_deployment_specifications : option (list AppDeploymentSpecification))
  : exn + (list AppDeploymentSpecification * list event) :=
  let result :=
    if combine_search_head_indexer_workloads then
      if bool_decide (length deployment_specifications = 0) then
        inr (deployment_specifications ++
             [spec_without_input_groups "_search_head_indexers" {[ "searchHead"; "indexer" ]};
              spec_without_input_groups "_forwarders" {[ "forwarder" ]}])%list
      else
        let '(input_groups, remove_list) := combined_loop deployment_specifications in
        match remove_indices remove_list deployment_specifications with
        | inl e => inl e
        | inr deployment_specifications =>
            let deployment_specification :=
              if bool_decide (size input_groups = 0)
              then spec_without_input_groups "_search_head_indexers" {[ "searchHead"; "indexer" ]}
              else mk_spec "_search_head_indexers" {[ "searchHead"; "indexer"; "forwarder" ]}
                     (Some input_groups) in
            inr (deployment_specifications ++ [deployment_specification])%list
        end
    else
      let update_list :=
        if bool_decide (length deployment_specifications = 0) &&
           bool_decide (forwarder_deployment_specifications = None)
        then Some {[ "searchHead"; "indexer"; "forwarder" ]}
        else update_loop {[ "searchHead"; "indexer" ]} deployment_specifications in
      let deployment_specifications :=
        match update_list with
        | None => deployment_specifications
        | Some update_list =>
            (deployment_specifications ++
             (if bool_decide ("searchHead" ∈ update_list)
              then [spec_without_input_groups "_search_heads" {[ "searchHead" ]}] else []) ++
             (if bool_decide ("indexer" ∈ update_list)
              then [spec_without_input_groups "_indexers" {[ "indexer" ]}] else []) ++
             (if bool_decide ("forwarder" ∈ update_list)
              then [spec_without_input_groups "_forwarders" {[ "forwarder" ]}] else []))%list
        end in
      inr (match forwarder_deployment_specifications with
           | None => deployment_specifications
           | Some f => deployment_specifications ++ f
           end)%list in
  match result with
  | inl e => inl e
  | inr deployment_specifications =>
      inr (deployment_specifications, name_clash_errors deployment_specifications)
  end.

End Static.
End StaticSpecifications.

(** ** [AppDependencyGraph.traverse] *)
Module Traverse.
Import OD.

Abbreviation AppSource := string.

Inductive exn := KeyError.

Section Traverse.
(** [visit] is the caller's callback; its effects are the state [St] it
    threads. [D] is the type of the values of [self._dependents]. *)
Context {St D : Type}.
Variable visit : St -> AppSource -> list AppSource -> option D -> St * list AppSource.
Variable graph : list (AppSource * list AppSource).
Variable app_dependents : list (AppSource * D).

(** The [while] loop, one iteration per unit of [fuel] ([None] when it runs
    out). The deque is kept reversed: its right end, where [pop] takes from,
    is the head of the list, so [extendleft(xs)] appends [xs] at the end. *)
Fixpoint traverse_loop (fuel : nat) (st : St) (queue : list AppSource) (visited : gset AppSource)
  : option (exn + St) :=
  match fuel with
  | O => None
  | S fuel =>
      match queue with
      | [] => Some (inr st)
      | app_source :: queue =>
          if bool_decide (app_source ∈ visited) then traverse_loop fuel st queue visited
          else match od_get app_source graph with
               | None => Some (inl KeyError)
               | Some dependency_sources =>
                   let dependent_sources := od_get app_source app_dependents in
                   let '(st, dependency_sources) := visit st app_source dependency_sources dependent_sources in
                   traverse_loop fuel st (queue ++ dependency_sources)%list ({[ app_source ]} ∪ visited)
               end
      end
  end.

(** [traverse] returns [app_dependents]; the callback's final state is returned beside it. *)
Definition traverse (fuel : nat) (root : AppSource) (st : St) : option (exn + (list (AppSource * D) * St)) :=
  match traverse_loop fuel st [root] ∅ with
  | None => None
  | Some (inl e) => Some (inl e)
  | Some (inr st) => Some (inr (app_dependents, st))
  end.

End Traverse.

End Traverse.

(** ** [AppDeploymentPackage._split_filename] *)
Module SplitFilename.
Import PosixPath.

(** [p[p.rfind('/') + 1:]] *)
Fixpoint tail_after_sep (p : string) : string :=
  match p with
  | EmptyString => EmptyString
  | String c p' =>
      match head_through_sep p' with
      | Some _ => tail_after_sep p'
      | None => if bool_decide (c = sep) then p' else String c p'
      end
  end.

(** [path.split(p)] *)
Definition split (p : string) : string * string :=
  let head := default "" (head_through_sep p) in
  let head := if negb (bool_decide (head = "")) && negb (all_sep head) then rstrip_sep head else head in
  (head, tail_after_sep p).

(** [while len(filename) > 0: filename, part = path.split(filename); parts.append(part)],
    one iteration per unit of [fuel] ([None] when it runs out). *)
Fixpoint split_loop (fuel : nat) (filename : string) (parts : list string) : option (list string) :=
  match fuel with
  | O => None
  | S fuel =>
      if bool_decide (filename = "") then Some parts
      else let '(filename, part) := split filename in
           split_loop fuel filename (parts ++ [part])%list
  end.

Definition _split_filename (fuel : nat) (filename : string) : option (list string) :=
  split_loop fuel filename [].

End SplitFilename.

(** ** [AppServerClass.get_source] *)
Module GetSource.
Import OD PosixPath Construction.

Section GetSource.
(** [AppSource(package)], and [encode_filename] from the utilities package. *)
Context {Source : Type}.
Variable AppSource_of : string -> Source.
Variable encode_filename : string -> string.

(** [self._repository] maps package names to a source, or to [None] until
    the source is created; the result is the source, the repository
    afterwards and the messages logged. *)
Definition get_source (repository : list (string * option Source)) (repository_path package : string)
  : option Source * list (string * option Source) * list event :=
  match od_get package repository with
  | None =>
      (None, repository,
       [SlimError ("Package " ++ encode_filename package ++ " not found in repository directory "
                   ++ encode_filename repository_path)])
  | Some (Some source) => (Some source, repository, [])
  | Some None =>
      let package := join repository_path package in
      let source := AppSource_of package in
      (Some source, od_set package (Some source) repository, [])
  end.

End GetSource.

End GetSource.

(** ** [AppServerClassCollection.remove_app] *)
Module CollectionRemoveApp.
Import OD Construction ServerClass.

Inductive exn := KeyError.

Section CollectionRemoveApp.
Context {AppInstallationGraph AppInstallation : Type}.
Variable get : AppInstallationGraph -> string -> option AppInstallation.
Variable dependents : AppInstallation -> list string.
Variable remove_installation : AppInstallationGraph -> AppInstallation -> AppInstallationGraph.
(** [app_id in collection.apps] *)
Variable contains : AppInstallationGraph -> string -> bool.

(** [self._collection], each server class given by its installation graph,
    with the logger's messages and the payload. *)
Record collection_state := {
  collection : list (string * AppInstallationGraph);
  collection_log : list event;
  collection_payload : Payload
}.

Definition app_not_installed (app_id : string) : event :=
  SlimWarning ("App " ++ app_id ++ " has not been installed.").

Definition remove_app (st : collection_state) (app_id : string) (server_classes : list string)
  : exn + collection_state :=
  let loop := foldl (fun acc name =>
    match acc with
    | inl e => inl e
    | inr (st, app_found) =>
        match od_get name (collection st) with
        | None => inl KeyError
        | Some apps =>
            if contains apps app_id then
              let server_class := ServerClass.remove_app get dependents remove_installation
                {| ServerClass.apps := apps; log := collection_log st; payload := collection_payload st |} app_id in
              inr ({| collection := od_set name (ServerClass.apps server_class) (collection st);
                      collection_log := log server_class;
                      collection_payload := payload server_class |}, true)
            else inr (st, app_found)
        end
    end) (inr (st, false)) server_classes in
  match loop with
  | inl e => inl e
  | inr (st, app_found) =>
      if app_found then inr st
      else inr {| collection := collection st;
                  collection_log := (collection_log st ++ [app_not_installed app_id])%list;
                  collection_payload := collection_payload st |}
  end.

End CollectionRemoveApp.

End CollectionRemoveApp.

(** ** [AppDeploymentPackage._get_excluded_filenames] and its match functions *)
Module ExcludedFilenames.
Import Packaging.
Local Open Scope list_scope.

(** [fnmatch] given a pattern that is not a string raises a [TypeError];
    [ignore_pattern[-1]] of an empty pattern raises an [IndexError]. *)
Inductive exn := TypeError | IndexError.

(** [s.endswith(suffix)] *)
Definition endswith (s suffix : string) : bool :=
  Nat.leb (String.length suffix) (String.length s) &&
  String.eqb (String.substring (String.length s - String.length suffix) (String.length suffix) s) suffix.

(** [AppDeploymentPackage._exclude_conf_spec], [self._configuration] given
    by its keys. *)
Definition _exclude_conf_spec (configuration : gset string) (filename : string) : bool :=
  if endswith filename ".conf.spec" then
    let configuration_name := String.substring 0 (String.length filename - String.length ".conf.spec") filename in
    bool_decide (configuration_name ∉ configuration)
  else false.

Section Excluded.
(** [fnmatch.fnmatch(filename, pattern)] on string patterns *)
Variable fnmatch : string -> string -> bool.
Variable configuration : gset string.

(** [fnmatch(filename, pattern)] on an item of an exclusion pattern *)
Definition fnmatch_item (filename : string) (pattern : pattern_item) : exn + bool :=
  match pattern with
  | Glob glob => inr (fnmatch filename glob)
  | ExcludeConfSpec => inl TypeError
  end.

Definition _get_match_function (pattern : pattern_item) : string -> bool :=
  match pattern with
  | Glob glob => fun filename => fnmatch filename glob
  | ExcludeConfSpec => _exclude_conf_spec configuration
  end.

(** [for filename, pattern in zip(filenames, ignore_pattern)]: stops at the
    shorter list and breaks at the first mismatch. *)
Fixpoint zip_match (filenames : list string) (ignore_pattern : pattern) : exn + bool :=
  match filenames, ignore_pattern with
  | filename :: filenames', pattern :: ignore_pattern' =>
      match fnmatch_item filename pattern with
      | inl e => inl e
      | inr true => zip_match filenames' ignore_pattern'
      | inr false => inr false
      end
  | _, _ => inr true
  end.

(** [ignore_pattern[-1]] *)
Definition last_item (ignore_pattern : pattern) : exn + pattern_item :=
  match last ignore_pattern with
  | Some pattern => inr pattern
  | None => inl IndexError
  end.

(** The first loop of [_get_excluded_filenames], gathering [candidates]. *)
Definition candidates_of (root : list string) (ignore_patterns : list pattern)
  : exn + list (string -> bool) :=
  let part_count := length root + 1 in
  foldl (fun acc ignore_pattern =>
    match acc with
    | inl e => inl e
    | inr candidates =>
        if decide (length ignore_pattern <> part_count) then inr candidates
        else match zip_match (rev root) ignore_pattern with
             | inl e => inl e
             | inr true =>
                 match last_item ignore_pattern with
                 | inl e => inl e
                 | inr pattern => inr (candidates ++ [_get_match_function pattern])
                 end
             | inr false => inr candidates
             end
    end) (inr []) ignore_patterns.

(** [for match_function in candidates: if match_function(filename): ... break] *)
Fixpoint any_match (candidates : list (string -> bool)) (filename : string) : bool :=
  match candidates with
  | [] => false
  | match_function :: candidates' =>
      if match_function filename then true else any_match candidates' filename
  end.

Definition _get_excluded_filenames (root names : list string) (ignore_patterns : list pattern)
  : exn + list string :=
  match candidates_of root ignore_patterns with
  | inl e => inl e
  | inr candidates =>
      if decide (length candidates = 0) then inr []
      else inr (foldl (fun ignored_names filename =>
                  if any_match candidates filename then ignored_names ++ [filename]
                  else ignored_names) [] names)
  end.

End Excluded.

End ExcludedFilenames.

(** ** Concrete inputs *)
Module Examples.
Import Construction.

Definition dep (package : option string) : Deployment.Dependency :=
  {| Deployment.dep_package := package; Deployment.dep_version := "~1.0";
     Deployment.dep_optional := false |}.

(** The root [app] declares a dynamic dependency [x] (no package: it is taken
    from the installed packages) and a static dependency [b]. *)
Definition installed_input : GraphInput := {|
  app_sources := fun s =>
    if decide (s = "app") then
      {| source_manifest := Some {| info_version := "1.0";
           declared_dependencies := Some [("x", dep None); ("b", dep (Some "b.tgz"))] |};
         dependencies_for_target_os := [("x", dep None); ("b", dep (Some "b.tgz"))] |}
    else
      {| source_manifest := Some {| info_version := "1.0"; declared_dependencies := None |};
         dependencies_for_target_os := [] |};
  dependency_sources := [];
  repository_sources := [("x.tgz", "x"); ("b.tgz", "b")];
  installed_packages := [("x", "x.tgz")];
  version_match := fun _ _ => true |}.

Definition version_1 : Deployment.Dependency :=
  {| Deployment.dep_package := None; Deployment.dep_version := "~1.0"; Deployment.dep_optional := false |}.

(** [app] depends on [a], which depends on [b]. *)
Definition chain_input : Describe.DescribeInput := {|
  Describe.src_id := fun source => source;
  Describe.src_version := fun _ => "1.0";
  Describe.src_dependencies := fun source =>
    if decide (source = "app") then [(version_1, "a")]
    else if decide (source = "a") then [(version_1, "b")] else [] |}.

(** An array of numbers and an array of strings, with no default. *)
Definition numbers : JsonData.data_type :=
  JsonData.JsonArray (JsonData.JsonValue JsonData.JsonNumber JsonData.PyNone false).
Definition strings : JsonData.data_type :=
  JsonData.JsonArray (JsonData.JsonValue JsonData.JsonString JsonData.PyNone false).

End Examples.

(** * Proofs *)

Module InputGroupsFacts.
Import InputGroups.

Lemma union_of_subseteq (a b : input_groups) : _union_of a b ⊆ a ∪ b.
Proof.
  unfold _union_of, all_input_groups.
  case_bool_decide as H; [destruct H; set_solver | set_solver].
Qed.

Lemma union_of_empty (a b : input_groups) :
  _union_of a b = ∅ <-> a = ∅ /\ b = ∅.
Proof.
  unfold _union_of, all_input_groups. case_bool_decide as H.
  - split; [intros E; exfalso;
      assert (Hs : "*" ∈ ({[ "*" ]} : input_groups)) by set_solver;
      rewrite E in Hs; set_solver|].
    intros [-> ->]; destruct H; set_solver.
  - split; [intros E; split; set_solver | intros [-> ->]; set_solver].
Qed.

(** C1 (counterexample): idempotence fails for a set holding the wildcard
    next to another group name: [union_of({'*','a'}, {'*','a'})] is ALL. *)
Lemma union_of_not_idempotent :
  let x : input_groups := {[ "*"; "a" ]} in _union_of x x <> x.
Proof.
  simpl. unfold _union_of, all_input_groups.
  rewrite bool_decide_true by set_solver.
  intros E. assert (Ha : "a" ∈ ({[ "*" ]} : input_groups)) by (rewrite E; set_solver).
  apply elem_of_singleton in Ha. discriminate.
Qed.

(** C1 (amended): ALL absorbs on both sides, NONE is preserved, the union is
    commutative, and it is idempotent on every set without the wildcard and
    on ALL; a set holding the wildcard is sent to ALL by union with itself. *)
Theorem union_of_algebra :
  (forall x, _union_of all_input_groups x = all_input_groups) /\
  (forall x, _union_of x all_input_groups = all_input_groups) /\
  _union_of no_input_groups no_input_groups = no_input_groups /\
  (forall x y, _union_of x y = _union_of y x) /\
  (forall x, "*" ∉ x -> _union_of x x = x) /\
  _union_of all_input_groups all_input_groups = all_input_groups /\
  (forall x, "*" ∈ x -> _union_of x x = all_input_groups).
Proof.
  unfold _union_of, all_input_groups, no_input_groups.
  split; [intros x; rewrite bool_decide_true by set_solver; done|].
  split; [intros x; rewrite bool_decide_true by set_solver; done|].
  split; [rewrite bool_decide_false by set_solver; set_solver|].
  split.
  { intros x y. case_bool_decide as H1; case_bool_decide as H2;
      [done | exfalso; tauto | exfalso; tauto | set_solver]. }
  split; [intros x Hx; rewrite bool_decide_false by set_solver; set_solver|].
  split; [rewrite bool_decide_true by set_solver; done|].
  intros x Hx; rewrite bool_decide_true by set_solver; done.
Qed.

End InputGroupsFacts.

Module ODFacts.
Import OD.
Local Open Scope list_scope.

Section Facts.
Context {K V : Type} `{EqDecision K}.

Lemma od_set_fresh (k : K) (v : V) (d : list (K * V)) :
  k ∉ map fst d -> od_set k v d = d ++ [(k, v)].
Proof.
  induction d as [|[k' v'] d IH]; intros Hk; simpl; [done|].
  simpl in Hk. rewrite decide_False by set_solver.
  rewrite IH by set_solver. done.
Qed.

Lemma od_get_set (k k' : K) (v : V) (d : list (K * V)) :
  od_get k (od_set k' v d) = if decide (k = k') then Some v else od_get k d.
Proof.
  induction d as [|[k'' v''] d IH]; simpl.
  - destruct (decide (k = k')); done.
  - destruct (decide (k' = k'')) as [->|Hne]; simpl.
    + destruct (decide (k = k'')); done.
    + destruct (decide (k = k'')) as [->|]; rewrite ?IH;
        [rewrite decide_False by congruence|]; done.
Qed.

Lemma od_get_In (k : K) (v : V) (d : list (K * V)) :
  od_get k d = Some v -> In (k, v) d.
Proof.
  induction d as [|[k' v'] d IH]; simpl; [done|].
  destruct (decide (k = k')) as [->|]; [intros [= ->]; left; done|].
  intros H; right; auto.
Qed.

Lemma od_of_pairs_distinct (pairs : list (K * V)) :
  NoDup (map fst pairs) -> od_of_pairs pairs = pairs.
Proof.
  unfold od_of_pairs. intros Hnd.
  enough (Hgen : forall acc, NoDup (map fst (acc ++ pairs)) ->
            fold_left (fun d kv => od_set kv.1 kv.2 d) pairs acc = acc ++ pairs)
    by (apply (Hgen []); exact Hnd).
  clear Hnd. induction pairs as [|[k v] pairs IH]; intros acc Hnd; simpl.
  - rewrite app_nil_r; done.
  - rewrite od_set_fresh.
    + rewrite IH; [rewrite <- app_assoc; done|].
      rewrite <- app_assoc; exact Hnd.
    + rewrite map_app in Hnd. simpl in Hnd.
      apply NoDup_app in Hnd as (_ & Hdis & _).
      intros Hin. apply (Hdis k Hin). set_solver.
Qed.

End Facts.
End ODFacts.

Module DeploymentFacts.
Import InputGroups OD ODFacts Deployment.

(** C2: with [inputGroups] absent or ALL, [get_deployment_specifications]
    returns an ordered mapping whose keys are exactly the graph's nodes, in
    graph order, each mapped to the given specification itself. *)
Theorem get_deployment_specifications_uniform
    (fuel : nat) (g : AppDependencyGraph) (s : AppDeploymentSpecification)
    (Hnodes : NoDup (map fst (_graph g)))
    (Hall : spec_inputGroups s = None \/ spec_inputGroups s = Some all_input_groups) :
  exists result, get_deployment_specifications fuel g s = Some result /\
    map fst result = map fst (_graph g) /\
    Forall (fun entry => entry.2 = s) result.
Proof.
  set (pairs := map (fun source => (source, s)) (map fst (_graph g))).
  assert (Hmap : map fst pairs = map fst (_graph g))
    by (unfold pairs; rewrite map_map; simpl; apply map_id).
  assert (Hvals : Forall (fun entry : AppSource * AppDeploymentSpecification => entry.2 = s) pairs)
    by (unfold pairs; apply Forall_map, Forall_forall; done).
  exists pairs. unfold get_deployment_specifications.
  fold pairs. rewrite (od_of_pairs_distinct pairs) by (rewrite Hmap; exact Hnodes).
  destruct Hall as [-> | ->]; [done|].
  rewrite decide_True by done. done.
Qed.

(** C2 (witness): [paths_graph] with [inputGroups] absent. *)
Lemma get_deployment_specifications_uniform_witness :
  exists result, get_deployment_specifications 5 DeploymentExamples.paths_graph
                   DeploymentExamples.spec_absent = Some result /\
    map fst result = map fst (_graph DeploymentExamples.paths_graph) /\
    Forall (fun entry => entry.2 = DeploymentExamples.spec_absent) result.
Proof.
  apply get_deployment_specifications_uniform; [|left; reflexivity].
  apply (bool_decide_unpack _). vm_compute. reflexivity.
Defined.

End DeploymentFacts.

Module DeploymentPathFacts.
Import InputGroups OD ODFacts Deployment DeploymentPaths InputGroupsFacts.

Lemma foldl_option_inv {A B} (P : B -> Prop) (f : option B -> A -> option B)
    (l : list A) (b r : B) :
  P b ->
  (forall acc a r, a ∈ l -> P acc -> f (Some acc) a = Some r -> P r) ->
  (forall a, f None a = None) ->
  foldl f (Some b) l = Some r -> P r.
Proof.
  revert b. induction l as [|a l IH]; intros b Hb Hstep Hnone; simpl.
  - intros [= <-]; done.
  - destruct (f (Some b) a) as [b'|] eqn:E.
    + apply IH.
      * eapply Hstep; [left | ..]; eauto.
      * intros; eapply Hstep; [right | ..]; eauto.
      * exact Hnone.
    + clear IH Hstep Hb E. induction l as [|a' l IHl]; simpl; [done|].
      rewrite Hnone. exact IHl.
Qed.

Lemma union_of_subseteq_collapse (a b : input_groups) :
  _union_of a b ⊆ a ∪ _union_of no_input_groups b.
Proof.
  unfold _union_of, all_input_groups, no_input_groups.
  case_bool_decide as H1; case_bool_decide as H2; set_solver.
Qed.

Definition reqs_inv (g : AppDependencyGraph) (G0 : input_groups)
    (reqs : list (AppSource * input_groups)) : Prop :=
  forall k V, od_get k reqs = Some V -> forall x, x ∈ V -> active_group g G0 k x.

Definition result_inv (g : AppDependencyGraph) (G0 : input_groups) (result : result_t) : Prop :=
  forall k s', od_get k result = Some s' ->
    exists G, spec_inputGroups s' = Some G /\ forall x, x ∈ G -> active_group g G0 k x.

Lemma requirements_of_sound g G0 p s G reqs :
  spec_inputGroups s = Some G -> (forall h, h ∈ G -> active_group g G0 p h) ->
  requirements_of g p s = Some reqs -> reqs_inv g G0 reqs.
Proof.
  intros HG Hact. unfold requirements_of.
  destruct (manifest_inputGroups (manifest g p)) as [igs|] eqn:Higs.
  2:{ intros [= <-] k V; simpl; done. }
  rewrite HG. simpl.
  apply foldl_option_inv; [intros k V; simpl; done | | done].
  intros acc h r Hh Hacc. simpl.
  destruct (od_get h igs) as [group|] eqn:Hgroup; [|intros [= <-]; done].
  destruct (requires group) as [aliases|] eqn:Hreq; [|intros [= <-]; done].
  apply foldl_option_inv; [exact Hacc | | intros [? ?]; done].
  intros acc' [alias R] r' Hin Hacc'. simpl.
  destruct (manifest_dependencies (manifest g p)) as [dependencies|] eqn:Hdeps;
    simpl; [|done].
  destruct (od_get alias dependencies) as [dependency|] eqn:Hdep; simpl; [|done].
  destruct (dep_package dependency) as [package|] eqn:Hpkg; simpl; [|done].
  destruct (od_get package (_repository_sources g)) as [ds|] eqn:Hds; simpl; [|done].
  destruct (od_get p (_graph g)) as [adjacent|]; simpl; [|done].
  destruct (decide (ds ∈ adjacent)); [|done].
  intros [= <-] k V. rewrite od_get_set.
  destruct (decide (k = ds)) as [->|]; [|apply Hacc'].
  intros [= <-] x Hx.
  apply union_of_subseteq_collapse in Hx. apply elem_of_union in Hx as [Hx|Hx].
  - destruct (od_get ds acc') as [V'|] eqn:HV'; simpl in Hx;
      [eapply Hacc'; eauto | unfold no_input_groups in Hx; set_solver].
  - eapply active_required; [apply Hact; apply elem_of_elements in Hh; exact Hh | | exact Hx].
    exists igs, group, aliases, alias, dependencies, dependency, package.
    repeat split; assumption.
Qed.

Lemma get_deployment_specifications_inv g G0 fuel :
  forall p s G result result',
    spec_inputGroups s = Some G -> (forall x, x ∈ G -> active_group g G0 p x) ->
    result_inv g G0 result ->
    _get_deployment_specifications fuel g p s result = Some result' ->
    result_inv g G0 result'.
Proof.
  induction fuel as [|fuel IH]; intros p s G result result' HG Hact Hres; simpl; [done|].
  destruct (requirements_of g p s) as [reqs|] eqn:Hreqs; simpl; [|done].
  pose proof (requirements_of_sound g G0 p s G reqs HG Hact Hreqs) as Hreqs_inv.
  assert (Hres1 : result_inv g G0 (od_set p s result)).
  { intros k s'. rewrite od_get_set. destruct (decide (k = p)) as [->|]; [|apply Hres].
    intros [= <-]. exists G; split; assumption. }
  clear Hres. revert Hres1. generalize (od_set p s result) as r.
  generalize (dependencies g p) as deps.
  induction deps as [|[dependency ds] deps IHdeps]; intros r Hr; simpl.
  - intros [= <-]; exact Hr.
  - set (ig := default no_input_groups (od_get ds reqs)).
    assert (Hig : forall x, x ∈ ig -> active_group g G0 ds x).
    { unfold ig. destruct (od_get ds reqs) as [V|] eqn:HV; simpl;
        [eapply Hreqs_inv; eauto | unfold no_input_groups; set_solver]. }
    destruct (od_get ds r) as [prev|] eqn:Hprev; simpl.
    + destruct (Hr ds prev Hprev) as (Gp & HGp & Hactp). rewrite HGp. simpl.
      destruct (_get_deployment_specifications fuel g ds _ r) as [r'|] eqn:Hrec;
        simpl; [|done].
      apply IHdeps. eapply IH; [ | | exact Hr | exact Hrec]; [reflexivity|].
      intros x Hx. apply union_of_subseteq in Hx.
      apply elem_of_union in Hx as [Hx|Hx]; auto.
    + destruct (_get_deployment_specifications fuel g ds _ r) as [r'|] eqn:Hrec;
        simpl; [|done].
      apply IHdeps. eapply IH; [ | | exact Hr | exact Hrec]; [reflexivity | exact Hig].
Qed.

(** C3: with a specific input-group set [G0] (neither absent nor ALL), every
    dependency node of the result that no input group active along a path
    from the root requires is assigned NONE (so never ALL). *)
Theorem unrequired_dependency_gets_none
    (fuel : nat) (g : AppDependencyGraph) (s : AppDeploymentSpecification)
    (G0 : input_groups) (result : result_t) (n : AppSource)
    (s' : AppDeploymentSpecification)
    (HG0 : spec_inputGroups s = Some G0) (Hspecific : G0 <> all_input_groups)
    (Hrun : get_deployment_specifications fuel g s = Some result)
    (Hn : od_get n result = Some s') (Hdep : n <> _root g)
    (Hunreq : ~ required g G0 n) :
  spec_inputGroups s' = Some no_input_groups.
Proof.
  unfold get_deployment_specifications in Hrun. rewrite HG0 in Hrun.
  rewrite decide_False in Hrun by exact Hspecific.
  assert (Hinv : result_inv g G0 result).
  { eapply get_deployment_specifications_inv; [exact HG0 | | | exact Hrun].
    - intros x Hx. apply active_root. exact Hx.
    - intros k v; simpl; done. }
  destruct (Hinv n s' Hn) as (G & HG & Hact). rewrite HG. f_equal.
  unfold no_input_groups. apply set_eq. intros x. split; [|set_solver].
  intros Hx. exfalso. specialize (Hact x Hx).
  inversion Hact as [h Hh Heq | p h ds R y Hp Hdecl Hy Heq1 Heq2].
  - apply Hdep. symmetry. exact Heq.
  - apply Hunreq. subst. exists p, h, R. split; assumption.
Qed.

Module DEx := DeploymentExamples.

Lemma paths_graph_b_unrequired : ~ required DEx.paths_graph {[ "g1" ]} "b".
Proof.
  intros (p & h & R & _ & igs & group & aliases & alias & deps & dependency & package &
          Higs & Hh & Hreq & Hal & Hdeps & Hdep & Hpkg & Hds).
  cbn [DEx.paths_graph manifest] in Higs, Hdeps.
  destruct (decide (p = "app")) as [->|Hp]; [|discriminate].
  injection Higs as <-. injection Hdeps as <-.
  apply od_get_In in Hh as [Hh|[]]. injection Hh; intros; subst. injection Hreq; intros; subst.
  apply list_elem_of_singleton in Hal. injection Hal; intros; subst.
  apply od_get_In in Hdep as [Hdep|[Hdep|[]]]; [|discriminate].
  injection Hdep; intros; subst. injection Hpkg; intros; subst. vm_compute in Hds. discriminate.
Qed.

Lemma g1_specific : ({[ "g1" ]} : input_groups) <> all_input_groups.
Proof.
  intros Heq. apply (f_equal (fun X : gset string => bool_decide ("g1" ∈ X))) in Heq.
  vm_compute in Heq. discriminate.
Qed.

(** C3 (witness): in [paths_graph] with the groups [{g1}], the dependency
    [b], which no active group requires, is assigned NONE. *)
Lemma unrequired_dependency_gets_none_witness :
  exists result s', get_deployment_specifications 5 DEx.paths_graph DEx.spec_g1 = Some result /\
    od_get "b" result = Some s' /\ spec_inputGroups s' = Some no_input_groups.
Proof.
  assert (Hrun : exists result, get_deployment_specifications 5 DEx.paths_graph DEx.spec_g1 = Some result)
    by (eexists; vm_compute; reflexivity).
  destruct Hrun as [result Hrun].
  assert (Hn : exists s', od_get "b" result = Some s')
    by (revert Hrun; vm_compute; intros [= <-]; eexists; reflexivity).
  destruct Hn as [s' Hn].
  exists result, s'. split; [exact Hrun|]. split; [exact Hn|].
  apply (unrequired_dependency_gets_none 5 DEx.paths_graph DEx.spec_g1 {[ "g1" ]} result "b" s');
    [reflexivity | exact g1_specific | exact Hrun | exact Hn | discriminate | exact paths_graph_b_unrequired].
Defined.

End DeploymentPathFacts.

Module CycleFacts.
Import OD ODFacts Cycle.

Section Graph.
Variable graph : adjacency.

Local Abbreviation U := (universe graph).
Local Abbreviation E := (edge graph).

Definition black_inv (V P : gset AppSource) : Prop :=
  forall b, b ∈ V -> b ∉ P -> (forall v, E b v -> v ∈ V /\ v ∉ P) /\ ~ tc E b b.

Lemma key_universe u ns : od_get u graph = Some ns -> u ∈ U.
Proof.
  intros H%od_get_In. unfold universe. apply elem_of_union_l.
  apply elem_of_list_to_set, list_elem_of_In, in_map_iff. exists (u, ns). done.
Qed.

Lemma edge_universe u v : E u v -> v ∈ U.
Proof.
  intros (ns & H%od_get_In & Hv). unfold universe. apply elem_of_union_r.
  apply elem_of_union_list. exists (list_to_set ns). split.
  - apply list_elem_of_In, in_map_iff. exists (u, ns). done.
  - apply elem_of_list_to_set. exact Hv.
Qed.

Lemma edge_of_adjacent u n : n ∈ default [] (od_get u graph) -> E u n.
Proof.
  destruct (od_get u graph) as [ns|] eqn:H; simpl; [|set_solver].
  intros Hn. exists ns. done.
Qed.

Lemma tc_first x y : tc E x y -> exists z, E x z /\ rtc E z y.
Proof.
  intros Htc. destruct Htc as [x y Hxy | x y z Hxy Hyz].
  - exists y. split; [exact Hxy | apply rtc_refl].
  - exists y. split; [exact Hxy | apply tc_rtc, Hyz].
Qed.

Lemma tc_source_key x y : tc E x y -> x ∈ map fst graph.
Proof.
  intros (z & (ns & H & _) & _)%tc_first.
  apply od_get_In in H. apply list_elem_of_In, in_map_iff. exists (x, ns). done.
Qed.

Lemma black_closed (V P : gset AppSource) b w :
  (forall b, b ∈ V -> b ∉ P -> forall v, E b v -> v ∈ V /\ v ∉ P) ->
  b ∈ V -> b ∉ P -> rtc E b w -> w ∈ V /\ w ∉ P.
Proof.
  intros Hcl Hb Hb' Hrtc. induction Hrtc as [x | x y z Hxy _ IH]; [done|].
  destruct (Hcl x Hb Hb' y Hxy). apply IH; assumption.
Qed.

Lemma size_diff_mono (V V' : gset AppSource) : V ⊆ V' -> size (U ∖ V') <= size (U ∖ V).
Proof. intros H. apply subseteq_size. set_solver. Qed.

Lemma size_diff_strict (V : gset AppSource) u :
  u ∈ U -> u ∉ V -> size (U ∖ ({[ u ]} ∪ V)) < size (U ∖ V).
Proof. intros H1 H2. apply subset_size. set_solver. Qed.

Lemma visit_spec fuel :
  forall u V P, u ∈ U -> size (U ∖ V) < fuel -> u ∉ P -> P ⊆ V ->
    (forall p, p ∈ P -> rtc E p u) -> black_inv V P ->
    exists b V' P', visit fuel graph u V P = Some (b, V', P') /\
      (b = true -> has_cycle graph) /\
      (b = false -> P' = P /\ V ⊆ V' /\ u ∈ V' /\ black_inv V' P).
Proof.
  induction fuel as [|fuel IH]; intros u V P Hu Hsize HuP HPV Hpath Hblack; [lia|].
  simpl. destruct (decide (u ∈ V)) as [HuV|HuV].
  { exists false, V, P. split; [done|]. split; [discriminate|]. done. }
  assert (Hsize1 : size (U ∖ ({[ u ]} ∪ V)) < fuel)
    by (pose proof (size_diff_strict V u Hu HuV); lia).
  assert (Hedges : forall n, E u n -> n ∈ default [] (od_get u graph)).
  { intros n (ns & Hns & Hn). rewrite Hns. exact Hn. }
  assert (Hl : forall n, n ∈ default [] (od_get u graph) -> E u n) by apply edge_of_adjacent.
  assert (Hdone : forall n, E u n -> n ∉ default [] (od_get u graph) ->
            n ∈ {[ u ]} ∪ V /\ n ∉ {[ u ]} ∪ P)
    by (intros n Hn Hn'; exfalso; apply Hn', Hedges, Hn).
  assert (Hblack1 : black_inv ({[ u ]} ∪ V) ({[ u ]} ∪ P)).
  { intros b Hb Hb'. assert (b ∈ V /\ b ∉ P) as [HbV HbP] by set_solver.
    destruct (Hblack b HbV HbP) as [Hcl Hac]. split; [|exact Hac].
    intros v Hv. destruct (Hcl v Hv). assert (v <> u) by (intros ->; contradiction).
    set_solver. }
  assert (HV1 : V ⊆ {[ u ]} ∪ V) by set_solver.
  assert (Hu1 : u ∈ {[ u ]} ∪ V) by set_solver.
  clear Hedges. revert Hsize1 Hdone Hblack1 HV1 Hu1 Hl.
  generalize ({[ u ]} ∪ V) as V1. generalize (default [] (od_get u graph)) as l.
  induction l as [|n l IHl]; intros V1 Hsize1 Hdone Hblack1 HV1 Hu1 Hl.
  - (* the loop is done: [app_source] leaves the path and becomes black *)
    exists false, V1, (({[ u ]} ∪ P) ∖ {[ u ]}). split; [done|].
    split; [discriminate|]. intros _.
    split; [set_solver|]. split; [exact HV1|]. split; [exact Hu1|].
    assert (Hcl1 : forall b, b ∈ V1 -> b ∉ {[ u ]} ∪ P -> forall v, E b v ->
              v ∈ V1 /\ v ∉ {[ u ]} ∪ P)
      by (intros b Hb Hb'; apply (Hblack1 b Hb Hb')).
    intros b Hb HbP. destruct (decide (b = u)) as [->|Hbu].
    + split.
      * intros v Hv. destruct (Hdone v Hv) as [Hv1 Hv2]; [set_solver|]. set_solver.
      * intros (v & Huv & Hvu)%tc_first.
        destruct (Hdone v Huv) as [Hv1 Hv2]; [set_solver|].
        destruct (black_closed V1 ({[ u ]} ∪ P) v u Hcl1 Hv1 Hv2 Hvu) as [_ Hu'].
        set_solver.
    + destruct (Hblack1 b Hb ltac:(set_solver)) as [Hcl Hac]. split; [|exact Hac].
      intros v Hv. destruct (Hcl v Hv). set_solver.
  - (* one neighbour *)
    assert (Hun : E u n) by (apply Hl; left).
    destruct (decide (n ∈ {[ u ]} ∪ P)) as [Hn|Hn].
    + exists true, V1, ({[ u ]} ∪ P). split; [done|]. split; [|discriminate].
      intros _. apply elem_of_union in Hn as [->%elem_of_singleton|HnP].
      * exists u. apply tc_once, Hun.
      * exists n. eapply tc_rtc_l; [apply (Hpath n HnP) | apply tc_once, Hun].
    + assert (Hpre : forall p, p ∈ {[ u ]} ∪ P -> rtc E p n).
      { intros p [->%elem_of_singleton|HpP]%elem_of_union.
        - apply rtc_once, Hun.
        - eapply rtc_r; [apply (Hpath p HpP) | exact Hun]. }
      destruct (IH n V1 ({[ u ]} ∪ P) (edge_universe u n Hun) Hsize1 Hn
                  ltac:(set_solver) Hpre Hblack1)
        as (b & V2 & P2 & Hvisit & Htrue & Hfalse).
      rewrite Hvisit. destruct b.
      * exists true, V2, P2. split; [done|]. split; [|discriminate]. auto.
      * destruct (Hfalse eq_refl) as (-> & HV12 & HnV2 & Hblack2).
        apply IHl.
        -- pose proof (size_diff_mono V1 V2 HV12); lia.
        -- intros m Hm Hm'. destruct (decide (m = n)) as [->|Hmn].
           ++ split; [exact HnV2 | exact Hn].
           ++ destruct (Hdone m Hm ltac:(set_solver)). set_solver.
        -- exact Hblack2.
        -- set_solver.
        -- set_solver.
        -- intros m Hm. apply Hl. right. exact Hm.
Qed.

Lemma any_visit_spec fuel :
  forall sources V, size (U ∖ V) < fuel ->
    (forall k, k ∈ sources -> k ∈ U) ->
    (forall k, k ∈ map fst graph -> k ∉ sources -> k ∈ V) ->
    black_inv V ∅ ->
    exists b, any_visit fuel graph sources V ∅ = Some b /\ (b = true <-> has_cycle graph).
Proof.
  induction sources as [|k sources IH]; intros V Hsize Hsrc Hkeys Hblack; simpl.
  - exists false. split; [done|]. split; [discriminate|].
    intros (u & Hc). exfalso. pose proof (tc_source_key u u Hc) as Hk.
    destruct (Hblack u (Hkeys u Hk ltac:(set_solver)) ltac:(set_solver)) as [_ Hac].
    exact (Hac Hc).
  - destruct (visit_spec fuel k V ∅ (Hsrc k ltac:(left)) Hsize ltac:(set_solver)
                ltac:(set_solver) ltac:(set_solver) Hblack)
      as (b & V' & P' & Hvisit & Htrue & Hfalse).
    rewrite Hvisit. destruct b.
    + exists true. split; [done|]. split; [auto | done].
    + destruct (Hfalse eq_refl) as (-> & HVV' & HkV' & Hblack').
      apply IH.
      * pose proof (size_diff_mono V V' HVV'); lia.
      * intros k' Hk'. apply Hsrc. right. exact Hk'.
      * intros k' Hk' Hk''. destruct (decide (k' = k)) as [->|]; [exact HkV'|].
        apply HVV', Hkeys; [exact Hk' | set_solver].
      * exact Hblack'.
Qed.

End Graph.

(** [_is_cyclic] terminates on every adjacency mapping and returns True
    exactly when the mapping has a cycle, whatever the order of its nodes. *)
Lemma is_cyclic_spec (graph : adjacency) :
  exists b, _is_cyclic graph = Some b /\ (b = true <-> has_cycle graph).
Proof.
  unfold _is_cyclic. apply any_visit_spec.
  - pose proof (subseteq_size (universe graph ∖ ∅) (universe graph) ltac:(set_solver)). lia.
  - intros k Hk%list_elem_of_In. apply in_map_iff in Hk as ([k' ns] & <- & Hin).
    unfold universe. apply elem_of_union_l, elem_of_list_to_set, list_elem_of_In, in_map_iff.
    exists (k', ns). done.
  - intros k Hk Hk'. contradiction.
  - intros b Hb. set_solver.
Qed.

End CycleFacts.

Module ConstructionFacts.
Import OD ODFacts Construction.

Lemma od_set_In {K V} `{EqDecision K} (k k' : K) (v v' : V) (d : list (K * V)) :
  In (k', v') (od_set k v d) -> (k', v') = (k, v) \/ In (k', v') d.
Proof.
  induction d as [|[k1 v1] d IH]; simpl; [intros [H|[]]; left; congruence|].
  destruct (decide (k = k1)) as [->|]; simpl.
  - intros [H|H]; [left; congruence | right; right; exact H].
  - intros [H|H]; [right; left; exact H | destruct (IH H); [left | right; right]; auto].
Qed.

Lemma od_set_keys {K V} `{EqDecision K} (k k' : K) (v : V) (d : list (K * V)) :
  k' ∈ map fst (od_set k v d) <-> k' = k \/ k' ∈ map fst d.
Proof.
  induction d as [|[k1 v1] d IH]; simpl.
  - set_solver.
  - destruct (decide (k = k1)) as [->|]; simpl; set_solver.
Qed.

Lemma od_get_key {K V} `{EqDecision K} (k : K) (v : V) (d : list (K * V)) :
  od_get k d = Some v -> k ∈ map fst d.
Proof.
  intros H%od_get_In. apply list_elem_of_In, in_map_iff. exists (k, v). done.
Qed.

Lemma filter_errors_app (l l' : list event) :
  Forall (fun e => is_error e = false) l' ->
  filter (fun e => is_error e = true) (l ++ l')%list = filter (fun e => is_error e = true) l.
Proof.
  intros H. rewrite filter_app.
  assert (Hnil : filter (fun e => is_error e = true) l' = []).
  { induction H as [|e l' He _ IH]; [done|].
    rewrite filter_cons, decide_False by congruence. exact IH. }
  rewrite Hnil. apply app_nil_r.
Qed.

Lemma ordered_set_elem (items : list AppSource) x :
  x ∈ ordered_set items <-> x ∈ items.
Proof.
  unfold ordered_set.
  enough (Hgen : forall acc, x ∈ foldl (fun acc x => if decide (x ∈ acc) then acc
                                       else (acc ++ [x])%list) acc items <-> x ∈ acc \/ x ∈ items)
    by (rewrite Hgen; set_solver).
  induction items as [|y items IH]; intros acc; simpl; [set_solver|].
  rewrite IH. destruct (decide (y ∈ acc)); set_solver.
Qed.

Section Input.
Variable inp : GraphInput.
Variable root : AppSource.

Local Abbreviation E := (dependency_edge inp).

Definition repo_ok (repo : list (string * AppSource)) : Prop :=
  forall p, lookup_source inp repo p = resolve inp p.

Definition good_dep (u : AppSource) (entry : Dependency * AppSource) : Prop :=
  exists m name package,
    source_manifest (app_sources inp u) = Some m /\
    declared_dependencies m <> None /\
    (name, entry.1) ∈ dependencies_for_target_os (app_sources inp u) /\
    package_choice inp name entry.1 = Some package /\
    resolve inp package = Some entry.2 /\
    source_manifest (app_sources inp entry.2) <> None.

Lemma good_dep_edge u d v : good_dep u (d, v) -> E u v.
Proof.
  intros (m & name & package & H1 & H2 & H3 & H4 & H5 & H6).
  exists m, name, d, package. done.
Qed.

Lemma repo_ok_set repo package source :
  repo_ok repo -> lookup_source inp repo package = Some source ->
  repo_ok (od_set package source repo).
Proof.
  intros Hok Hl p. rewrite <- (Hok p). unfold lookup_source in *.
  destruct (od_get p (dependency_sources inp)) eqn:Hp; [done|].
  rewrite od_get_set. destruct (decide (p = package)) as [->|]; [|done].
  rewrite Hp in Hl. done.
Qed.

(** The hypotheses of the construction theorem, for one app source. *)
Definition resolves_at (u : AppSource) : Prop :=
  forall m name dependency package,
    source_manifest (app_sources inp u) = Some m -> declared_dependencies m <> None ->
    (name, dependency) ∈ dependencies_for_target_os (app_sources inp u) ->
    package_choice inp name dependency = Some package ->
    exists v, resolve inp package = Some v /\ source_manifest (app_sources inp v) <> None.

Definition versions_match_at (u : AppSource) : Prop :=
  forall d v dm, good_dep u (d, v) -> source_manifest (app_sources inp v) = Some dm ->
    version_match inp (Deployment.dep_version d) (info_version dm) = true.

Abbreviation errors l := (filter (fun e => is_error e = true) l).

Lemma get_dependencies_spec u m repo log :
  source_manifest (app_sources inp u) = Some m -> repo_ok repo ->
  resolves_at u -> versions_match_at u ->
  exists deps repo' log',
    _get_dependencies inp u repo log = Some (deps, repo', log') /\
    repo_ok repo' /\ errors log' = errors log /\
    Forall (good_dep u) deps /\
    (forall v, E u v -> v ∈ map snd deps).
Proof.
  intros Hm Hrepo Hres Hver. unfold _get_dependencies. rewrite Hm.
  destruct (declared_dependencies m) as [declared|] eqn:Hdecl; cycle 1.
  { exists [], repo, log. split; [done|]. split; [done|]. split; [done|].
    split; [constructor|]. intros v (m' & ? & ? & ? & Hm' & Hd' & _).
    rewrite Hm in Hm'. injection Hm' as <-. congruence. }
  set (L := dependencies_for_target_os (app_sources inp u)).
  assert (Hgen : forall l deps repo log,
    (forall e, e ∈ l -> e ∈ L) -> repo_ok repo -> Forall (good_dep u) deps ->
    exists deps' repo' log',
      foldl (get_dependency_step inp u) (deps, repo, log) l = (deps', repo', log') /\
      repo_ok repo' /\ errors log' = errors log /\ Forall (good_dep u) deps' /\
      (forall v, v ∈ map snd deps -> v ∈ map snd deps') /\
      (forall name dependency package v, (name, dependency) ∈ l ->
         package_choice inp name dependency = Some package ->
         resolve inp package = Some v -> v ∈ map snd deps')).
  { induction l as [|[name dependency] l IH]; intros deps repo0 log0 HL Hrepo0 Hdeps; simpl.
    { exists deps, repo0, log0. repeat split; auto. intros ???? Hin; inversion Hin. }
    assert (HL' : forall e, e ∈ l -> e ∈ L) by (intros e He; apply HL; right; exact He).
    assert (Hin : (name, dependency) ∈ L) by (apply HL; left).
    destruct (package_choice inp name dependency) as [package|] eqn:Hpc.
    - destruct (Hres m name dependency package Hm ltac:(congruence) Hin Hpc)
        as (v & Hv & Hvm).
      assert (Hl : lookup_source inp repo0 package = Some v) by (rewrite Hrepo0; exact Hv).
      rewrite Hl. destruct (source_manifest (app_sources inp v)) as [dm|] eqn:Hdm; [|congruence].
      assert (Hgood : good_dep u (dependency, v))
        by (exists m, name, package; simpl; repeat split; auto; congruence).
      rewrite (Hver dependency v dm Hgood Hdm).
      destruct (IH (deps ++ [(dependency, v)])%list (od_set package v repo0) log0 HL'
                  (repo_ok_set repo0 package v Hrepo0 Hl)
                  ltac:(apply Forall_app; split; [exact Hdeps | constructor; [exact Hgood | constructor]]))
        as (deps' & repo' & log' & Hfold & Hr & He & Hg & Hsub & Hall).
      exists deps', repo', log'. split; [exact Hfold|]. split; [exact Hr|].
      split; [exact He|]. split; [exact Hg|]. split.
      + intros w Hw. apply Hsub. rewrite map_app. set_solver.
      + intros name' dependency' package' w [[= <- <-] | Hin']%elem_of_cons Hpc' Hw.
        * apply Hsub. rewrite Hpc in Hpc'. injection Hpc' as <-. rewrite Hv in Hw.
          injection Hw as <-. rewrite map_app. set_solver.
        * eapply Hall; eauto.
    - destruct (IH deps repo0
                  (app log0 (if Deployment.dep_optional dependency
                             then [SlimWarning ("Skipping validation for optional dependency " ++ name);
                                   MissingOptionalDependency name]
                             else [SlimWarning ("Skipping validation for dynamic dependency " ++ name);
                                   MissingDependency name; StatusMissingDependencies]))
                  HL' Hrepo0 Hdeps)
        as (deps' & repo' & log' & Hfold & Hr & He & Hg & Hsub & Hall).
      exists deps', repo', log'.
      split; [destruct (Deployment.dep_optional dependency); exact Hfold|].
      split; [exact Hr|].
      split; [rewrite He; destruct (Deployment.dep_optional dependency);
              apply filter_errors_app; repeat constructor|].
      split; [exact Hg|]. split; [exact Hsub|].
      intros name' dependency' package' w [[= <- <-] | Hin']%elem_of_cons Hpc' Hw.
      + congruence.
      + eapply Hall; eauto. }
  destruct (Hgen L [] repo log ltac:(done) Hrepo ltac:(constructor))
    as (deps' & repo' & log' & Hfold & Hr & He & Hg & _ & Hall).
  exists deps', repo', log'. rewrite Hfold. split; [done|].
  split; [exact Hr|]. split; [exact He|]. split; [exact Hg|].
  intros v (m' & name & dependency & package & Hm' & _ & Hin & Hpc & Hv & _).
  eapply Hall; eauto.
Qed.

Section Reachable.
Hypothesis Hroot : source_manifest (app_sources inp root) <> None.
Hypothesis Hres : forall u, rtc E root u -> resolves_at u.
Hypothesis Hver : forall u, rtc E root u -> versions_match_at u.

Abbreviation keys st := (map fst (st_graph st)).

Definition loop_inv (queue : list AppSource) (st : graph_state) : Prop :=
  repo_ok (st_repository_sources st) /\
  errors (st_log st) = [] /\
  (forall k, k ∈ keys st -> rtc E root k) /\
  (forall x, x ∈ queue -> rtc E root x) /\
  (forall k v, k ∈ keys st -> E k v -> v ∈ keys st \/ v ∈ queue) /\
  (root ∈ keys st \/ root ∈ queue) /\
  (forall k adj, od_get k (st_graph st) = Some adj -> forall v, v ∈ adj -> E k v) /\
  (forall v dl, In (v, dl) (st_dependents st) ->
     source_manifest (app_sources inp v) <> None /\
     forall d u, In (d, u) dl -> rtc E root u /\ good_dep u (d, v)).

Lemma reach_manifest x : rtc E root x -> source_manifest (app_sources inp x) <> None.
Proof.
  intros [->|(y & _ & Hyx)]%rtc_inv_r; [exact Hroot|].
  destruct Hyx as (? & ? & ? & ? & _ & _ & _ & _ & _ & H). exact H.
Qed.

Lemma elem_of_rev (l : list AppSource) y : y ∈ rev l <-> y ∈ l.
Proof. rewrite !list_elem_of_In. split; [apply in_rev| apply -> in_rev]. Qed.

Lemma pop_queue (queue rest : list AppSource) x :
  rev queue = x :: rest -> forall y, y ∈ queue <-> y = x \/ y ∈ rev rest.
Proof.
  intros Hrev y. rewrite <- (rev_involutive queue), Hrev. simpl.
  rewrite elem_of_app, list_elem_of_singleton. tauto.
Qed.

Lemma add_dependents_inv x deps dependents :
  rtc E root x -> Forall (good_dep x) deps ->
  (forall v dl, In (v, dl) dependents ->
     source_manifest (app_sources inp v) <> None /\
     forall d u, In (d, u) dl -> rtc E root u /\ good_dep u (d, v)) ->
  forall v dl, In (v, dl) (add_dependents x dependents deps) ->
     source_manifest (app_sources inp v) <> None /\
     forall d u, In (d, u) dl -> rtc E root u /\ good_dep u (d, v).
Proof.
  intros Hx Hdeps. unfold add_dependents. revert dependents.
  induction Hdeps as [|[dep ds] deps Hgood _ IH]; intros dependents Hd; simpl; [exact Hd|].
  apply IH. intros v dl [[= -> ->] | Hin]%od_set_In; [|apply Hd; exact Hin].
  split; [destruct Hgood as (? & ? & ? & ? & _ & _ & _ & _ & H); exact H|].
  intros d u [Hold | [[= -> ->] | []]]%in_app_or.
  - destruct (od_get ds dependents) as [old|] eqn:Hold'; simpl in Hold; [|done].
    apply od_get_In in Hold'. exact (proj2 (Hd ds old Hold') d u Hold).
  - split; [exact Hx | exact Hgood].
Qed.

Lemma loop_inv_present queue rest x st :
  loop_inv queue st -> rev queue = x :: rest -> x ∈ keys st -> loop_inv (rev rest) st.
Proof.
  intros (H1 & H2 & H3 & H4 & H5 & H6 & H7 & H8) Hrev Hx.
  pose proof (pop_queue queue rest x Hrev) as Hq.
  split; [exact H1|]. split; [exact H2|]. split; [exact H3|].
  split; [intros y Hy; apply H4, Hq; right; exact Hy|].
  split.
  { intros k v Hk Hkv. destruct (H5 k v Hk Hkv) as [Hv|Hv]; [left; exact Hv|].
    apply Hq in Hv as [->|Hv]; [left; exact Hx | right; exact Hv]. }
  split.
  { destruct H6 as [Hr|Hr]; [left; exact Hr|].
    apply Hq in Hr as [->|Hr]; [left; exact Hx | right; exact Hr]. }
  split; [exact H7 | exact H8].
Qed.

Lemma loop_inv_new queue rest x st :
  loop_inv queue st -> rev queue = x :: rest -> x ∉ keys st ->
  exists deps repo log,
    _get_dependencies inp x (st_repository_sources st) (st_log st) = Some (deps, repo, log) /\
    loop_inv (rev (map snd deps) ++ rev rest)%list {|
      st_graph := od_set x (ordered_set (map snd deps)) (st_graph st);
      st_dependents := add_dependents x (st_dependents st) deps;
      st_dependencies := od_set x deps (st_dependencies st);
      st_repository_sources := repo;
      st_log := log |}.
Proof.
  intros (H1 & H2 & H3 & H4 & H5 & H6 & H7 & H8) Hrev Hx.
  pose proof (pop_queue queue rest x Hrev) as Hq.
  assert (Hxr : rtc E root x) by (apply H4, Hq; left; done).
  destruct (source_manifest (app_sources inp x)) as [m|] eqn:Hm;
    [|exfalso; exact (reach_manifest x Hxr Hm)].
  destruct (get_dependencies_spec x m (st_repository_sources st) (st_log st) Hm H1
              (Hres x Hxr) (Hver x Hxr))
    as (deps & repo & log & Hget & Hrepo & Herr & Hgood & Hall).
  exists deps, repo, log. split; [exact Hget|].
  assert (Hedge : forall v, v ∈ map snd deps -> E x v).
  { intros v Hv. apply list_elem_of_In, in_map_iff in Hv as ([d v'] & <- & Hin).
    apply list_elem_of_In in Hin. simpl.
    apply (good_dep_edge x d v'). rewrite Forall_forall in Hgood. exact (Hgood _ Hin). }
  unfold loop_inv; simpl.
  split; [exact Hrepo|]. split; [rewrite Herr; exact H2|].
  split.
  { intros k [->|Hk]%od_set_keys; [exact Hxr | apply H3, Hk]. }
  split.
  { intros y [Hy|Hy]%elem_of_app.
    - rewrite elem_of_rev in Hy. eapply rtc_r; [exact Hxr | apply Hedge, Hy].
    - apply H4, Hq. right. exact Hy. }
  split.
  { intros k v [->|Hk]%od_set_keys Hkv.
    - right. apply elem_of_app. left. rewrite elem_of_rev; apply Hall, Hkv.
    - destruct (H5 k v Hk Hkv) as [Hv|Hv].
      + left. apply od_set_keys. right. exact Hv.
      + apply Hq in Hv as [->|Hv].
        * left. apply od_set_keys. left. done.
        * right. apply elem_of_app. right. exact Hv. }
  split.
  { destruct H6 as [Hr|Hr].
    - left. apply od_set_keys. right. exact Hr.
    - apply Hq in Hr as [->|Hr]; [left; apply od_set_keys; left; done|].
      right. apply elem_of_app. right. exact Hr. }
  split.
  { intros k adj. rewrite od_get_set. destruct (decide (k = x)) as [->|].
    - intros [= <-] v Hv. apply Hedge, ordered_set_elem, Hv.
    - apply H7. }
  apply add_dependents_inv; assumption.
Qed.

Lemma add_loop_correct fuel :
  forall queue st st', loop_inv queue st -> add_loop fuel inp queue st = Some st' ->
    loop_inv [] st'.
Proof.
  induction fuel as [|fuel IH]; intros queue st st' Hinv; simpl; [done|].
  destruct (rev queue) as [|x rest] eqn:Hrev.
  - intros [= <-]. assert (queue = []) as <-
      by (rewrite <- (rev_involutive queue), Hrev; done). exact Hinv.
  - destruct (decide (x ∈ keys st)) as [Hx|Hx].
    + apply IH. eapply loop_inv_present; eauto.
    + destruct (loop_inv_new queue rest x st Hinv Hrev Hx) as (deps & repo & log & Hget & Hinv').
      rewrite Hget. apply IH. exact Hinv'.
Qed.

Definition sources_universe : gset AppSource :=
  {[ root ]} ∪ list_to_set (map snd (dependency_sources inp))
             ∪ list_to_set (map snd (repository_sources inp)).

Lemma reach_universe x : rtc E root x -> x ∈ sources_universe.
Proof.
  unfold sources_universe.
  intros [->|(y & _ & Hyx)]%rtc_inv_r; [set_solver|].
  destruct Hyx as (? & ? & ? & package & _ & _ & _ & _ & Hv & _).
  unfold resolve, lookup_source in Hv.
  destruct (od_get package (dependency_sources inp)) as [s'|] eqn:Hd.
  - injection Hv as ->. apply od_get_In in Hd.
    assert (Hin : x ∈ map snd (dependency_sources inp))
      by (apply list_elem_of_In, in_map_iff; exists (package, x); done).
    set_solver.
  - apply od_get_In in Hv.
    assert (Hin : x ∈ map snd (repository_sources inp))
      by (apply list_elem_of_In, in_map_iff; exists (package, x); done).
    set_solver.
Qed.

Abbreviation key_set st := (list_to_set (keys st) : gset AppSource).

Lemma add_loop_terminates n :
  forall queue st, loop_inv queue st -> size (sources_universe ∖ key_set st) < n ->
    exists fuel st', add_loop fuel inp queue st = Some st'.
Proof.
  induction n as [|n IHn]; intros queue st Hinv Hsize; [lia|].
  remember (length queue) as m eqn:Hm. revert queue st Hinv Hsize Hm.
  induction m as [|m IHm]; intros queue st Hinv Hsize Hm.
  - destruct queue; [|discriminate]. exists 1, st. done.
  - destruct (rev queue) as [|x rest] eqn:Hrev.
    { exists 1, st. simpl. rewrite Hrev. done. }
    assert (Hlen : length rest = m).
    { apply (f_equal length) in Hrev. rewrite length_rev in Hrev. simpl in Hrev. lia. }
    destruct (decide (x ∈ keys st)) as [Hx|Hx].
    + destruct (IHm (rev rest) st (loop_inv_present queue rest x st Hinv Hrev Hx) Hsize
                  ltac:(rewrite length_rev; lia)) as (fuel & st' & Hrun).
      exists (S fuel), st'. simpl. rewrite Hrev. rewrite decide_True by exact Hx. exact Hrun.
    + destruct (loop_inv_new queue rest x st Hinv Hrev Hx) as (deps & repo & log & Hget & Hinv').
      assert (Hxu : x ∈ sources_universe).
      { apply reach_universe. destruct Hinv as (_ & _ & _ & H4 & _).
        apply H4, (pop_queue queue rest x Hrev). left. done. }
      edestruct IHn as (fuel & st' & Hrun); [exact Hinv'| |].
      { simpl. eapply Nat.lt_le_trans; [|apply (proj1 (Nat.lt_succ_r _ _)), Hsize].
        apply subset_size. split.
        - intros y. rewrite !elem_of_difference, !elem_of_list_to_set, od_set_keys. tauto.
        - intros Hsub. assert (Hx' : x ∈ sources_universe ∖ key_set st)
            by (apply elem_of_difference; rewrite elem_of_list_to_set; done).
          apply Hsub, elem_of_difference in Hx' as [_ Hx'].
          apply Hx'. apply elem_of_list_to_set, od_set_keys. left. done. }
      exists (S fuel), st'. simpl. rewrite Hrev. rewrite decide_False by exact Hx.
      rewrite Hget. exact Hrun.
Qed.

Lemma check_dependencies_ok st :
  loop_inv [] st -> _check_dependencies inp st = Some (st_log st).
Proof.
  intros (_ & _ & _ & _ & _ & _ & _ & H8). unfold _check_dependencies.
  generalize (st_log st) as log. revert H8. generalize (st_dependents st) as L.
  induction L as [|[v dl] L IH]; intros HL log; simpl; [done|].
  destruct (HL v dl (or_introl eq_refl)) as [Hm Hdl].
  destruct (source_manifest (app_sources inp v)) as [dm|] eqn:Hdm; [|done]. simpl.
  assert (Hinner : forall dl', (forall d u, In (d, u) dl' -> rtc E root u /\ good_dep u (d, v)) ->
    foldl (fun log '(dependency, dependent_source) =>
      if version_match inp (Deployment.dep_version dependency) (info_version dm) then log
      else (app log [SlimError (v ++ ": Version " ++ info_version dm ++ " was selected, but version "
                       ++ Deployment.dep_version dependency ++ " is required by " ++ dependent_source)])%list)
      log dl' = log).
  { intros dl'. induction dl' as [|[d u] dl' IHdl]; intros Hd; simpl; [done|].
    destruct (Hd d u (or_introl eq_refl)) as [Hu Hgood].
    rewrite (Hver u Hu d v dm Hgood Hdm). apply IHdl. intros d' u' Hin. apply Hd. right. exact Hin. }
  rewrite (Hinner dl Hdl). apply IH. intros v' dl' Hin. apply HL. right. exact Hin.
Qed.

Lemma graph_edges st u v :
  loop_inv [] st -> Cycle.edge (st_graph st) u v -> E u v.
Proof.
  intros (_ & _ & _ & _ & _ & _ & H7 & _) (ns & Hns & Hv). exact (H7 u ns Hns v Hv).
Qed.

Lemma graph_acyclic st :
  loop_inv [] st -> (forall u, rtc E root u -> ~ tc E u u) -> ~ Cycle.has_cycle (st_graph st).
Proof.
  intros Hinv Hacyc (u & Hu).
  assert (Hk : u ∈ keys st).
  { inversion Hu as [a b Hab | a w b Haw _]; subst;
      [destruct Hab as (ns & Hns & _) | destruct Haw as (ns & Hns & _)];
      exact (od_get_key _ _ _ Hns). }
  apply (Hacyc u); [destruct Hinv as (_ & _ & H3 & _); exact (H3 u Hk)|].
  clear Hk. revert Hu. generalize u at 1 3 as w. intros w Hu.
  induction Hu as [x y Hxy | x y z Hxy _ IH].
  - apply tc_once. exact (graph_edges st x y Hinv Hxy).
  - eapply tc_l; [exact (graph_edges st x y Hinv Hxy) | exact IH].
Qed.

Lemma keys_closure st n :
  loop_inv [] st -> n ∈ keys st <-> rtc E root n.
Proof.
  intros (_ & _ & H3 & _ & H5 & H6 & _). split; [apply H3|].
  revert n. apply (rtc_ind_r (fun n => n ∈ keys st)).
  - destruct H6 as [H6|H6]; [exact H6 | apply elem_of_nil in H6; contradiction].
  - intros x y _ Hxy IH.
    destruct (H5 x y IH Hxy) as [Hy|Hy]; [exact Hy | apply elem_of_nil in Hy; contradiction].
Qed.

Lemma add_source_closure :
  (exists fuel st, _add_source fuel inp root = Some st) /\
  forall fuel st, _add_source fuel inp root = Some st -> loop_inv [] st.
Proof.
  assert (Hinit : loop_inv [root] (initial_state inp)).
  { unfold loop_inv, initial_state; simpl.
    split; [intros p; reflexivity|]. split; [done|]. split; [intros k Hk; apply elem_of_nil in Hk; done|].
    split; [intros x ->%list_elem_of_singleton; reflexivity|].
    split; [intros k v Hk; apply elem_of_nil in Hk; done|].
    split; [right; apply list_elem_of_singleton; done|].
    split; [intros k adj Hk; discriminate | intros v dl []]. }
  split.
  - apply (add_loop_terminates (S (size (sources_universe ∖ key_set (initial_state inp))))); [exact Hinit | lia].
  - intros fuel st. apply add_loop_correct. exact Hinit.
Qed.

Lemma init_spec (Hacyc : forall u, rtc E root u -> ~ tc E u u) :
  (exists fuel st, AppDependencyGraph_init fuel inp root = Some st) /\
  forall fuel st, AppDependencyGraph_init fuel inp root = Some st ->
    errors (st_log st) = [] /\ forall n, n ∈ map fst (st_graph st) <-> rtc E root n.
Proof.
  destruct add_source_closure as [(fuel & st & Hst) Hinv].
  assert (Hrun : forall fuel st, _add_source fuel inp root = Some st ->
     AppDependencyGraph_init fuel inp root = Some {|
        st_graph := st_graph st; st_dependents := st_dependents st;
        st_dependencies := st_dependencies st;
        st_repository_sources := st_repository_sources st; st_log := st_log st |}).
  { intros fuel' st' Hst'. unfold AppDependencyGraph_init. rewrite Hst'.
    pose proof (Hinv fuel' st' Hst') as Hi.
    destruct (CycleFacts.is_cyclic_spec (st_graph st')) as ([|] & Hc & Hiff); rewrite Hc.
    - exfalso. apply (graph_acyclic st' Hi Hacyc), Hiff. reflexivity.
    - rewrite (check_dependencies_ok st' Hi). reflexivity. }
  split; [exists fuel; eexists; exact (Hrun fuel st Hst)|].
  intros fuel' st' Hst'.
  destruct (_add_source fuel' inp root) as [st0|] eqn:H0;
    [|unfold AppDependencyGraph_init in Hst'; rewrite H0 in Hst'; discriminate].
  rewrite (Hrun fuel' st0 H0) in Hst'. injection Hst' as <-. simpl.
  pose proof (Hinv fuel' st0 H0) as Hi. split; [exact (proj1 (proj2 Hi))|].
  intros n. exact (keys_closure st0 n Hi).
Qed.

End Reachable.
End Input.
Module Ex := Examples.

Ltac os_entry Hin :=
  repeat (apply elem_of_cons in Hin as [Hin|Hin]; [injection Hin as -> ->|]);
  [..|apply elem_of_nil in Hin; contradiction].

Lemma installed_input_edge u v :
  dependency_edge Ex.installed_input u v -> u = "app" /\ (v = "x" \/ v = "b").
Proof.
  intros (m & name & dependency & package & _ & _ & Hin & Hpc & Hr & _).
  cbn [Ex.installed_input app_sources] in Hin.
  destruct (decide (u = "app")) as [->|Hu]; [|apply elem_of_nil in Hin; contradiction].
  split; [reflexivity|]. os_entry Hin;
    vm_compute in Hpc; injection Hpc as <-; vm_compute in Hr; injection Hr as <-; auto.
Qed.

Lemma installed_input_static_edge u v :
  static_dependency_edge Ex.installed_input u v -> u = "app" /\ v = "b".
Proof.
  intros (m & name & dependency & package & _ & _ & Hin & Hpc & Hr & _).
  cbn [Ex.installed_input app_sources] in Hin.
  destruct (decide (u = "app")) as [->|Hu]; [|apply elem_of_nil in Hin; contradiction].
  split; [reflexivity|]. os_entry Hin; vm_compute in Hpc; [discriminate|].
  injection Hpc as <-. vm_compute in Hr. injection Hr as <-. reflexivity.
Qed.

Lemma installed_input_resolves u : resolves_at Ex.installed_input u.
Proof.
  intros m name dependency package _ _ Hin Hpc.
  cbn [Ex.installed_input app_sources] in Hin.
  destruct (decide (u = "app")) as [->|Hu]; [|apply elem_of_nil in Hin; contradiction].
  os_entry Hin; vm_compute in Hpc; injection Hpc as <-;
    eexists; (split; [vm_compute; reflexivity | vm_compute; discriminate]).
Qed.

Lemma installed_input_acyclic u : ~ tc (dependency_edge Ex.installed_input) u u.
Proof.
  assert (Hends : forall x y, tc (dependency_edge Ex.installed_input) x y -> x = "app" /\ y <> "app").
  { intros x y Hxy. induction Hxy as [x y Hxy | x y z Hxy _ IH].
    - destruct (installed_input_edge x y Hxy) as [-> [-> | ->]]; split; done.
    - destruct (installed_input_edge x y Hxy) as [-> _]. split; [reflexivity | exact (proj2 IH)]. }
  intros Hu. destruct (Hends u u Hu) as [H1 H2]. contradiction.
Qed.

(** C5 (amended): when the root has a manifest, every dependency reachable
    from it resolves to a source with a manifest, every version range along
    the way matches, and no reachable app lies on a cycle, construction
    terminates, logs no error, and its nodes are exactly the root and the
    transitive closure of [dependency_edge]: the declared dependencies for the
    target OS that name a package, either their own or the installed package
    registered under their name. *)
Theorem construction_closure (inp : GraphInput) (root : AppSource)
  (Hroot : source_manifest (app_sources inp root) <> None)
  (Hres : forall u, rtc (dependency_edge inp) root u -> resolves_at inp u)
  (Hver : forall u, rtc (dependency_edge inp) root u -> versions_match_at inp u)
  (Hacyc : forall u, rtc (dependency_edge inp) root u -> ~ tc (dependency_edge inp) u u) :
  (exists fuel st, AppDependencyGraph_init fuel inp root = Some st) /\
  forall fuel st, AppDependencyGraph_init fuel inp root = Some st ->
    filter (fun e => is_error e = true) (st_log st) = [] /\
    forall n, n ∈ map fst (st_graph st) <-> rtc (dependency_edge inp) root n.
Proof. apply init_spec; assumption. Qed.

(** C5 (witness): the root [app] of [installed_input] satisfies the
    hypotheses of [construction_closure]. *)
Lemma construction_closure_witness :
  (exists fuel st, AppDependencyGraph_init fuel Examples.installed_input "app" = Some st) /\
  forall fuel st, AppDependencyGraph_init fuel Examples.installed_input "app" = Some st ->
    filter (fun e => is_error e = true) (st_log st) = [] /\
    forall n, n ∈ map fst (st_graph st) <-> rtc (dependency_edge Examples.installed_input) "app" n.
Proof.
  apply construction_closure.
  - vm_compute. discriminate.
  - intros u _. apply installed_input_resolves.
  - intros u _ d v dm _ _. reflexivity.
  - intros u _. apply installed_input_acyclic.
Defined.

(** C5 (counterexample): in [installed_input], whose only static dependency
    [b] resolves, whose versions all match and which has no cycle,
    construction logs no error but adds the node [x], reached through the
    installed package of a dependency that declares no package, which is
    not in the transitive closure of the static dependencies of [app]. *)
Lemma construction_dynamic_dependency :
  (exists st, AppDependencyGraph_init 10 Ex.installed_input "app" = Some st /\
     filter (fun e => is_error e = true) (st_log st) = [] /\ "x" ∈ map fst (st_graph st)) /\
  ~ rtc (static_dependency_edge Ex.installed_input) "app" "x".
Proof.
  split.
  - eexists. split; [vm_compute; reflexivity|].
    split; [reflexivity|]. apply list_elem_of_In. simpl. tauto.
  - assert (Hclosure : forall n, rtc (static_dependency_edge Ex.installed_input) "app" n ->
                         n = "app" \/ n = "b").
    { apply (rtc_ind_r (fun n => n = "app" \/ n = "b")); [left; reflexivity|].
      intros y z _ Hyz _. right. exact (proj2 (installed_input_static_edge y z Hyz)). }
    intros [H|H]%Hclosure; discriminate.
Qed.

(** C4: [_is_cyclic] terminates on every adjacency mapping and returns True
    exactly when the mapping has a cycle, whatever the order of its nodes;
    and when the graph built by [_add_source] has a cycle, construction
    logs the error that the dependency graph of the root is cyclic. *)
Theorem is_cyclic_correct :
  (forall graph, exists b, Cycle._is_cyclic graph = Some b /\ (b = true <-> Cycle.has_cycle graph)) /\
  (forall fuel inp root st, _add_source fuel inp root = Some st -> Cycle.has_cycle (st_graph st) ->
     exists st', AppDependencyGraph_init fuel inp root = Some st' /\
       st_graph st' = st_graph st /\
       SlimError ("Dependency graph for " ++ root ++ " is cyclic.") ∈ st_log st').
Proof.
  split; [exact CycleFacts.is_cyclic_spec|].
  intros fuel inp root st Hst Hcyc. unfold AppDependencyGraph_init. rewrite Hst.
  destruct (CycleFacts.is_cyclic_spec (st_graph st)) as ([|] & Hc & Hiff); rewrite Hc.
  - eexists. split; [reflexivity|]. simpl. split; [reflexivity|].
    apply elem_of_app. right. apply list_elem_of_singleton. reflexivity.
  - apply Hiff in Hcyc. discriminate.
Qed.

End ConstructionFacts.

Module PackagingFacts.
Import Packaging.
Local Open Scope list_scope.

Lemma difference_empty_size (X Y : gset string) : size (X ∖ Y) = 0 <-> X ⊆ Y.
Proof.
  split; intros H.
  - apply size_empty_inv in H. set_solver.
  - apply size_empty_iff. set_solver.
Qed.

Lemma exclusion_patterns_acc (rules : list (pattern * gset string)) (workload : gset string)
    (acc : list pattern) :
  foldl (fun exclusion_patterns '(pattern, excluded_roles) =>
    if decide (size (workload ∖ excluded_roles) = 0)
    then exclusion_patterns ++ [pattern] else exclusion_patterns) acc rules
  = acc ++ map fst (filter (fun rule => workload ⊆ rule.2) rules).
Proof.
  revert acc. induction rules as [|[pattern excluded] rules IH]; intros acc; simpl.
  - rewrite app_nil_r. reflexivity.
  - rewrite IH, filter_cons. simpl.
    destruct (decide (size (workload ∖ excluded) = 0)) as [H|H];
      pose proof (difference_empty_size workload excluded) as Hiff.
    + rewrite decide_True by tauto. simpl. rewrite <- app_assoc. reflexivity.
    + rewrite decide_False by tauto. reflexivity.
Qed.

(** C6: a rule's pattern is selected exactly when the workload minus the
    rule's excluded workloads is empty, i.e. when the excluded set contains
    every workload of the specification; for any rule table the selected
    patterns are those of the rules whose excluded set is a superset of the
    workload, in table order, and for [_exclusion_rule] a pattern is selected
    iff one of its rules excludes a superset of the workload. *)
Theorem exclusion_patterns_superset :
  (forall rules workload,
     exclusion_patterns_of rules workload = map fst (filter (fun rule => workload ⊆ rule.2) rules)) /\
  (forall workload p,
     p ∈ exclusion_patterns workload <->
     exists excluded, (p, excluded) ∈ _exclusion_rule /\ workload ⊆ excluded).
Proof.
  assert (Hall : forall rules workload,
     exclusion_patterns_of rules workload = map fst (filter (fun rule => workload ⊆ rule.2) rules))
    by (intros; apply exclusion_patterns_acc).
  split; [exact Hall|].
  intros workload p. unfold exclusion_patterns. rewrite Hall.
  rewrite list_elem_of_fmap. split.
  - intros ([p' excluded] & -> & Hin). apply list_elem_of_filter in Hin as [Hsub Hin].
    exists excluded. split; [exact Hin | exact Hsub].
  - intros (excluded & Hin & Hsub). exists (p, excluded). split; [reflexivity|].
    apply list_elem_of_filter. split; [exact Hsub | exact Hin].
Qed.

End PackagingFacts.

Module EmptinessFacts.
Import PosixPath Emptiness.

(** C7 (counterexample): an app at [/apps/a] with no configuration and the
    single asset [/apps/a/binder.txt], which is not a file under [bin/] nor
    [metadata]: [_detect_is_empty] returns True, because the asset's name
    starts with [path.join(app_root, 'bin')] = [/apps/a/bin]. *)
Lemma detect_is_empty_binder_prefix :
  _detect_is_empty 10 no_documents "/apps/a" {[ "/apps/a/binder.txt" ]} [] = Some true /\
  startswith "/apps/a/binder.txt" (join (join "/apps/a" "bin") "") = false /\
  "/apps/a/binder.txt" <> join "/apps/a" "metadata" /\
  "/apps/a/binder.txt" <> join (join "/apps/a" "metadata") "default.meta".
Proof. vm_compute. split; [reflexivity|]. split; [reflexivity|]. split; discriminate. Qed.

(** The documented example: only [app] configured, and the assets
    [metadata/default.meta] and a manifest-declared license file. *)
Lemma detect_is_empty_documented :
  _detect_is_empty 10
    {| license := Some {| text := Some "LICENSES/LICENSE.txt" |};
       privacyPolicy := None; releaseNotes := None |}
    "/apps/a" {[ "/apps/a/metadata/default.meta"; "/apps/a/LICENSES/LICENSE.txt"; "/apps/a/LICENSES" ]}
    ["app"] = Some true.
Proof. vm_compute. reflexivity. Qed.

End EmptinessFacts.

Module ServerClassFacts.
Import Construction ServerClass.

Lemma string_app_assoc (a b c : string) : (a ++ b) ++ c = a ++ b ++ c.
Proof. induction a as [|x a IH]; [reflexivity | exact (f_equal (String x) IH)]. Qed.

Lemma string_app_nil_r (a : string) : a ++ "" = a.
Proof. induction a as [|x a IH]; [reflexivity | exact (f_equal (String x) IH)]. Qed.

Lemma join_with_mentions separator (items : list string) d :
  d ∈ items -> exists pre post, join_with separator items = pre ++ d ++ post.
Proof.
  induction items as [|x rest IH]; intros Hd; [apply elem_of_nil in Hd; contradiction|].
  apply elem_of_cons in Hd as [->|Hd].
  - destruct rest as [|y rest]; simpl.
    + exists "", "". symmetry. exact (string_app_nil_r x).
    + exists "", (separator ++ join_with separator (y :: rest)). reflexivity.
  - destruct (IH Hd) as (pre & post & Heq).
    destruct rest as [|y rest]; [apply elem_of_nil in Hd; contradiction|].
    exists (x ++ separator ++ pre), post.
    change (join_with separator (x :: y :: rest)) with (x ++ separator ++ join_with separator (y :: rest)).
    rewrite Heq, !string_app_assoc. reflexivity.
Qed.

Section RemoveAppFacts.
Context {AppInstallationGraph AppInstallation : Type}.
Variable get : AppInstallationGraph -> string -> option AppInstallation.
Variable dependents : AppInstallation -> list string.
Variable remove_installation : AppInstallationGraph -> AppInstallation -> AppInstallationGraph.

Abbreviation remove := (remove_app get dependents remove_installation).

(** C8: [remove_app] leaves a server class where the app is not installed
    unchanged; when the installation still has dependents it logs an error
    naming every one of them, records them and the status
    [STATUS_ERROR_DEPENDENCY_REQUIRED] in the payload, and keeps the
    installation graph (so the app stays installed); only an installation
    with no dependents is removed. *)
Theorem remove_app_spec (st : server_class_state) (app_id : string) :
  (get (apps st) app_id = None -> remove st app_id = st) /\
  (forall installation, get (apps st) app_id = Some installation -> dependents installation <> [] ->
     apps (remove st app_id) = apps st /\
     get (apps (remove st app_id)) app_id = Some installation /\
     log (remove st app_id) =
       (log st ++ [SlimError (remove_app_message app_id (dependents installation))])%list /\
     (forall d, d ∈ dependents installation -> exists pre post,
        remove_app_message app_id (dependents installation) = pre ++ d ++ post) /\
     dependency_requirements (payload (remove st app_id)) = Some (dependents installation) /\
     status (payload (remove st app_id)) = STATUS_ERROR_DEPENDENCY_REQUIRED) /\
  (forall installation, get (apps st) app_id = Some installation -> dependents installation = [] ->
     apps (remove st app_id) = remove_installation (apps st) installation /\
     log (remove st app_id) = log st /\ payload (remove st app_id) = payload st).
Proof.
  unfold remove_app. split; [|split].
  - intros Hget. rewrite Hget. reflexivity.
  - intros installation Hget Hdeps. rewrite Hget.
    rewrite bool_decide_true by (destruct (dependents installation); [contradiction | simpl; lia]).
    simpl. split; [reflexivity|]. split; [exact Hget|]. split; [reflexivity|].
    split; [|split; reflexivity].
    intros d Hd. destruct (join_with_mentions (newline ++ "    ") _ d Hd) as (pre & post & Heq).
    exists (app_id ++ " cannot be uninstalled because it is still required by these apps:"
              ++ newline ++ "    " ++ pre), post.
    unfold remove_app_message. rewrite Heq, !string_app_assoc. reflexivity.
  - intros installation Hget Hdeps. rewrite Hget, Hdeps. simpl. split; [|split]; reflexivity.
Qed.

End RemoveAppFacts.

End ServerClassFacts.

Module DescribeFacts.
Import Deployment Describe.

Lemma app_assoc_s (a b c : string) : (a ++ b) ++ c = a ++ b ++ c.
Proof. induction a as [|x a IH]; [reflexivity | exact (f_equal (String x) IH)]. Qed.

Lemma app_nil_r_s (a : string) : a ++ "" = a.
Proof. induction a as [|x a IH]; [reflexivity | exact (f_equal (String x) IH)]. Qed.

Lemma concat_lines_app (l1 l2 : list string) :
  concat_lines (l1 ++ l2)%list = concat_lines l1 ++ concat_lines l2.
Proof. induction l1 as [|x l1 IH]; simpl; [reflexivity | rewrite IH, app_assoc_s; reflexivity]. Qed.

Section Inp.
Variable inp : DescribeInput.

Abbreviation render w := (concat_lines (map (tree_line inp) w)).

Lemma describe_fold_none f level deps :
  foldl (fun acc '(app_dependency, app_dependency_source) =>
        match acc with
        | None => None
        | Some graph_output =>
            let graph_output := graph_output ++ "|" ++ repeat_string "   " level ++
              "|-- " ++ src_id inp app_dependency_source ++
              "@" ++ src_version inp app_dependency_source ++
              " (accepting " ++ dep_version app_dependency ++ ")" ++ ServerClass.newline in
            match _describe f inp app_dependency_source (S level) with
            | None => None
            | Some sub => Some (graph_output ++ sub)
            end
        end) None deps = None.
Proof. induction deps as [|[? ?] deps IH]; [reflexivity | exact IH]. Qed.

Lemma edges_fold_none f level deps :
  foldl (fun acc '(dependency, v) =>
        match acc with
        | None => None
        | Some edges =>
            match dfs_edges f inp v (S level) with
            | None => None
            | Some sub => Some (edges ++ [(level, dependency, v)] ++ sub)%list
            end
        end) None deps = None.
Proof. induction deps as [|[? ?] deps IH]; [reflexivity | exact IH]. Qed.

Lemma app_nil_l_s (a : string) : "" ++ a = a.
Proof. reflexivity. Qed.

Lemma describe_edges fuel :
  forall u level, 1 <= level ->
    _describe fuel inp u level =
    option_map (fun w => (if Nat.eqb level 1 then root_line inp u else "") ++ render w)
      (dfs_edges fuel inp u level).
Proof.
  induction fuel as [|f IH]; intros u level Hlevel; [reflexivity|]. simpl.
  set (out := if Nat.eqb level 1 then root_line inp u else "").
  change (if Nat.eqb level 1 then _ else "") with out.
  rewrite <- (app_nil_r_s out) at 1.
  replace (out ++ "") with (out ++ render []) by reflexivity.
  generalize (@nil (nat * Dependency * AppSource)) as w.
  induction (src_dependencies inp u) as [|[dep v] deps IHdeps]; intros w; [reflexivity|].
  cbn [foldl]. rewrite (IH v (S level)) by lia.
  assert (Hchild : Nat.eqb (S level) 1 = false) by (apply Nat.eqb_neq; lia).
  rewrite Hchild.
  destruct (dfs_edges f inp v (S level)) as [sub|]; cbn [option_map].
  - rewrite <- IHdeps.
    match goal with |- foldl _ (Some ?x) _ = foldl _ (Some ?y) _ => replace x with y; [reflexivity|] end.
    rewrite !map_app, !concat_lines_app. cbn [map concat_lines].
    change (tree_line inp (level, dep, v))
      with ("|" ++ repeat_string "   " level ++ "|-- " ++ entry_text inp dep v).
    unfold entry_text. rewrite app_nil_l_s, !app_assoc_s. reflexivity.
  - rewrite describe_fold_none, edges_fold_none. reflexivity.
Qed.

End Inp.

(** C9 (amended): [description] returns the cached value when there is one;
    otherwise it computes [_describe(root, 1)], caches it and returns it:
    the root line ["|-- root@version"], then one line per edge of the tree
    unfolded from the root, depth first in declaration order, where the line
    of an edge at depth [n] is a single ["|"], then [3 n] spaces, then
    ["|-- name@version (accepting range)"]. *)
Theorem description_tree (fuel : nat) (inp : DescribeInput) (root : AppSource) :
  (forall d, description fuel inp root (Some d) = Some (d, Some d)) /\
  description fuel inp root None =
    option_map (fun w => let d := root_line inp root ++ concat_lines (map (tree_line inp) w) in
                         (d, Some d))
      (dfs_edges fuel inp root 1).
Proof.
  split; [reflexivity|]. unfold description. rewrite describe_edges by lia. simpl.
  destruct (dfs_edges fuel inp root 1); reflexivity.
Qed.

(** C9 (counterexample): for the chain [app -> a -> b], the line of the
    depth-2 edge is ["|      |-- b@1.0 (accepting ~1.0)"], not
    ["|   |   |-- b@1.0 (accepting ~1.0)"]: the description differs from the
    tree drawn with one ["|   "] unit per level. *)
Lemma description_not_unit_indented :
  exists w d,
    dfs_edges 5 Examples.chain_input "app" 1 = Some w /\
    description 5 Examples.chain_input "app" None = Some (d, Some d) /\
    d = "|-- app@1.0" ++ ServerClass.newline
        ++ "|   |-- a@1.0 (accepting ~1.0)" ++ ServerClass.newline
        ++ "|      |-- b@1.0 (accepting ~1.0)" ++ ServerClass.newline /\
    d <> root_line Examples.chain_input "app" ++ concat_lines (map (spec_tree_line Examples.chain_input) w).
Proof.
  do 2 eexists. split; [vm_compute; reflexivity|]. split; [vm_compute; reflexivity|].
  split; [vm_compute; reflexivity | vm_compute; discriminate].
Qed.

End DescribeFacts.

Module JsonDataFacts.
Import JsonData.

(** C10 (counterexample): the bare number [5] is an instance of the element
    type of an array of numbers, yet [JsonArray.convert_from] raises
    [TypeError] ([validate] enumerates it), whichever [onerror] is used; a
    bare string is accepted as a one-element array, since a string is
    iterable. *)
Lemma array_rejects_bare_number :
  is_instance JsonNumber (PyNum 5) = true /\
  (forall raising, dt_convert_from Examples.numbers "count" (PyNum 5) PyNone raising [] = inl TypeError) /\
  dt_convert_from Examples.strings "workload" (PyStr "forwarder") PyNone false [] =
    inr (PyList [PyStr "forwarder"], []).
Proof.
  split; [reflexivity|]. split; [intros [|]; vm_compute; reflexivity | vm_compute; reflexivity].
Qed.

End JsonDataFacts.


Module JsonSchemaFacts.
Import JsonData JsonSchemaModel.

Scheme data_type_mut := Induction for data_type Sort Prop
  with json_value_mut := Induction for json_value Sort Prop.

(** The element loop of [JsonArray.validate], over any element validator. *)
Definition count_loop (f : string -> pyval -> M bool) (name : string) : nat -> list pyval -> M nat :=
  fix count (i : nat) (elements : list pyval) : M nat :=
    match elements with
    | [] => ret 0
    | element :: elements =>
        let* r := f (name ++ "[" ++ index_string i ++ "]") element in
        let* rest := count (S i) elements in
        ret ((if r then 0 else 1) + rest)
    end.

Lemma dt_validate_array d name v :
  dt_validate (JsonArray d) name v =
  (let* ok := base_validate (JsonArray d) name v in
   if negb ok then ret false
   else if is_instance (JsonArray d) v then
     let* elements := elements_of v in
     let* error_count := count_loop (value_validate d) name 0 elements in
     ret (Nat.eqb error_count 0)
   else value_validate d name v).
Proof. reflexivity. Qed.

(** What a validator does to the messages: it appends some, none when
    [onerror] raises, and it returns [true] exactly when it appended none. *)
Definition reports_iff_false {A} (m : M A) (ok : A -> bool) : Prop :=
  forall raising log a log', m raising log = inr (a, log') ->
  exists new, log' = (log ++ new)%list /\ (ok a = true <-> new = []) /\
              (raising = true -> new = []).

Lemma base_validate_reports dt name v : reports_iff_false (base_validate dt name v) id.
Proof.
  intros raising log a log' H. unfold base_validate in H.
  destruct (is_instance dt v).
  - injection H as <- <-. exists []. rewrite app_nil_r. split; [|split]; easy.
  - unfold bind, onerror in H. destruct raising; [discriminate|].
    injection H as <- <-. exists [ [AStr "Expected "; AStr (dt_name dt); AStr " value for "; AStr name; AStr ", not "; AVal v] ].
    split; [|split]; easy.
Qed.

Lemma count_loop_reports f name :
  (forall n v, reports_iff_false (f n v) id) ->
  forall elements i, reports_iff_false (count_loop f name i elements) (fun n => Nat.eqb n 0).
Proof.
  intros Hf elements. induction elements as [|x elements IH]; intros i raising log a log' H.
  - cbn in H. injection H as <- <-. exists []. rewrite app_nil_r. split; [|split]; easy.
  - cbn [count_loop] in H. unfold bind at 1 in H.
    destruct (f _ x raising log) as [e|[r log1]] eqn:E1; [discriminate|].
    unfold bind in H.
    destruct (count_loop f name (S i) elements raising log1) as [e|[rest log2]] eqn:E2; [discriminate|].
    injection H as <- <-.
    destruct (Hf _ _ _ _ _ _ E1) as (new1 & -> & Hok1 & Hr1).
    destruct (IH _ _ _ _ _ E2) as (new2 & -> & Hok2 & Hr2).
    exists (new1 ++ new2)%list. rewrite app_assoc. split; [reflexivity|]. split.
    + cbn in Hok1. rewrite Nat.eqb_eq in Hok2 |- *.
      destruct r; cbn.
      * rewrite (proj1 Hok1 eq_refl). cbn. exact Hok2.
      * split; [lia|]. intros Hn. apply app_eq_nil in Hn as [-> _].
        discriminate (proj2 Hok1 eq_refl).
    + intros ->. rewrite (Hr1 eq_refl), (Hr2 eq_refl). reflexivity.
Qed.

Lemma array_validate_reports d :
  (forall name v, reports_iff_false (value_validate d name v) id) ->
  forall name v, reports_iff_false (dt_validate (JsonArray d) name v) id.
Proof.
  intros IH name v raising log b log' H. rewrite dt_validate_array in H.
  unfold bind at 1 in H.
  destruct (base_validate (JsonArray d) name v raising log) as [e|[ok log1]] eqn:E; [discriminate|].
  destruct (base_validate_reports _ _ _ _ _ _ _ E) as (new1 & -> & Hok1 & Hr1).
  destruct ok; cbn in Hok1; cbn [negb] in H.
  - rewrite (proj1 Hok1 eq_refl), app_nil_r in H.
    destruct (is_instance (JsonArray d) v).
    + unfold bind at 1 in H.
      destruct (elements_of v raising log) as [e|[elements log2]] eqn:E2; [discriminate|].
      assert (log2 = log) as ->.
      { destruct v; cbn in E2; try discriminate; injection E2; intros; subst; reflexivity. }
      unfold bind in H.
      destruct (count_loop (value_validate d) name 0 elements raising log) as [e|[n log3]] eqn:E3;
        [discriminate|].
      injection H as <- <-.
      exact (count_loop_reports _ _ IH _ _ _ _ _ _ E3).
    + exact (IH _ _ _ _ _ _ H).
  - injection H as <- <-. exists new1. split; [reflexivity|]. split.
    + split; [discriminate|]. intros Hn. discriminate (proj2 Hok1 Hn).
    + exact Hr1.
Qed.

Lemma value_validate_reports dt default required :
  (forall name v, reports_iff_false (dt_validate dt name v) id) ->
  forall name v, reports_iff_false (value_validate (JsonValue dt default required) name v) id.
Proof.
  intros IH name v raising log b log' H. cbn [value_validate] in H.
  destruct v; try exact (IH _ _ _ _ _ _ H).
  destruct required.
  - unfold bind, onerror in H. destruct raising; [discriminate|].
    injection H as <- <-. eexists. split; [reflexivity|]. split; [|discriminate].
    split; discriminate.
  - injection H as <- <-. exists []. rewrite app_nil_r. split; [|split]; easy.
Qed.

Lemma dt_validate_reports : forall dt name v, reports_iff_false (dt_validate dt name v) id.
Proof.
  apply (data_type_mut
    (fun dt => forall name v, reports_iff_false (dt_validate dt name v) id)
    (fun jv => forall name v, reports_iff_false (value_validate jv name v) id)).
  - exact (base_validate_reports JsonBoolean).
  - exact (base_validate_reports JsonNumber).
  - exact (base_validate_reports JsonString).
  - intros d IH. exact (array_validate_reports d IH).
  - intros dt IH default required. exact (value_validate_reports dt default required IH).
Qed.

Lemma value_validate_reports_all : forall jv name v, reports_iff_false (value_validate jv name v) id.
Proof.
  intros [dt default required]. apply value_validate_reports. apply dt_validate_reports.
Qed.








(** Extra: with [JsonSchema._onerror], which raises [ValueError], a value's
    [validate] never returns [False]: when it returns, it returns [True] and
    has reported nothing. *)
Theorem validate_raising_never_false (jv : json_value) (name : string) (v : pyval)
    (log : list (list arg)) (b : bool) (log' : list (list arg)) :
  value_validate jv name v true log = inr (b, log') -> b = true /\ log' = log.
Proof.
  intros H. destruct (value_validate_reports_all jv name v true log b log' H)
    as (new & -> & Hok & Hr).
  rewrite (Hr eq_refl), app_nil_r in *. split; [apply Hok; reflexivity | reflexivity].
Qed.

Lemma validate_raising_never_false_witness :
  value_validate (JsonValue Examples.numbers PyNone true) "counts" (PyList [PyNum 1]) true [] =
    inr (true, []) /\ true = true /\ @nil (list arg) = [].
Proof.
  assert (H : value_validate (JsonValue Examples.numbers PyNone true) "counts" (PyList [PyNum 1]) true [] =
    inr (true, [])) by (vm_compute; reflexivity).
  split; [exact H | exact (validate_raising_never_false _ _ _ _ _ _ H)].
Defined.

(** Extra: with an [onerror] that returns, a value's [validate] only appends
    messages, and it returns [True] exactly when it appended none. *)
Theorem validate_false_iff_reported (jv : json_value) (name : string) (v : pyval)
    (log : list (list arg)) (b : bool) (log' : list (list arg)) :
  value_validate jv name v false log = inr (b, log') ->
  exists new, log' = (log ++ new)%list /\ (b = true <-> new = []).
Proof.
  intros H. destruct (value_validate_reports_all jv name v false log b log' H)
    as (new & -> & Hok & _).
  exists new. split; [reflexivity | exact Hok].
Qed.

Lemma validate_false_iff_reported_witness :
  value_validate (JsonValue Examples.numbers PyNone true) "counts" (PyList [PyNum 1; PyStr "x"]) false [] =
    inr (false, [ [AStr "Expected "; AStr "Number"; AStr " value for "; AStr "counts[1]"; AStr ", not ";
                   AVal (PyStr "x")] ]) /\
  exists new, [ [AStr "Expected "; AStr "Number"; AStr " value for "; AStr "counts[1]"; AStr ", not ";
                 AVal (PyStr "x")] ] = ([] ++ new)%list /\ (false = true <-> new = []).
Proof.
  assert (H : value_validate (JsonValue Examples.numbers PyNone true) "counts" (PyList [PyNum 1; PyStr "x"]) false [] =
    inr (false, [ [AStr "Expected "; AStr "Number"; AStr " value for "; AStr "counts[1]"; AStr ", not ";
                   AVal (PyStr "x")] ])) by (vm_compute; reflexivity).
  split; [exact H | exact (validate_false_iff_reported _ _ _ _ _ _ H)].
Defined.

(** Extra: for a value of a boolean, number or string type, [JsonSchema.convert_from]
    with an [onerror] that returns reports each message twice (once from
    [validate], once from [convert_from]); it returns the value when it is
    valid and the default otherwise, a missing value (None) being valid when
    not required. *)
Theorem JsonSchema_convert_from_reports_twice (dt : data_type) (default : pyval) (required : bool)
    (name : string) (v : pyval) (log : list (list arg)) :
  scalar dt = true ->
  exists L, JsonSchema_convert_from (JsonValue dt default required) name v false log =
    inr (match v with PyNone => default | _ => if is_instance dt v then v else default end,
         (log ++ L ++ L)%list) /\
    (L = [] <-> match v with PyNone => required = false | _ => is_instance dt v = true end).
Proof.
  intros Hs. destruct dt; try discriminate; destruct v; try destruct required;
  unfold JsonSchema_convert_from; cbn;
  first [ exists []; rewrite !app_nil_r; split; [reflexivity | easy]
        | eexists; rewrite <- app_assoc; split; [reflexivity | split; discriminate] ].
Qed.

Lemma JsonSchema_convert_from_reports_twice_witness :
  scalar JsonNumber = true /\
  exists L, JsonSchema_convert_from (JsonValue JsonNumber (PyNum 0) true) "count" (PyStr "x") false [] =
    inr (PyNum 0, ([] ++ L ++ L)%list) /\ (L = [] <-> false = true).
Proof.
  split; [reflexivity|]. exact (JsonSchema_convert_from_reports_twice JsonNumber (PyNum 0) true "count" (PyStr "x") [] eq_refl).
Defined.



End JsonSchemaFacts.

Module SpecificationSchemaFacts.
Import InputGroups Deployment SpecificationSchema.

(** An input group set as the converters produce it: [ALL], or a set
    without ['*']. *)
Definition normal_form (g : input_groups) : Prop := g = all_input_groups \/ "*" ∉ g.

(** Extra: [InputGroupsConverter] returns NONE exactly for an empty list and
    ALL exactly when ['*'] is listed; otherwise it returns the set of the
    listed names, which holds no ['*']. *)
Theorem InputGroupsConverter_normal_form (value : list string) :
  let g := InputGroupsConverter_convert_from value in
  (are_no_input_groups (Some g) = true <-> value = []) /\
  (is_all_input_groups (Some g) = true <-> "*" ∈ value) /\
  normal_form g /\
  ("*" ∉ value -> g = list_to_set value).
Proof.
  cbv zeta. destruct value as [|x l].
  - assert (E : InputGroupsConverter_convert_from [] = ∅) by reflexivity. rewrite E.
    unfold normal_form, are_no_input_groups, is_all_input_groups, all_input_groups, no_input_groups.
    rewrite (bool_decide_true ((∅ : input_groups) = ∅)) by reflexivity.
    rewrite (bool_decide_false ((∅ : input_groups) = {[ "*" ]})) by set_solver.
    split; [easy|]. split; [split; [discriminate | set_solver]|].
    split; [right; set_solver | reflexivity].
  - unfold InputGroupsConverter_convert_from, normal_form, are_no_input_groups,
      is_all_input_groups, all_input_groups, no_input_groups.
    cbn [length]. rewrite (bool_decide_false (S (length l) = 0)) by lia.
    destruct (decide ("*" ∈ (list_to_set (x :: l) : input_groups))) as [Hs|Hs];
      [rewrite (bool_decide_true _ Hs) | rewrite (bool_decide_false _ Hs)].
    + rewrite (bool_decide_false (({[ "*" ]} : input_groups) = ∅)) by set_solver.
      rewrite (bool_decide_true (({[ "*" ]} : input_groups) = {[ "*" ]})) by reflexivity.
      split; [split; discriminate|]. split; [split; [intros _; set_solver | reflexivity]|].
      split; [left; reflexivity | set_solver].
    + rewrite (bool_decide_false ((list_to_set (x :: l) : input_groups) = ∅)) by set_solver.
      rewrite (bool_decide_false ((list_to_set (x :: l) : input_groups) = {[ "*" ]})) by set_solver.
      split; [split; discriminate|]. split; [split; [discriminate | set_solver]|].
      split; [right; exact Hs | reflexivity].
Qed.

(** Extra: the union [_union_of] of two input group sets in the converters'
    normal form is in normal form, and it is ALL exactly when one of them is. *)
Theorem union_of_normal_form (a b : input_groups) :
  normal_form a -> normal_form b ->
  normal_form (_union_of a b) /\
  (is_all_input_groups (Some (_union_of a b)) = true <->
   is_all_input_groups (Some a) = true \/ is_all_input_groups (Some b) = true).
Proof.
  unfold normal_form, is_all_input_groups, _union_of, all_input_groups.
  intros Ha Hb. rewrite !bool_decide_eq_true.
  case_bool_decide as H.
  - split; [left; reflexivity|]. split; [intros _|reflexivity].
    destruct H as [H|H]; [left; destruct Ha | right; destruct Hb]; set_solver.
  - assert (("*" ∉ a) /\ ("*" ∉ b)) as [Ha' Hb'] by tauto.
    split; [right; set_solver|]. split.
    + intros Hu. exfalso. assert ("*" ∈ a ∪ b) by (rewrite Hu; set_solver). set_solver.
    + intros [->| ->]; set_solver.
Qed.

Lemma union_of_normal_form_witness :
  normal_form {[ "g1" ]} /\ normal_form all_input_groups /\
  normal_form (_union_of {[ "g1" ]} all_input_groups) /\
  (is_all_input_groups (Some (_union_of {[ "g1" ]} all_input_groups)) = true <->
   is_all_input_groups (Some {[ "g1" ]}) = true \/ is_all_input_groups (Some all_input_groups) = true).
Proof.
  assert (H1 : normal_form {[ "g1" ]}) by (right; set_solver).
  assert (H2 : normal_form all_input_groups) by (left; reflexivity).
  split; [exact H1|]. split; [exact H2|]. exact (union_of_normal_form _ _ H1 H2).
Defined.

(** Every character of [s] satisfies [p]. *)
Fixpoint all_chars (p : ascii -> bool) (s : string) : bool :=
  match s with
  | EmptyString => true
  | String c s' => p c && all_chars p s'
  end.

Lemma safe_filename_match_app_newline (s : string) (m : bool) :
  all_chars safe_filename_char s = true -> (m = true \/ s <> "") ->
  safe_filename_match s m = true /\ safe_filename_match (s ++ String "010"%char "") m = true.
Proof.
  revert m. induction s as [|c s IH]; intros m Hs Hm.
  - destruct Hm as [->|]; [|congruence]. split; reflexivity.
  - cbn in Hs. apply andb_prop in Hs as [Hc Hs].
    destruct (IH true Hs (or_introl eq_refl)) as [H1 H2].
    cbn [safe_filename_match]. change (String c s ++ String "010"%char "") with (String c (s ++ String "010"%char "")).
    cbn [safe_filename_match]. rewrite Hc, H1, H2. rewrite !orb_true_r. split; reflexivity.
Qed.

Lemma safe_filename_match_inner_newline (s t : string) (m : bool) :
  t <> "" -> safe_filename_match (s ++ String "010"%char t) m = false.
Proof.
  intros Ht. revert m. induction s as [|c s IH]; intros m.
  - change ("" ++ String "010"%char t) with (String "010"%char t).
    cbn [safe_filename_match]. rewrite bool_decide_false by congruence.
    rewrite bool_decide_false by (intros H; injection H; congruence).
    destruct m; reflexivity.
  - change (String c s ++ String "010"%char t) with (String c (s ++ String "010"%char t)).
    cbn [safe_filename_match]. rewrite IH.
    rewrite bool_decide_false by congruence.
    rewrite bool_decide_false.
    + rewrite !andb_false_r. destruct m; reflexivity.
    + intros H. injection H as -> H. destruct s; discriminate.
Qed.

(** Extra: [SafeFilenameConverter] accepts a nonempty name of the characters
    [[-._ a-zA-Z0-9]] also when a newline ends it ([$] matches before a
    final newline), and it rejects any name with a newline followed by more
    characters. *)
Theorem SafeFilenameConverter_trailing_newline (s t : string) :
  s <> "" -> all_chars safe_filename_char s = true ->
  SafeFilenameConverter_convert_from s = inr s /\
  SafeFilenameConverter_convert_from (s ++ String "010"%char "") = inr (s ++ String "010"%char "") /\
  (t <> "" -> SafeFilenameConverter_convert_from (s ++ String "010"%char t) = inl ValueError).
Proof.
  intros Hne Hs. unfold SafeFilenameConverter_convert_from.
  destruct (safe_filename_match_app_newline s false Hs (or_intror Hne)) as [-> ->].
  split; [reflexivity|]. split; [reflexivity|].
  intros Ht. rewrite safe_filename_match_inner_newline by exact Ht. reflexivity.
Qed.

Lemma SafeFilenameConverter_trailing_newline_witness :
  "app" <> "" /\ all_chars safe_filename_char "app" = true /\
  SafeFilenameConverter_convert_from "app" = inr "app" /\
  SafeFilenameConverter_convert_from ("app" ++ String "010"%char "") = inr ("app" ++ String "010"%char "") /\
  ("x" <> "" -> SafeFilenameConverter_convert_from ("app" ++ String "010"%char "x") = inl ValueError).
Proof.
  assert (H1 : "app" <> "") by discriminate.
  assert (H2 : all_chars safe_filename_char "app" = true) by reflexivity.
  split; [exact H1|]. split; [exact H2|]. exact (SafeFilenameConverter_trailing_newline "app" "x" H1 H2).
Defined.

Lemma list_to_set_subseteq (l : list string) (X : gset string) :
  list_to_set l ⊆ X <-> forall w, w ∈ l -> w ∈ X.
Proof. set_solver. Qed.

Lemma not_subseteq_witness (l : list string) (X : gset string) :
  ~ (list_to_set l ⊆ X) -> exists w, w ∈ l /\ w ∉ X.
Proof.
  induction l as [|x l IH]; intros H; [exfalso; apply H; set_solver|].
  destruct (decide (x ∈ X)) as [Hx|Hx].
  - destruct IH as (w & Hw & HwX); [set_solver|]. exists w. split; [set_solver | exact HwX].
  - exists x. split; [set_solver | exact Hx].
Qed.

(** Extra: converting a deployment specification object (fields [name],
    [workload] and an optional [inputGroups]) with the schema's raising
    [onerror] succeeds exactly when the name is accepted, every workload is
    one of forwarder, indexer and searchHead, and input groups are given
    only with the forwarder workload; it raises [ValueError] otherwise. The
    result has input groups exactly when it targets the forwarder workload,
    ALL when none were given, and they are in normal form. *)
Theorem schema_convert_from_spec (name : string) (workload : list string)
    (inputGroups : option (list string)) :
  match schema_convert_from name workload inputGroups with
  | inr s =>
      safe_filename_match name false = true /\
      (forall w, w ∈ workload -> w ∈ _workload_names) /\
      (inputGroups <> None -> "forwarder" ∈ workload) /\
      spec_name s = name /\ spec_workload s = list_to_set workload /\
      (spec_inputGroups s <> None <-> "forwarder" ∈ spec_workload s) /\
      (inputGroups = None -> "forwarder" ∈ workload -> spec_inputGroups s = Some all_input_groups) /\
      (forall g, spec_inputGroups s = Some g -> normal_form g)
  | inl e =>
      e = ValueError /\
      (safe_filename_match name false = false \/
       (exists w, w ∈ workload /\ w ∉ _workload_names) \/
       (inputGroups <> None /\ "forwarder" ∉ workload))
  end.
Proof.
  unfold schema_convert_from, SafeFilenameConverter_convert_from, WorkloadConverter_convert_from,
    Converter_convert_from.
  destruct (safe_filename_match name false) eqn:Hn; cbn beta iota;
    [|split; [reflexivity | left; reflexivity]].
  case_bool_decide as Hw; cbn beta iota;
    [|split; [reflexivity|]; right; left; exact (not_subseteq_witness _ _ Hw)].
  rewrite list_to_set_subseteq in Hw.
  destruct inputGroups as [value|]; cbn [option_map spec_inputGroups spec_workload spec_name].
  - case_bool_decide as Hf; cbn beta iota.
    + cbn. split; [reflexivity|]. split; [exact Hw|]. split; [intros _; set_solver|].
      split; [reflexivity|]. split; [reflexivity|]. split; [split; [intros _; exact Hf | discriminate]|].
      split; [discriminate|].
      intros g [= <-]. exact (proj1 (proj2 (proj2 (InputGroupsConverter_normal_form value)))).
    + split; [reflexivity|]. right; right. split; [discriminate | set_solver].
  - case_bool_decide as Hf; cbn.
    + split; [reflexivity|]. split; [exact Hw|]. split; [congruence|].
      split; [reflexivity|]. split; [reflexivity|]. split; [split; [intros _; exact Hf | discriminate]|].
      split; [reflexivity|]. intros g [= <-]. left; reflexivity.
    + split; [reflexivity|]. split; [exact Hw|]. split; [congruence|].
      split; [reflexivity|]. split; [reflexivity|]. split; [split; [congruence | intros H; exfalso; exact (Hf H)]|].
      split; [intros _ H; exfalso; apply Hf; set_solver|]. discriminate.
Qed.

End SpecificationSchemaFacts.

Module ForwarderWorkloadsFacts.
Import InputGroups OD ODFacts Deployment ForwarderWorkloads.
Import (notations) JsonData.

Local Open Scope list_scope.







Lemma od_set_keys_same {V} (k : string) (v : V) (d : list (string * V)) :
  k ∈ map fst d -> map fst (od_set k v d) = map fst d.
Proof.
  induction d as [|[k' v'] d IH]; cbn; [set_solver|].
  intros Hk. destruct (decide (k = k')) as [->|Hne]; cbn; [reflexivity|].
  rewrite IH by set_solver. reflexivity.
Qed.







Abbreviation is_str x := (exists s, x = JsonData.PyStr s).




End ForwarderWorkloadsFacts.

Module StaticSpecificationsFacts.
Import InputGroups Deployment StaticSpecifications.

Local Open Scope list_scope.

Lemma update_loop_covers w : forall deployment_specifications update_list,
  w ∈ update_list ->
  match update_loop update_list deployment_specifications with
  | None => exists s, s ∈ deployment_specifications /\ w ∈ spec_workload s
  | Some update_list' => w ∈ update_list' \/
                         exists s, s ∈ deployment_specifications /\ w ∈ spec_workload s
  end.
Proof.
  induction deployment_specifications as [|s rest IH]; intros update_list Hw; cbn [update_loop].
  - left. exact Hw.
  - case_bool_decide as H0.
    + specialize (IH update_list Hw).
      destruct (update_loop update_list rest); [destruct IH as [IH|(s' & Hs' & Hws')]|destruct IH as (s' & Hs' & Hws')];
        first [left; exact IH | right; exists s'; split; [set_solver | exact Hws'] | exists s'; split; [set_solver | exact Hws']].
    + case_bool_decide as Hall.
      * exists s. split; [set_solver|].
        assert (Heq : spec_workload s ∩ update_list ≡ update_list)
          by (apply set_subseteq_size_equiv; [set_solver | lia]).
        set_solver.
      * destruct (decide (w ∈ spec_workload s)) as [Hws|Hws].
        -- destruct (update_loop (update_list ∖ (spec_workload s ∩ update_list)) rest); cbn beta iota;
             [right|]; (exists s; split; [set_solver | exact Hws]).
        -- assert (Hw' : w ∈ update_list ∖ (spec_workload s ∩ update_list)) by set_solver.
           specialize (IH _ Hw').
           destruct (update_loop (update_list ∖ (spec_workload s ∩ update_list)) rest);
             [destruct IH as [IH|(s' & Hs' & Hws')]|destruct IH as (s' & Hs' & Hws')];
             first [left; exact IH | right; exists s'; split; [set_solver | exact Hws'] | exists s'; split; [set_solver | exact Hws']].
Qed.

(** Extra: without [combine_search_head_indexer_workloads] the method never
    fails; it keeps the given specifications as a prefix of its result, the
    searchHead and indexer workloads are each targeted by some specification
    of the result, and so is forwarder when no specification at all was
    given. *)
Theorem get_deployment_specifications_covers (encode_string : string -> string)
    (deployment_specifications : list AppDeploymentSpecification)
    (forwarder_deployment_specifications : option (list AppDeploymentSpecification)) :
  exists result,
    get_deployment_specifications encode_string deployment_specifications false forwarder_deployment_specifications =
      inr (result, name_clash_errors encode_string result) /\
    (exists rest, result = deployment_specifications ++ rest) /\
    (forall w, w = "searchHead" \/ w = "indexer" -> exists s, s ∈ result /\ w ∈ spec_workload s) /\
    (deployment_specifications = [] -> forwarder_deployment_specifications = None ->
     exists s, s ∈ result /\ "forwarder" ∈ spec_workload s).
Proof.
  unfold get_deployment_specifications.
  set (U := if bool_decide (length deployment_specifications = 0) &&
               bool_decide (forwarder_deployment_specifications = None)
            then Some ({[ "searchHead"; "indexer"; "forwarder" ]} : gset string)
            else update_loop {[ "searchHead"; "indexer" ]} deployment_specifications).
  set (appended := match U with
        | None => deployment_specifications
        | Some update_list =>
            (deployment_specifications ++
             (if bool_decide ("searchHead" ∈ update_list)
              then [spec_without_input_groups "_search_heads" {[ "searchHead" ]}] else []) ++
             (if bool_decide ("indexer" ∈ update_list)
              then [spec_without_input_groups "_indexers" {[ "indexer" ]}] else []) ++
             (if bool_decide ("forwarder" ∈ update_list)
              then [spec_without_input_groups "_forwarders" {[ "forwarder" ]}] else []))
        end).
  set (result := match forwarder_deployment_specifications with
                 | None => appended
                 | Some f => appended ++ f
                 end).
  exists result. split; [reflexivity|].
  assert (Happ : forall w, w ∈ ({[ "searchHead"; "indexer"; "forwarder" ]} : gset string) ->
                 forall update_list, U = Some update_list -> w ∈ update_list ->
                 exists s, s ∈ appended /\ w ∈ spec_workload s).
  { intros w Hw update_list HU Hwu. unfold appended. rewrite HU.
    assert (Hw' : w = "searchHead" \/ w = "indexer" \/ w = "forwarder") by set_solver.
    destruct Hw' as [->|[->| ->]].
    - exists (spec_without_input_groups "_search_heads" {[ "searchHead" ]}).
      rewrite (bool_decide_true _ Hwu). split; [set_solver | cbn; set_solver].
    - exists (spec_without_input_groups "_indexers" {[ "indexer" ]}).
      rewrite (bool_decide_true _ Hwu). split; [set_solver | cbn; set_solver].
    - exists (spec_without_input_groups "_forwarders" {[ "forwarder" ]}).
      rewrite (bool_decide_true _ Hwu). split; [set_solver | cbn; set_solver]. }
  assert (Hres : forall s, s ∈ appended -> s ∈ result).
  { intros s Hs. unfold result. destruct forwarder_deployment_specifications; set_solver. }
  assert (Hin : forall s, s ∈ deployment_specifications -> s ∈ appended).
  { intros s Hs. unfold appended. destruct U; set_solver. }
  split.
  { assert (Ha : exists r, appended = deployment_specifications ++ r).
    { unfold appended. destruct U as [ul|].
      - exists ((if bool_decide ("searchHead" ∈ ul)
                 then [spec_without_input_groups "_search_heads" {[ "searchHead" ]}] else []) ++
                (if bool_decide ("indexer" ∈ ul)
                 then [spec_without_input_groups "_indexers" {[ "indexer" ]}] else []) ++
                (if bool_decide ("forwarder" ∈ ul)
                 then [spec_without_input_groups "_forwarders" {[ "forwarder" ]}] else [])).
        reflexivity.
      - exists []. symmetry. apply app_nil_r. }
    destruct Ha as (r & Hr). unfold result. rewrite Hr.
    destruct forwarder_deployment_specifications as [f|].
    - exists (r ++ f). rewrite <- app_assoc. reflexivity.
    - exists r. reflexivity. }
  split.
  - intros w Hw.
    destruct (bool_decide (length deployment_specifications = 0) &&
              bool_decide (forwarder_deployment_specifications = None)) eqn:Hb.
    + destruct (Happ w ltac:(set_solver) _ ltac:(unfold U; rewrite ?Hb; reflexivity) ltac:(set_solver))
        as (s & Hs & Hws).
      exists s. split; [apply Hres; exact Hs | exact Hws].
    + pose proof (update_loop_covers w deployment_specifications {[ "searchHead"; "indexer" ]}
                    ltac:(set_solver)) as Hc.
      assert (HU : U = update_loop {[ "searchHead"; "indexer" ]} deployment_specifications)
        by (unfold U; rewrite ?Hb; reflexivity).
      destruct (update_loop {[ "searchHead"; "indexer" ]} deployment_specifications) as [ul|] eqn:Hul.
      * destruct Hc as [Hc|(s & Hs & Hws)].
        -- destruct (Happ w ltac:(set_solver) ul HU Hc) as (s & Hs & Hws).
           exists s. split; [apply Hres; exact Hs | exact Hws].
        -- exists s. split; [apply Hres, Hin; exact Hs | exact Hws].
      * destruct Hc as (s & Hs & Hws). exists s. split; [apply Hres, Hin; exact Hs | exact Hws].
  - intros -> ->.
    destruct (Happ "forwarder" ltac:(set_solver) {[ "searchHead"; "indexer"; "forwarder" ]}
                ltac:(reflexivity) ltac:(set_solver)) as (s & Hs & Hws).
    exists s. split; [apply Hres; exact Hs | exact Hws].
Qed.

(** A specification the combined branch merges. *)
Definition merged (s : AppDeploymentSpecification) : Prop :=
  targets_search_head_or_indexer s = true /\ spec_inputGroups s <> None.





(** Extra: with [combine_search_head_indexer_workloads], the indices of the
    merged specifications are deleted one after the other from the shrinking
    list. For two merged specifications [a] and [b] followed by a third [c],
    the method raises [IndexError] when [c] is merged too; otherwise it keeps
    [b] (which it merged) and drops [c] (which it did not merge). *)
Theorem combined_removal_shifts (encode_string : string -> string) (a b c : AppDeploymentSpecification)
    (forwarder_deployment_specifications : option (list AppDeploymentSpecification)) :
  merged a -> merged b ->
  (merged c ->
   get_deployment_specifications encode_string [a; b; c] true forwarder_deployment_specifications = inl IndexError) /\
  (~ merged c -> exists S,
   get_deployment_specifications encode_string [a; b; c] true forwarder_deployment_specifications =
     inr ([b; S], name_clash_errors encode_string [b; S])).
Proof.
  intros [Ha Ga] [Hb Gb].
  destruct (spec_inputGroups a) as [GA|] eqn:HGa; [|congruence].
  destruct (spec_inputGroups b) as [GB|] eqn:HGb; [|congruence].
  unfold get_deployment_specifications.
  rewrite bool_decide_false by (cbn; lia).
  unfold combined_loop. cbn [length seq zip foldl].
  rewrite Ha, HGa. cbn [negb]. rewrite Hb, HGb. cbn [negb].
  split.
  - intros [Hc Gc]. destruct (spec_inputGroups c) as [GC|] eqn:HGc; [|congruence].
    rewrite Hc; rewrite ?HGc. cbn [negb app].
    unfold remove_indices, delete_at. cbn. reflexivity.
  - intros Hc.
    assert (Hstep : forall U R, (if negb (targets_search_head_or_indexer c) then (U, R)
                     else match spec_inputGroups c with
                          | None => (U, R)
                          | Some g => (U ∪ g, (R ++ [2])%list)
                          end) = (U, R)).
    { intros U R. destruct (targets_search_head_or_indexer c) eqn:Hc'; [|reflexivity].
      destruct (spec_inputGroups c) eqn:HGc; [|reflexivity].
      exfalso. apply Hc. split; [exact Hc' | congruence]. }
    rewrite Hstep. cbn [app]. unfold remove_indices, delete_at. cbn.
    eexists. reflexivity.
Qed.

Definition sh_spec (name : string) : AppDeploymentSpecification :=
  mk_spec name {[ "searchHead" ]} (Some {[ "g1" ]}).

Lemma combined_removal_shifts_witness :
  merged (sh_spec "a") /\ merged (sh_spec "b") /\
  (merged (sh_spec "c") ->
   get_deployment_specifications (fun s => s) [sh_spec "a"; sh_spec "b"; sh_spec "c"] true None = inl IndexError) /\
  (~ merged (mk_spec "fwd" {[ "forwarder" ]} None) -> exists S,
   get_deployment_specifications (fun s => s) [sh_spec "a"; sh_spec "b"; mk_spec "fwd" {[ "forwarder" ]} None] true None =
     inr ([sh_spec "b"; S], name_clash_errors (fun s => s) [sh_spec "b"; S])).
Proof.
  assert (Hm : forall n, merged (sh_spec n)).
  { intros n. split; [unfold targets_search_head_or_indexer; apply bool_decide_eq_true; cbn; set_solver | discriminate]. }
  split; [apply Hm|]. split; [apply Hm|]. split.
  - exact (proj1 (combined_removal_shifts (fun s => s) (sh_spec "a") (sh_spec "b") (sh_spec "c") None (Hm "a") (Hm "b"))).
  - exact (proj2 (combined_removal_shifts (fun s => s) (sh_spec "a") (sh_spec "b") (mk_spec "fwd" {[ "forwarder" ]} None) None (Hm "a") (Hm "b"))).
Defined.

(** [n] occurs twice in [names]. *)
Definition occurs_twice (n : string) (names : list string) : Prop :=
  exists l1 l2 l3, names = l1 ++ n :: l2 ++ n :: l3.

(** The body of the name-clash loop. *)
Definition clash_step (encode_string : string -> string) (acc : gset string * list event)
    (deployment_specification : AppDeploymentSpecification) : gset string * list event :=
  let '(name_clashes, log) := acc in
  let name := spec_name deployment_specification in
  (({[ name ]} ∪ name_clashes : gset string),
   if bool_decide (name ∈ name_clashes)
   then log ++ [Construction.SlimError ("Duplicate deployment specification name: " ++ encode_string name)]
   else log).

Lemma name_clash_fold (encode_string : string -> string) (l : list AppDeploymentSpecification) :
  forall (S : gset string) (log : list event),
  exists new,
    (foldl (clash_step encode_string) (S, log) l).2 = log ++ new /\
    (new = [] <-> NoDup (map spec_name l) /\ forall n, n ∈ map spec_name l -> n ∉ S) /\
    (forall e, e ∈ new -> exists n,
       e = Construction.SlimError ("Duplicate deployment specification name: " ++ encode_string n) /\
       n ∈ map spec_name l /\ (n ∈ S \/ occurs_twice n (map spec_name l))).
Proof.
  induction l as [|x l IH]; intros S log; cbn [foldl map].
  - exists []. split; [rewrite app_nil_r; reflexivity|]. split.
    + split; [intros _; split; [constructor | intros n Hn; inversion Hn] | reflexivity].
    + intros e He. inversion He.
  - destruct (clash_step encode_string (S, log) x) as [S' log'] eqn:Hstep.
    unfold clash_step in Hstep. injection Hstep as <- <-.
    set (m := Construction.SlimError ("Duplicate deployment specification name: " ++ encode_string (spec_name x))).
    destruct (IH ({[ spec_name x ]} ∪ S) (if bool_decide (spec_name x ∈ S) then log ++ [m] else log))
      as (new & Hfold & Hnil & Hmsg).
    exists ((if bool_decide (spec_name x ∈ S) then [m] else []) ++ new).
    split.
    { rewrite Hfold. case_bool_decide; cbn [app]; [rewrite <- app_assoc; reflexivity | reflexivity]. }
    split.
    + rewrite NoDup_cons. split.
      * intros Hn. apply app_eq_nil in Hn as [H1 H2].
        case_bool_decide as HS; [discriminate|].
        apply Hnil in H2 as [Hnd Hout].
        split; [split; [intros Hx; apply (Hout (spec_name x) Hx); set_solver | exact Hnd]|].
        intros n Hn. apply elem_of_cons in Hn as [->|Hn]; [exact HS|].
        specialize (Hout n Hn). set_solver.
      * intros [[Hx Hnd] Hout].
        rewrite bool_decide_false by (apply Hout; left).
        cbn [app]. apply Hnil. split; [exact Hnd|].
        intros n Hn Hin. apply elem_of_union in Hin as [Hin|Hin].
        -- apply elem_of_singleton in Hin. subst n. contradiction.
        -- apply (Hout n); [right; exact Hn | exact Hin].
    + intros e He. apply elem_of_app in He as [He|He].
      * case_bool_decide as HS; [|inversion He].
        apply list_elem_of_singleton in He. subst e.
        exists (spec_name x). split; [reflexivity|]. split; [left|left; exact HS].
      * destruct (Hmsg e He) as (n & -> & Hn & Hor). exists n. split; [reflexivity|].
        split; [right; exact Hn|].
        destruct Hor as [Hin|(l1 & l2 & l3 & Heq)].
        -- apply elem_of_union in Hin as [Hin|Hin]; [|left; exact Hin].
           apply elem_of_singleton in Hin. subst n. right.
           apply list_elem_of_split in Hn as (l2 & l3 & Heq).
           exists [], l2, l3. rewrite Heq. reflexivity.
        -- right. exists (spec_name x :: l1), l2, l3. rewrite Heq. reflexivity.
Qed.

(** Extra: the name-clash check of [get_deployment_specifications] logs
    nothing exactly when the specification names are pairwise distinct, and
    each message it logs names a specification name occurring twice. *)
Theorem name_clash_errors_spec (encode_string : string -> string) (l : list AppDeploymentSpecification) :
  (name_clash_errors encode_string l = [] <-> NoDup (map spec_name l)) /\
  (forall e, e ∈ name_clash_errors encode_string l -> exists n,
     e = Construction.SlimError ("Duplicate deployment specification name: " ++ encode_string n) /\
     occurs_twice n (map spec_name l)).
Proof.
  assert (E : name_clash_errors encode_string l = (foldl (clash_step encode_string) (∅, []) l).2)
    by reflexivity.
  destruct (name_clash_fold encode_string l ∅ []) as (new & Hfold & Hnil & Hmsg).
  rewrite E, Hfold. cbn [app]. split.
  - rewrite Hnil. split; [intros [H _]; exact H | intros H; split; [exact H | intros n _; set_solver]].
  - intros e He. destruct (Hmsg e He) as (n & -> & _ & [Hin|Htw]); [set_solver|].
    exists n. split; [reflexivity | exact Htw].
Qed.

End StaticSpecificationsFacts.

Module TraverseFacts.
Import OD ODFacts Traverse.

Local Open Scope list_scope.

(** A callback that records the nodes it is called on, around [visit]. *)
Definition logged {St D : Type} (visit : St -> AppSource -> list AppSource -> option D -> St * list AppSource)
    (s : list AppSource * St) (app_source : AppSource) (dependency_sources : list AppSource)
    (dependent_sources : option D) : (list AppSource * St) * list AppSource :=
  let '(st, r) := visit s.2 app_source dependency_sources dependent_sources in
  ((s.1 ++ [app_source], st), r).

(** The callback that records the nodes it is called on and follows the graph. *)
Definition follow {D : Type} (calls : list AppSource) (app_source : AppSource)
    (dependency_sources : list AppSource) (dependent_sources : option D) : list AppSource * list AppSource :=
  (calls ++ [app_source], dependency_sources).

Definition edge (graph : list (AppSource * list AppSource)) (u v : AppSource) : Prop :=
  exists dependency_sources, od_get u graph = Some dependency_sources /\ v ∈ dependency_sources.

(** The lengths of the adjacency lists of the nodes not yet visited. *)
Definition unvisited (graph : list (AppSource * list AppSource)) (visited : gset AppSource) : nat :=
  sum_list_with (fun kv => if bool_decide (kv.1 ∈ visited) then 0 else length kv.2) graph.

Definition adjacency_size (graph : list (AppSource * list AppSource)) : nat :=
  sum_list_with (fun kv => length kv.2) graph.

Lemma unvisited_empty graph : unvisited graph ∅ = adjacency_size graph.
Proof.
  unfold unvisited, adjacency_size.
  induction graph as [|[k ds] g IH]; cbn [sum_list_with fst snd]; [reflexivity|].
  rewrite bool_decide_false by set_solver. lia.
Qed.

Lemma unvisited_mono graph (V V' : gset AppSource) :
  V ⊆ V' -> unvisited graph V' <= unvisited graph V.
Proof.
  intros HV. unfold unvisited.
  induction graph as [|[k ds] g IH]; cbn [sum_list_with fst snd]; [lia|].
  destruct (decide (k ∈ V)) as [Hk|Hk].
  - rewrite (bool_decide_true _ Hk), (bool_decide_true (k ∈ V')) by set_solver. lia.
  - rewrite (bool_decide_false _ Hk). case_bool_decide; lia.
Qed.

Lemma unvisited_step graph (V : gset AppSource) a ds :
  a ∉ V -> od_get a graph = Some ds -> unvisited graph ({[ a ]} ∪ V) + length ds <= unvisited graph V.
Proof.
  intros Ha. unfold unvisited.
  induction graph as [|[k ds0] g IH]; cbn [sum_list_with fst snd od_get]; [discriminate|].
  destruct (decide (a = k)) as [<-|Hne].
  - intros [= ->]. rewrite bool_decide_true by set_solver. rewrite (bool_decide_false _ Ha).
    pose proof (unvisited_mono g V ({[ a ]} ∪ V) ltac:(set_solver)) as Hm. unfold unvisited in Hm. lia.
  - intros Hg. specialize (IH Hg).
    assert (Hiff : k ∈ {[ a ]} ∪ V <-> k ∈ V) by set_solver.
    destruct (decide (k ∈ V)) as [Hk|Hk].
    + rewrite (bool_decide_true _ Hk), (bool_decide_true (k ∈ {[ a ]} ∪ V)) by tauto. lia.
    + rewrite (bool_decide_false _ Hk), (bool_decide_false (k ∈ {[ a ]} ∪ V)) by tauto. lia.
Qed.

Section Follow.
Context {D : Type}.
Variable graph : list (AppSource * list AppSource).
Variable app_dependents : list (AppSource * D).
Variable root : AppSource.

Lemma follow_loop fuel : forall calls queue (visited : gset AppSource),
  (forall x, x ∈ visited <-> x ∈ calls) ->
  NoDup calls ->
  (forall x, x ∈ calls ++ queue -> rtc (edge graph) root x) ->
  root ∈ calls ++ queue ->
  (forall a b, a ∈ calls -> edge graph a b -> b ∈ calls ++ queue) ->
  length queue + unvisited graph visited < fuel ->
  match traverse_loop (@follow D) graph app_dependents fuel calls queue visited with
  | Some (inr calls') => NoDup calls' /\ forall x, x ∈ calls' <-> rtc (edge graph) root x
  | Some (inl _) => exists x, rtc (edge graph) root x /\ od_get x graph = None
  | None => False
  end.
Proof.
  induction fuel as [|fuel IH]; intros calls queue visited Hvis Hnd Hreach Hroot Hclosed Hfuel; [lia|].
  cbn [traverse_loop]. destruct queue as [|a queue].
  - rewrite app_nil_r in Hreach, Hroot, Hclosed. split; [exact Hnd|].
    intros x. split; [apply Hreach|].
    revert x. apply (rtc_ind_r (fun y => y ∈ calls)); [exact Hroot|].
    intros y z _ Hyz Hy. exact (Hclosed _ _ Hy Hyz).
  - destruct (decide (a ∈ visited)) as [Ha|Ha].
    + rewrite (bool_decide_true _ Ha). apply Hvis in Ha.
      apply IH; [exact Hvis | exact Hnd | intros x Hx; apply Hreach; set_solver | set_solver | | cbn in Hfuel; lia].
      intros a' b Ha' Hab. specialize (Hclosed a' b Ha' Hab). set_solver.
    + rewrite (bool_decide_false _ Ha).
      assert (Hra : rtc (edge graph) root a) by (apply Hreach; set_solver).
      destruct (od_get a graph) as [ds|] eqn:Hg; [|exists a; split; [exact Hra | exact Hg]].
      cbn [follow].
      pose proof (unvisited_step graph visited a ds Ha Hg) as Hstep.
      assert (Ha' : a ∉ calls) by (intros H; apply Ha, Hvis, H).
      apply IH.
      * intros x. rewrite elem_of_union, elem_of_singleton, Hvis, elem_of_app, list_elem_of_singleton. tauto.
      * apply NoDup_app. split; [exact Hnd|]. split; [|apply NoDup_singleton].
        intros x Hx Hx'. apply list_elem_of_singleton in Hx'. subst x. contradiction.
      * intros x Hx. rewrite <- app_assoc in Hx. apply elem_of_app in Hx as [Hx|Hx]; [apply Hreach; set_solver|].
        apply elem_of_app in Hx as [Hx|Hx]; [apply Hreach; set_solver|].
        apply elem_of_app in Hx as [Hx|Hx]; [apply Hreach; set_solver|].
        apply rtc_r with a; [exact Hra | exists ds; split; [exact Hg | exact Hx]].
      * set_solver.
      * intros a' b Ha'' Hab. apply elem_of_app in Ha'' as [Ha''|Ha''].
        -- specialize (Hclosed a' b Ha'' Hab). set_solver.
        -- apply list_elem_of_singleton in Ha''. subst a'.
           destruct Hab as (ds' & Hg' & Hb). rewrite Hg in Hg'. injection Hg' as <-. set_solver.
      * rewrite length_app. cbn [length] in Hfuel. lia.
Qed.

(** Extra: [traverse] with a callback that follows the graph (returns the
    dependency sources it is given) ends within [1 + adjacency_size graph]
    iterations. It raises [KeyError] only for a node reachable from the root
    that is no key of the graph; otherwise the callback was called exactly
    once on each node reachable from the root and on no other node. *)
Theorem traverse_follow_spec (fuel : nat) :
  S (adjacency_size graph) < fuel ->
  match traverse (@follow D) graph app_dependents fuel root [] with
  | Some (inr (dependents, calls)) =>
      dependents = app_dependents /\ NoDup calls /\ forall x, x ∈ calls <-> rtc (edge graph) root x
  | Some (inl KeyError) => exists x, rtc (edge graph) root x /\ od_get x graph = None
  | None => False
  end.
Proof.
  intros Hfuel. unfold traverse.
  pose proof (follow_loop fuel [] [root] ∅) as H.
  destruct (traverse_loop (@follow D) graph app_dependents fuel [] [root] ∅) as [[e|calls]|].
  - destruct e. apply H; [set_solver | constructor | | set_solver | set_solver |].
    + intros x Hx. cbn in Hx. apply list_elem_of_singleton in Hx. subst x. reflexivity.
    + rewrite unvisited_empty. cbn [length]. lia.
  - split; [reflexivity|]. apply H; [set_solver | constructor | | set_solver | set_solver |].
    + intros x Hx. cbn in Hx. apply list_elem_of_singleton in Hx. subst x. reflexivity.
    + rewrite unvisited_empty. cbn [length]. lia.
  - apply H; [set_solver | constructor | | set_solver | set_solver |].
    + intros x Hx. cbn in Hx. apply list_elem_of_singleton in Hx. subst x. reflexivity.
    + rewrite unvisited_empty. cbn [length]. lia.
Qed.

End Follow.

Lemma logged_loop {St D : Type} (visit : St -> AppSource -> list AppSource -> option D -> St * list AppSource)
    graph app_dependents fuel :
  forall calls st queue (visited : gset AppSource) calls' st',
  (forall x, x ∈ visited <-> x ∈ calls) ->
  NoDup calls -> Forall (fun a => a ∈ map fst graph) calls ->
  traverse_loop (logged visit) graph app_dependents fuel (calls, st) queue visited = Some (inr (calls', st')) ->
  NoDup calls' /\ Forall (fun a => a ∈ map fst graph) calls' /\ exists more, calls' = calls ++ more.
Proof.
  induction fuel as [|fuel IH]; intros calls st queue visited calls' st' Hvis Hnd Hkeys H; cbn in H; [discriminate|].
  destruct queue as [|a queue].
  - injection H as <- <-. split; [exact Hnd|]. split; [exact Hkeys|]. exists []. symmetry. apply app_nil_r.
  - destruct (decide (a ∈ visited)) as [Ha|Ha].
    + rewrite (bool_decide_true _ Ha) in H. exact (IH _ _ _ _ _ _ Hvis Hnd Hkeys H).
    + rewrite (bool_decide_false _ Ha) in H.
      destruct (od_get a graph) as [ds|] eqn:Hg; [|discriminate].
      unfold logged in H. cbn [fst snd] in H.
      destruct (visit st a ds (od_get a app_dependents)) as [st1 r].
      assert (Ha' : a ∉ calls) by (intros Hc; apply Ha, Hvis, Hc).
      destruct (IH (calls ++ [a]) st1 (queue ++ r) ({[ a ]} ∪ visited) calls' st' ltac:(intros x; rewrite elem_of_union, elem_of_singleton, Hvis,
                   elem_of_app, list_elem_of_singleton; tauto)
                 ltac:(apply NoDup_app; split; [exact Hnd | split; [intros x Hx Hx'; apply list_elem_of_singleton in Hx';
                        subst x; contradiction | apply NoDup_singleton]])
                 ltac:(apply Forall_app; split; [exact Hkeys | apply Forall_singleton;
                        exact (ConstructionFacts.od_get_key _ _ _ Hg)]) H)
        as (Hnd' & Hkeys' & more & ->).
      split; [exact Hnd'|]. split; [exact Hkeys'|]. exists ([a] ++ more). rewrite app_assoc. reflexivity.
Qed.

(** Extra: whatever the callback does, [traverse] calls it at most once on
    each node: when it returns, the nodes the callback was called on are
    distinct keys of the graph, the root first. *)
Theorem traverse_visits_once {St D : Type}
    (visit : St -> AppSource -> list AppSource -> option D -> St * list AppSource)
    graph app_dependents fuel root st dependents calls st' :
  traverse (logged visit) graph app_dependents fuel root ([], st) = Some (inr (dependents, (calls, st'))) ->
  NoDup calls /\ head calls = Some root /\ Forall (fun a => a ∈ map fst graph) calls.
Proof.
  unfold traverse. intros H.
  destruct (traverse_loop (logged visit) graph app_dependents fuel ([], st) [root] ∅) as [[e|[c s]]|] eqn:E;
    [discriminate | | discriminate].
  injection H as _ -> ->.
  destruct fuel as [|fuel]; [discriminate|]. cbn in E.
  rewrite bool_decide_false in E by set_solver.
  destruct (od_get root graph) as [ds|] eqn:Hg; [|discriminate].
  unfold logged in E. cbn [fst snd app] in E.
  destruct (visit st root ds (od_get root app_dependents)) as [st1 r].
  destruct (logged_loop visit graph app_dependents fuel [root] st1 r ({[ root ]} ∪ ∅) calls st'
              ltac:(intros x; rewrite elem_of_union, elem_of_singleton, list_elem_of_singleton; set_solver)
              (NoDup_singleton root)
              ltac:(apply Forall_singleton; exact (ConstructionFacts.od_get_key _ _ _ Hg)) E)
    as (Hnd & Hkeys & more & ->).
  split; [exact Hnd|]. split; [reflexivity | exact Hkeys].
Qed.

Definition cyclic_graph : list (AppSource * list AppSource) :=
  [("a", ["b"]); ("b", ["a"; "c"]); ("c", [])].

Lemma traverse_follow_spec_witness :
  S (adjacency_size cyclic_graph) < 10 /\
  match traverse (@follow unit) cyclic_graph [] 10 "a" [] with
  | Some (inr (dependents, calls)) =>
      dependents = [] /\ NoDup calls /\ forall x, x ∈ calls <-> rtc (edge cyclic_graph) "a" x
  | Some (inl KeyError) => exists x, rtc (edge cyclic_graph) "a" x /\ od_get x cyclic_graph = None
  | None => False
  end.
Proof.
  assert (H : S (adjacency_size cyclic_graph) < 10) by (cbn; lia).
  split; [exact H | exact (traverse_follow_spec cyclic_graph [] "a" 10 H)].
Defined.

Lemma traverse_visits_once_witness :
  traverse (logged (fun (st : unit) (_ : AppSource) (ds : list AppSource) (_ : option unit) => (st, ds)))
    cyclic_graph [] 10 "a" ([], tt) = Some (inr ([], (["a"; "b"; "c"], tt))) /\
  NoDup ["a"; "b"; "c"] /\ head ["a"; "b"; "c"] = Some "a" /\
  Forall (fun a => a ∈ map fst cyclic_graph) ["a"; "b"; "c"].
Proof.
  assert (H : traverse (logged (fun (st : unit) (_ : AppSource) (ds : list AppSource) (_ : option unit) => (st, ds)))
    cyclic_graph [] 10 "a" ([], tt) = Some (inr ([], (["a"; "b"; "c"], tt)))) by (vm_compute; reflexivity).
  split; [exact H | exact (traverse_visits_once _ _ _ _ _ _ _ _ _ H)].
Defined.

End TraverseFacts.

Module SplitFilenameFacts.
Import PosixPath SplitFilename.

(** [s] holds no ['/']. *)
Fixpoint no_sep (s : string) : bool :=
  match s with
  | EmptyString => true
  | String c s' => negb (bool_decide (c = sep)) && no_sep s'
  end.

(** A component of a relative path: nonempty, without ['/']. *)
Definition component (c : string) : Prop := c <> "" /\ no_sep c = true.

Lemma head_no_sep y : no_sep y = true -> head_through_sep y = None.
Proof.
  induction y as [|c y IH]; cbn [no_sep head_through_sep]; [reflexivity|].
  intros [Hc Hy]%andb_prop. rewrite (IH Hy).
  apply negb_true_iff, bool_decide_eq_false in Hc. rewrite (bool_decide_false _ Hc). reflexivity.
Qed.

Lemma tail_no_sep y : no_sep y = true -> tail_after_sep y = y.
Proof.
  destruct y as [|c y]; cbn [no_sep tail_after_sep]; [reflexivity|].
  intros [Hc Hy]%andb_prop. rewrite (head_no_sep y Hy).
  apply negb_true_iff, bool_decide_eq_false in Hc. rewrite (bool_decide_false _ Hc). reflexivity.
Qed.

Lemma head_app_sep a y : no_sep y = true -> head_through_sep (a ++ String sep y) = Some (a ++ String sep "").
Proof.
  intros Hy. induction a as [|c a IH].
  - change ("" ++ String sep y) with (String sep y). change ("" ++ String sep "") with (String sep "").
    cbn [head_through_sep]. rewrite (head_no_sep y Hy). rewrite bool_decide_true by reflexivity. reflexivity.
  - change (String c a ++ String sep y) with (String c (a ++ String sep y)).
    change (String c a ++ String sep "") with (String c (a ++ String sep "")).
    cbn [head_through_sep]. rewrite IH. reflexivity.
Qed.

Lemma tail_app_sep a y : no_sep y = true -> tail_after_sep (a ++ String sep y) = y.
Proof.
  intros Hy. induction a as [|c a IH].
  - change ("" ++ String sep y) with (String sep y). cbn [tail_after_sep].
    rewrite (head_no_sep y Hy). rewrite bool_decide_true by reflexivity. reflexivity.
  - change (String c a ++ String sep y) with (String c (a ++ String sep y)).
    cbn [tail_after_sep]. rewrite (head_app_sep a y Hy). exact IH.
Qed.

Lemma rstrip_no_sep x : no_sep x = true -> rstrip_sep x = x.
Proof.
  induction x as [|c x IH]; cbn [no_sep rstrip_sep]; [reflexivity|].
  intros [Hc Hx]%andb_prop. rewrite (IH Hx).
  apply negb_true_iff, bool_decide_eq_false in Hc. rewrite (bool_decide_false (c = sep) Hc), andb_false_r.
  reflexivity.
Qed.

Lemma rstrip_app a x : x <> "" -> no_sep x = true -> rstrip_sep (a ++ x) = a ++ x.
Proof.
  intros Hne Hx. induction a as [|c a IH]; [exact (rstrip_no_sep x Hx)|].
  change (String c a ++ x) with (String c (a ++ x)). cbn [rstrip_sep]. rewrite IH.
  rewrite (bool_decide_false (a ++ x = "")); [reflexivity|].
  destruct a; [exact Hne | discriminate].
Qed.

Lemma rstrip_app_sep s : rstrip_sep (s ++ String sep "") = rstrip_sep s.
Proof.
  induction s as [|c s IH]; [reflexivity|].
  change (String c s ++ String sep "") with (String c (s ++ String sep "")). cbn [rstrip_sep]. rewrite IH.
  reflexivity.
Qed.

Lemma all_sep_app s t : all_sep (s ++ t) = all_sep s && all_sep t.
Proof.
  induction s as [|c s IH]; [reflexivity|].
  change (String c s ++ t) with (String c (s ++ t)). cbn [all_sep]. rewrite IH. apply andb_assoc.
Qed.

Lemma all_sep_component x : component x -> all_sep x = false.
Proof.
  intros [Hne Hx]. destruct x as [|c x]; [congruence|].
  cbn in Hx |- *. apply andb_prop in Hx as [Hc _].
  apply negb_true_iff, bool_decide_eq_false in Hc. rewrite (bool_decide_false _ Hc). reflexivity.
Qed.

Lemma join_sep_snoc cs x : cs <> [] -> join_sep (cs ++ [x]) = join_sep cs ++ String sep x.
Proof.
  induction cs as [|c cs IH]; intros Hne; [congruence|].
  destruct cs as [|d cs]; [reflexivity|].
  change ((c :: d :: cs) ++ [x])%list with (c :: ((d :: cs) ++ [x]))%list.
  assert (Hcons : exists y ys, ((d :: cs) ++ [x])%list = y :: ys) by (eexists _, _; reflexivity).
  destruct Hcons as (y & ys & Hy).
  transitivity (c ++ String sep (join_sep ((d :: cs) ++ [x]))).
  { rewrite Hy. reflexivity. }
  rewrite IH by discriminate.
  change (join_sep (c :: d :: cs)) with (c ++ String sep (join_sep (d :: cs))).
  rewrite ServerClassFacts.string_app_assoc. reflexivity.
Qed.

Lemma join_last cs : Forall component cs -> cs <> [] ->
  exists a x, join_sep cs = a ++ x /\ component x.
Proof.
  destruct cs as [|c0 cs0] using rev_ind; intros Hcs Hne; [congruence|].
  apply Forall_app in Hcs as [Hcs Hx]. rewrite Forall_singleton in Hx.
  destruct (decide (cs0 = [])) as [->|Hne'].
  - exists "", c0. split; [reflexivity | exact Hx].
  - exists (join_sep cs0 ++ String sep ""), c0. split; [|exact Hx].
    rewrite join_sep_snoc by exact Hne'. rewrite ServerClassFacts.string_app_assoc. reflexivity.
Qed.

Lemma split_snoc cs x :
  Forall component cs -> component x -> split (join_sep (cs ++ [x])) = (join_sep cs, x).
Proof.
  intros Hcs [Hxne Hx]. unfold split.
  destruct (decide (cs = [])) as [->|Hne].
  - cbn [app join_sep]. rewrite (head_no_sep x Hx), (tail_no_sep x Hx). cbn [default].
    rewrite bool_decide_true by reflexivity. reflexivity.
  - rewrite join_sep_snoc by exact Hne.
    rewrite (head_app_sep _ _ Hx), (tail_app_sep _ _ Hx). cbn [default]. unfold id.
    destruct (join_last cs Hcs Hne) as (a & y & Hj & Hy).
    rewrite (bool_decide_false (join_sep cs ++ String sep "" = "")) by (destruct (join_sep cs); discriminate).
    rewrite all_sep_app, Hj, all_sep_app, (all_sep_component y Hy), andb_false_r. cbn [negb andb].
    rewrite rstrip_app_sep. rewrite (rstrip_app a y (proj1 Hy) (proj2 Hy)). reflexivity.
Qed.

Lemma split_loop_join cs : forall fuel parts,
  Forall component cs -> length cs < fuel ->
  split_loop fuel (join_sep cs) parts = Some (parts ++ rev cs)%list.
Proof.
  induction cs as [|x cs IH] using rev_ind; intros fuel parts Hcs Hfuel.
  - destruct fuel as [|fuel]; [cbn in Hfuel; lia|]. cbn. rewrite app_nil_r. reflexivity.
  - apply Forall_app in Hcs as [Hcs Hx]. rewrite Forall_singleton in Hx.
    rewrite length_app in Hfuel. cbn [length] in Hfuel.
    destruct fuel as [|fuel]; [lia|]. cbn [split_loop].
    rewrite bool_decide_false.
    + rewrite (split_snoc cs x Hcs Hx). rewrite IH by (assumption || lia).
      rewrite rev_app_distr. cbn [rev app]. rewrite <- app_assoc. reflexivity.
    + destruct (decide (cs = [])) as [->|Hne]; [exact (proj1 Hx)|].
      rewrite join_sep_snoc by exact Hne. destruct (join_sep cs); discriminate.
Qed.

(** Extra: [_split_filename] of a relative path ['c1/.../cn'] of nonempty
    components without ['/'] returns the components in reverse order,
    [[cn, ..., c1]], within [n + 1] iterations. *)
Theorem _split_filename_relative (fuel : nat) (cs : list string) :
  Forall component cs -> length cs < fuel ->
  _split_filename fuel (join_sep cs) = Some (rev cs).
Proof.
  intros Hcs Hfuel. unfold _split_filename. rewrite split_loop_join by assumption. reflexivity.
Qed.

Lemma rstrip_empty_all_sep s : rstrip_sep s = "" -> all_sep s = true.
Proof.
  induction s as [|c s IH]; cbn [rstrip_sep all_sep]; [reflexivity|].
  destruct (decide (rstrip_sep s = "")) as [Hr|Hr].
  - rewrite (bool_decide_true _ Hr). destruct (decide (c = sep)) as [Hc|Hc].
    + rewrite (bool_decide_true _ Hc). cbn [andb]. intros _. exact (IH Hr).
    + rewrite (bool_decide_false _ Hc). cbn [andb]. discriminate.
  - rewrite (bool_decide_false _ Hr). cbn [andb]. discriminate.
Qed.

Lemma split_absolute p : startswith p "/" = true -> startswith (split p).1 "/" = true.
Proof.
  destruct p as [|c p]; cbn [startswith]; [discriminate|].
  intros Hc. apply andb_prop in Hc as [Hc _]. apply bool_decide_eq_true in Hc. subst c.
  unfold split. cbn [head_through_sep fst].
  assert (Hh : exists h, match head_through_sep p with
                         | Some h => Some (String "/" h)
                         | None => if bool_decide ("/"%char = sep) then Some (String "/" "") else None
                         end = Some (String "/" h)).
  { destruct (head_through_sep p) as [h|]; [exists h; reflexivity | exists ""; reflexivity]. }
  destruct Hh as (h & ->). cbn [default]. unfold id.
  rewrite (bool_decide_false (String "/" h = "")) by discriminate. cbn [negb andb].
  destruct (all_sep (String "/" h)) eqn:Hall; cbn [negb].
  - cbn [startswith]. destruct h; reflexivity.
  - cbn [rstrip_sep]. destruct (decide (rstrip_sep h = "")) as [Hr|Hr].
    + exfalso. cbn [all_sep] in Hall. rewrite (rstrip_empty_all_sep h Hr) in Hall. discriminate.
    + rewrite (bool_decide_false _ Hr). cbn [startswith]. destruct (rstrip_sep h); reflexivity.
Qed.

(** Extra: [_split_filename] never returns for a path that starts with
    ['/']: [path.split] keeps a head that starts with ['/'] (['/'] splits
    into ['/'] and [''] again), so the loop runs out of any fuel. *)
Theorem _split_filename_absolute_diverges (fuel : nat) (filename : string) :
  startswith filename "/" = true -> _split_filename fuel filename = None.
Proof.
  unfold _split_filename. generalize (@nil string) as parts. revert filename.
  induction fuel as [|fuel IH]; intros filename parts Habs; [reflexivity|].
  cbn [split_loop]. rewrite bool_decide_false by (intros ->; discriminate).
  pose proof (split_absolute filename Habs) as Hs.
  destruct (split filename) as [head part]. exact (IH head _ Hs).
Qed.

Lemma _split_filename_relative_witness :
  Forall component ["app"; "default"; "data"] /\ length ["app"; "default"; "data"] < 4 /\
  _split_filename 4 "app/default/data" = Some ["data"; "default"; "app"].
Proof.
  assert (H1 : Forall component ["app"; "default"; "data"]).
  { repeat constructor; discriminate. }
  assert (H2 : length ["app"; "default"; "data"] < 4) by (cbn; lia).
  split; [exact H1|]. split; [exact H2|].
  exact (_split_filename_relative 4 ["app"; "default"; "data"] H1 H2).
Defined.

Lemma _split_filename_absolute_diverges_witness :
  startswith "/opt/app" "/" = true /\ _split_filename 100 "/opt/app" = None.
Proof.
  assert (H : startswith "/opt/app" "/" = true) by reflexivity.
  split; [exact H | exact (_split_filename_absolute_diverges 100 "/opt/app" H)].
Defined.

End SplitFilenameFacts.

Module GetSourceFacts.
Import OD ODFacts PosixPath Construction GetSource.

Section GetSourceFacts.
Context {Source : Type}.
Variable AppSource_of : string -> Source.
Variable encode_filename : string -> string.

(** Extra: [get_source] logs an error and returns None, leaving the
    repository as it is, for a package the repository lacks; it returns a
    source it holds. For a package whose source is not created yet, it
    returns [AppSource(path.join(repository_path, package))] and stores it
    under the joined path, not under [package]: when the two differ, the
    entry of [package] stays None, so the next call creates the source
    again. *)
Theorem get_source_spec (repository : list (string * option Source)) (repository_path package : string) :
  (od_get package repository = None ->
   get_source AppSource_of encode_filename repository repository_path package =
     (None, repository,
      [SlimError ("Package " ++ encode_filename package ++ " not found in repository directory "
                  ++ encode_filename repository_path)])) /\
  (forall source, od_get package repository = Some (Some source) ->
   get_source AppSource_of encode_filename repository repository_path package = (Some source, repository, [])) /\
  (od_get package repository = Some None -> join repository_path package <> package ->
   exists repository',
     get_source AppSource_of encode_filename repository repository_path package =
       (Some (AppSource_of (join repository_path package)), repository', []) /\
     od_get (join repository_path package) repository' = Some (Some (AppSource_of (join repository_path package))) /\
     od_get package repository' = Some None /\
     (forall k, k <> join repository_path package -> od_get k repository' = od_get k repository) /\
     get_source AppSource_of encode_filename repository' repository_path package =
       (Some (AppSource_of (join repository_path package)), repository', [])).
Proof.
  unfold get_source. split; [intros ->; reflexivity|]. split; [intros source ->; reflexivity|].
  intros Hp Hne. rewrite Hp.
  set (j := join repository_path package).
  set (repository' := od_set j (Some (AppSource_of j)) repository).
  assert (Hget : forall k, od_get k repository' = if decide (k = j) then Some (Some (AppSource_of j)) else od_get k repository)
    by (intros k; apply od_get_set).
  exists repository'. split; [reflexivity|].
  split; [rewrite Hget, decide_True by reflexivity; reflexivity|].
  split; [rewrite Hget, decide_False by (intros H; apply Hne; symmetry; exact H); exact Hp|].
  split; [intros k Hk; rewrite Hget, decide_False by exact Hk; reflexivity|].
  rewrite Hget, decide_False by (intros H; apply Hne; symmetry; exact H). rewrite Hp. fold j.
  f_equal. f_equal.
  assert (Hsame : forall (d : list (string * option Source)) k v, od_get k d = Some v -> od_set k v d = d).
  { intros d k v. induction d as [|[k' v'] d IH]; cbn; [discriminate|].
    destruct (decide (k = k')) as [->|Hk]; [intros [= ->]; reflexivity | intros H; rewrite (IH H); reflexivity]. }
  apply Hsame. rewrite Hget, decide_True by reflexivity. reflexivity.
Qed.

End GetSourceFacts.

Lemma get_source_spec_witness :
  od_get "a.tgz" [("a.tgz", @None string)] = Some None /\ join "/repo" "a.tgz" <> "a.tgz" /\
  exists repository',
    get_source (fun p => p) (fun p => p) [("a.tgz", None)] "/repo" "a.tgz" =
      (Some "/repo/a.tgz", repository', []) /\
    od_get "/repo/a.tgz" repository' = Some (Some "/repo/a.tgz") /\
    od_get "a.tgz" repository' = Some None /\
    (forall k, k <> join "/repo" "a.tgz" -> od_get k repository' = od_get k [("a.tgz", None)]) /\
    get_source (fun p => p) (fun p => p) repository' "/repo" "a.tgz" = (Some "/repo/a.tgz", repository', []).
Proof.
  assert (H1 : od_get "a.tgz" [("a.tgz", @None string)] = Some None) by reflexivity.
  assert (H2 : join "/repo" "a.tgz" <> "a.tgz") by (vm_compute; discriminate).
  split; [exact H1|]. split; [exact H2|].
  exact (proj2 (proj2 (get_source_spec (fun p => p) (fun p => p) [("a.tgz", None)] "/repo" "a.tgz")) H1 H2).
Defined.

End GetSourceFacts.

Module CollectionRemoveAppFacts.
Import OD ODFacts Construction ServerClass CollectionRemoveApp.

Local Open Scope list_scope.

Section CollectionRemoveAppFacts.
Context {AppInstallationGraph AppInstallation : Type}.
Variable get : AppInstallationGraph -> string -> option AppInstallation.
Variable dependents : AppInstallation -> list string.
Variable remove_installation : AppInstallationGraph -> AppInstallation -> AppInstallationGraph.
Variable contains : AppInstallationGraph -> string -> bool.

Abbreviation state := (@collection_state AppInstallationGraph).

Definition is_error_message (e : event) : Prop := exists m, e = SlimError m.

(** The body of the loop over [server_classes]. *)
Definition collection_step (app_id : string) (acc : exn + (state * bool)) (name : string) : exn + (state * bool) :=
  match acc with
  | inl e => inl e
  | inr (st, app_found) =>
      match od_get name (collection st) with
      | None => inl KeyError
      | Some apps =>
          if contains apps app_id then
            let server_class := ServerClass.remove_app get dependents remove_installation
              {| ServerClass.apps := apps; log := collection_log st; payload := collection_payload st |} app_id in
            inr ({| collection := od_set name (ServerClass.apps server_class) (collection st);
                    collection_log := log server_class;
                    collection_payload := payload server_class |}, true)
          else inr (st, app_found)
      end
  end.

Lemma server_class_remove_app_log (sc : @server_class_state AppInstallationGraph) app_id :
  exists more, log (ServerClass.remove_app get dependents remove_installation sc app_id) = log sc ++ more /\
               Forall is_error_message more.
Proof.
  unfold ServerClass.remove_app.
  destruct (get (ServerClass.apps sc) app_id) as [installation|]; [|exists []; rewrite app_nil_r; split; [reflexivity | constructor]].
  case_bool_decide; cbn [log].
  - eexists. split; [reflexivity|]. apply Forall_singleton. eexists. reflexivity.
  - exists []. rewrite app_nil_r. split; [reflexivity | constructor].
Qed.

Lemma foldl_collection_inl app_id names e :
  foldl (collection_step app_id) (inl e) names = inl e.
Proof. induction names as [|n names IH]; [reflexivity | exact IH]. Qed.

Lemma collection_loop app_id names : forall (st : state) app_found,
  match foldl (collection_step app_id) (inr (st, app_found)) names with
  | inl KeyError => exists n, n ∈ names /\ od_get n (collection st) = None
  | inr (st', app_found') =>
      (forall n, n ∈ names -> od_get n (collection st) <> None) /\
      (forall n, n ∉ names -> od_get n (collection st') = od_get n (collection st)) /\
      map fst (collection st') = map fst (collection st) /\
      (exists more, collection_log st' = collection_log st ++ more /\ Forall is_error_message more) /\
      (app_found' = true <-> app_found = true \/
         exists n apps, n ∈ names /\ od_get n (collection st) = Some apps /\ contains apps app_id = true) /\
      (app_found' = false -> st' = st)
  end.
Proof.
  induction names as [|n names IH]; intros st app_found; cbn [foldl].
  - split; [intros n Hn; inversion Hn|]. split; [reflexivity|]. split; [reflexivity|].
    split; [exists []; rewrite app_nil_r; split; [reflexivity | constructor]|].
    split; [|reflexivity]. split; [intros H; left; exact H|].
    intros [H|(n & apps & Hn & _)]; [exact H | inversion Hn].
  - unfold collection_step at 2.
    destruct (od_get n (collection st)) as [apps|] eqn:Hg.
    2: { rewrite foldl_collection_inl. exists n. split; [left | exact Hg]. }
    destruct (contains apps app_id) eqn:Hc.
    + set (sc := ServerClass.remove_app get dependents remove_installation
                   {| ServerClass.apps := apps; log := collection_log st; payload := collection_payload st |} app_id).
      set (st1 := {| collection := od_set n (ServerClass.apps sc) (collection st);
                     collection_log := log sc; collection_payload := payload sc |} : state).
      assert (Hget1 : forall k, od_get k (collection st1) =
                        if decide (k = n) then Some (ServerClass.apps sc) else od_get k (collection st))
        by (intros k; apply od_get_set).
      specialize (IH st1 true).
      destruct (foldl (collection_step app_id) (inr (st1, true)) names) as [[]|[st' app_found']].
      * destruct IH as (k & Hk & Hk').
        exists k. split; [right; exact Hk|]. rewrite Hget1 in Hk'.
        destruct (decide (k = n)); [discriminate | exact Hk'].
      * destruct IH as (Hall & Hout & Hkeys & (more & Hlog & Hmore) & Hfound & Hnf).
        split.
        { intros k Hk. apply elem_of_cons in Hk as [->|Hk]; [congruence|].
          specialize (Hall k Hk). rewrite Hget1 in Hall. destruct (decide (k = n)) as [->|]; [congruence | exact Hall]. }
        split.
        { intros k Hk. rewrite Hout by set_solver. rewrite Hget1, decide_False by set_solver. reflexivity. }
        split.
        { rewrite Hkeys. cbn [collection st1]. apply ForwarderWorkloadsFacts.od_set_keys_same.
          exact (ConstructionFacts.od_get_key _ _ _ Hg). }
        split.
        { destruct (server_class_remove_app_log
                      {| ServerClass.apps := apps; log := collection_log st; payload := collection_payload st |} app_id)
            as (more0 & Hlog0 & Hmore0).
          exists (more0 ++ more). rewrite Hlog. cbn [collection_log st1]. fold sc in Hlog0. rewrite Hlog0.
          cbn [log]. split; [symmetry; apply app_assoc | apply Forall_app; split; assumption]. }
        split.
        { split; [intros _; right; exists n, apps; split; [left|]; split; assumption | intros _; apply Hfound; left; reflexivity]. }
        intros Hf. assert (Ht : app_found' = true) by (apply Hfound; left; reflexivity). congruence.
    + specialize (IH st app_found).
      destruct (foldl (collection_step app_id) (inr (st, app_found)) names) as [[]|[st' app_found']].
      * destruct IH as (k & Hk & Hk'). exists k. split; [right; exact Hk | exact Hk'].
      * destruct IH as (Hall & Hout & Hkeys & Hlog & Hfound & Hnf).
        split.
        { intros k Hk. apply elem_of_cons in Hk as [->|Hk]; [congruence | exact (Hall k Hk)]. }
        split; [intros k Hk; apply Hout; set_solver|].
        split; [exact Hkeys|]. split; [exact Hlog|]. split; [|exact Hnf].
        rewrite Hfound. split.
        -- intros [H|(k & apps' & Hk & Hg' & Hc')]; [left; exact H|].
           right. exists k, apps'. split; [right; exact Hk|]. split; assumption.
        -- intros [H|(k & apps' & Hk & Hg' & Hc')]; [left; exact H|].
           apply elem_of_cons in Hk as [->|Hk]; [congruence|].
           right. exists k, apps'. split; [exact Hk|]. split; assumption.
Qed.

(** Extra: [AppServerClassCollection.remove_app] raises [KeyError] exactly
    when a listed server class name is missing from the collection.
    Otherwise it changes no server class that is not listed and keeps the
    names. It logs the warning that the app has not been installed exactly
    when no listed server class contains the app, and then changes nothing
    else. *)
Theorem collection_remove_app_spec (st : state) (app_id : string) (server_classes : list string) :
  match remove_app get dependents remove_installation contains st app_id server_classes with
  | inl KeyError => exists n, n ∈ server_classes /\ od_get n (collection st) = None
  | inr st' =>
      (forall n, n ∈ server_classes -> od_get n (collection st) <> None) /\
      (forall n, n ∉ server_classes -> od_get n (collection st') = od_get n (collection st)) /\
      map fst (collection st') = map fst (collection st) /\
      (exists more, collection_log st' = collection_log st ++ more /\
         (app_not_installed app_id ∈ more <->
          forall n apps, n ∈ server_classes -> od_get n (collection st) = Some apps -> contains apps app_id = false)) /\
      ((forall n apps, n ∈ server_classes -> od_get n (collection st) = Some apps -> contains apps app_id = false) ->
       st' = {| collection := collection st;
                collection_log := collection_log st ++ [app_not_installed app_id];
                collection_payload := collection_payload st |})
  end.
Proof.
  assert (E : remove_app get dependents remove_installation contains st app_id server_classes =
    match foldl (collection_step app_id) (inr (st, false)) server_classes with
    | inl e => inl e
    | inr (st, app_found) =>
        if app_found then inr st
        else inr {| collection := collection st;
                    collection_log := collection_log st ++ [app_not_installed app_id];
                    collection_payload := collection_payload st |}
    end) by reflexivity.
  rewrite E. pose proof (collection_loop app_id server_classes st false) as H.
  destruct (foldl (collection_step app_id) (inr (st, false)) server_classes) as [[]|[st' app_found]]; [exact H|].
  destruct H as (Hall & Hout & Hkeys & (more & Hlog & Hmore) & Hfound & Hnf).
  assert (Hnone : (forall n apps, n ∈ server_classes -> od_get n (collection st) = Some apps ->
                    contains apps app_id = false) <-> app_found = false).
  { split.
    - intros Hno. destruct app_found; [|reflexivity].
      destruct (proj1 Hfound eq_refl) as [H|(n & apps & Hn & Hg & Hc)]; [discriminate|].
      rewrite (Hno n apps Hn Hg) in Hc. discriminate.
    - intros Hf n apps Hn Hg. destruct (contains apps app_id) eqn:Hc; [|reflexivity].
      assert (Ht : app_found = true) by (apply Hfound; right; exists n, apps; auto). congruence. }
  destruct app_found.
  - split; [exact Hall|]. split; [exact Hout|]. split; [exact Hkeys|]. split.
    + exists more. split; [exact Hlog|]. split.
      * intros Hw. apply Forall_forall with (x := app_not_installed app_id) in Hmore; [|exact Hw].
        destruct Hmore as (m & Hm). discriminate.
      * intros Hno. apply Hnone in Hno. discriminate.
    + intros Hno. apply Hnone in Hno. discriminate.
  - specialize (Hnf eq_refl). subst st'.
    split; [exact Hall|]. split; [intros n _; reflexivity|]. split; [reflexivity|]. split.
    + exists [app_not_installed app_id]. split; [reflexivity|]. split; [intros _; apply Hnone; reflexivity | intros _; left].
    + intros _. reflexivity.
Qed.

End CollectionRemoveAppFacts.

End CollectionRemoveAppFacts.

Module DetectIsEmptyFacts.
Import PosixPath Emptiness.

(** The body of the loop over the asset files. *)
Definition bin_step (app_root : string) (empty_set : gset string) (asset_file : string) : gset string :=
  let app_bin := join app_root "bin" in
  if startswith asset_file app_bin then {[ asset_file ]} ∪ empty_set else empty_set.

(** The body of the loop over the documentation items. *)
Definition add_item (fuel : nat) (app_root : string) (acc : option (gset string)) (item : option DocItem)
  : option (gset string) :=
  match acc with
  | None => None
  | Some empty_set =>
      match item with
      | None => Some empty_set
      | Some {| text := None |} => Some empty_set
      | Some {| text := Some item_text |} => add_directory_chain fuel app_root (normpath item_text) empty_set
      end
  end.

Lemma detect_is_empty_unfold fuel app_info app_root asset_filenames configurations :
  _detect_is_empty fuel app_info app_root asset_filenames configurations =
  if bool_decide (length configurations = 0) ||
     (bool_decide (length configurations = 1) && bool_decide ("app" ∈ configurations)) then
    if bool_decide (size asset_filenames = 0) then Some true else
    match foldl (add_item fuel app_root)
            (Some (foldl (bin_step app_root)
                     {[ join app_root "metadata"; join (join app_root "metadata") "default.meta" ]}
                     (elements asset_filenames)))
            [license app_info; privacyPolicy app_info; releaseNotes app_info] with
    | None => None
    | Some empty_set => Some (bool_decide (asset_filenames ⊆ empty_set))
    end
  else Some false.
Proof. reflexivity. Qed.

Lemma bin_fold app_root (l : list string) : forall (S : gset string) x,
  x ∈ foldl (bin_step app_root) S l <-> x ∈ S \/ (x ∈ l /\ startswith x (join app_root "bin") = true).
Proof.
  induction l as [|a l IH]; intros S x; cbn [foldl].
  - split; [intros H; left; exact H | intros [H|[H _]]; [exact H | inversion H]].
  - rewrite IH. unfold bin_step. destruct (startswith a (join app_root "bin")) eqn:Ha.
    + split.
      * intros [H|[H1 H2]]; [apply elem_of_union in H as [H|H]; [apply elem_of_singleton in H; subst x|]|].
        -- right. split; [left | exact Ha].
        -- left. exact H.
        -- right. split; [right; exact H1 | exact H2].
      * intros [H|[H1 H2]]; [left; set_solver|].
        apply elem_of_cons in H1 as [->|H1]; [left; set_solver | right; split; assumption].
    + split.
      * intros [H|[H1 H2]]; [left; exact H | right; split; [right; exact H1 | exact H2]].
      * intros [H|[H1 H2]]; [left; exact H|].
        apply elem_of_cons in H1 as [->|H1]; [congruence | right; split; assumption].
Qed.

Lemma chain_indep fuel app_root : forall filename (S : gset string),
  match add_directory_chain fuel app_root filename S, add_directory_chain fuel app_root filename ∅ with
  | Some R, Some C => forall x, x ∈ R <-> x ∈ C \/ x ∈ S
  | None, None => True
  | _, _ => False
  end.
Proof.
  induction fuel as [|fuel IH]; intros filename S; cbn [add_directory_chain]; [exact I|].
  case_bool_decide.
  - intros x. set_solver.
  - pose proof (IH (dirname filename) ({[ normpath (join app_root filename) ]} ∪ S)) as H1.
    pose proof (IH (dirname filename) ({[ normpath (join app_root filename) ]} ∪ ∅)) as H2.
    destruct (add_directory_chain fuel app_root (dirname filename) ({[ normpath (join app_root filename) ]} ∪ S)) as [R|];
    destruct (add_directory_chain fuel app_root (dirname filename) ({[ normpath (join app_root filename) ]} ∪ ∅)) as [R'|];
    destruct (add_directory_chain fuel app_root (dirname filename) ∅) as [C|]; try contradiction; try exact I.
    intros x. rewrite H1, H2. set_solver.
Qed.

Lemma foldl_add_item_None fuel app_root items : foldl (add_item fuel app_root) None items = None.
Proof. induction items; [reflexivity | exact IHitems]. Qed.

Lemma items_indep fuel app_root items : forall (S : gset string),
  match foldl (add_item fuel app_root) (Some S) items, foldl (add_item fuel app_root) (Some ∅) items with
  | Some R, Some C => forall x, x ∈ R <-> x ∈ C \/ x ∈ S
  | None, None => True
  | _, _ => False
  end.
Proof.
  induction items as [|item items IH]; intros S; cbn [foldl].
  - intros x. set_solver.
  - destruct item as [[[t|]]|]; cbn [add_item]; [|exact (IH S) | exact (IH S)].
    pose proof (chain_indep fuel app_root (normpath t) S) as Hc.
    destruct (add_directory_chain fuel app_root (normpath t) S) as [R1|];
    destruct (add_directory_chain fuel app_root (normpath t) ∅) as [C1|]; try contradiction.
    + pose proof (IH R1) as HR. pose proof (IH C1) as HC.
      destruct (foldl (add_item fuel app_root) (Some R1) items) as [R|];
      destruct (foldl (add_item fuel app_root) (Some C1) items) as [C|];
      destruct (foldl (add_item fuel app_root) (Some ∅) items) as [D|]; try contradiction; try exact I.
      intros x. rewrite HR, HC, Hc. tauto.
    + rewrite !foldl_add_item_None. exact I.
Qed.

(** Extra: [_detect_is_empty] is anti-monotone in the asset files: if an
    app is detected empty, it is still detected empty with any subset of
    its asset files (the same documentation, configurations and fuel). *)
Theorem detect_is_empty_antimono (fuel : nat) (app_info : AppInfo) (app_root : string)
    (asset_filenames asset_filenames' : gset string) (configurations : list string) :
  asset_filenames ⊆ asset_filenames' ->
  _detect_is_empty fuel app_info app_root asset_filenames' configurations = Some true ->
  _detect_is_empty fuel app_info app_root asset_filenames configurations = Some true.
Proof.
  intros Hsub. rewrite !detect_is_empty_unfold.
  destruct (_ || _); [|discriminate].
  destruct (decide (size asset_filenames = 0)) as [H0|H0]; [rewrite (bool_decide_true _ H0); intros _; reflexivity|].
  rewrite (bool_decide_false _ H0).
  set (base := {[ join app_root "metadata"; join (join app_root "metadata") "default.meta" ]} : gset string).
  set (items := [license app_info; privacyPolicy app_info; releaseNotes app_info]).
  pose proof (items_indep fuel app_root items (foldl (bin_step app_root) base (elements asset_filenames))) as HA.
  pose proof (items_indep fuel app_root items (foldl (bin_step app_root) base (elements asset_filenames'))) as HA'.
  case_bool_decide as H0'; [intros _; exfalso; apply H0; apply size_empty_inv in H0'; apply size_empty_iff; set_solver|].
  destruct (foldl (add_item fuel app_root) (Some (foldl (bin_step app_root) base (elements asset_filenames'))) items)
    as [E'|]; [|discriminate].
  intros [= HE']. apply bool_decide_eq_true in HE'.
  destruct (foldl (add_item fuel app_root) (Some (foldl (bin_step app_root) base (elements asset_filenames))) items)
    as [E|];
  destruct (foldl (add_item fuel app_root) (Some ∅) items) as [D|]; try contradiction.
  f_equal. apply bool_decide_eq_true. intros x Hx.
  assert (Hx' : x ∈ E') by (apply HE'; set_solver).
  apply HA' in Hx'. apply HA. destruct Hx' as [Hx'|Hx']; [left; exact Hx'|].
  right. apply bin_fold in Hx' as [Hx'|[_ Hbin]]; apply bin_fold; [left; exact Hx'|].
  right. split; [apply elem_of_elements; exact Hx | exact Hbin].
Qed.

Lemma detect_is_empty_antimono_witness :
  ({[ "/apps/a/bin/run.sh" ]} : gset string) ⊆ {[ "/apps/a/metadata/default.meta"; "/apps/a/bin/run.sh" ]} /\
  _detect_is_empty 10 no_documents "/apps/a" {[ "/apps/a/metadata/default.meta"; "/apps/a/bin/run.sh" ]} [] = Some true /\
  _detect_is_empty 10 no_documents "/apps/a" {[ "/apps/a/bin/run.sh" ]} [] = Some true.
Proof.
  assert (H1 : ({[ "/apps/a/bin/run.sh" ]} : gset string) ⊆ {[ "/apps/a/metadata/default.meta"; "/apps/a/bin/run.sh" ]})
    by (apply (bool_decide_unpack _); vm_compute; exact I).
  assert (H2 : _detect_is_empty 10 no_documents "/apps/a" {[ "/apps/a/metadata/default.meta"; "/apps/a/bin/run.sh" ]} []
               = Some true) by (vm_compute; reflexivity).
  split; [exact H1|]. split; [exact H2|].
  exact (detect_is_empty_antimono 10 no_documents "/apps/a" _ _ [] H1 H2).
Defined.

End DetectIsEmptyFacts.

(** ** Facts on [_get_excluded_filenames] and [_exclude_conf_spec] *)
Module ExcludedFilenamesFacts.
Import Packaging ExcludedFilenames.

#[local] Instance pattern_item_eq_dec : EqDecision pattern_item.
Proof. solve_decision. Defined.

Lemma string_app_cons (c : Ascii.ascii) (a b : string) : (String c a ++ b) = String c (a ++ b).
Proof. reflexivity. Qed.

Lemma string_length_app (a b : string) :
  String.length (a ++ b) = String.length a + String.length b.
Proof. induction a as [|c a IH]; [reflexivity|]. rewrite string_app_cons. simpl. lia. Qed.

Lemma substring_all (s : string) : String.substring 0 (String.length s) s = s.
Proof. induction s as [|c s IH]; simpl; congruence. Qed.

Lemma substring_split (s : string) (n : nat) :
  (String.substring 0 n s ++ String.substring n (String.length s - n) s) = s.
Proof.
  revert n. induction s as [|c s IH]; intros [|n]; simpl.
  - reflexivity.
  - reflexivity.
  - rewrite substring_all. reflexivity.
  - rewrite string_app_cons. f_equal. apply IH.
Qed.

Lemma substring_app_r (a b : string) :
  String.substring (String.length a) (String.length b) (a ++ b) = b.
Proof.
  induction a as [|c a IH].
  - apply substring_all.
  - rewrite string_app_cons. simpl. exact IH.
Qed.

Lemma substring_app_l (a b : string) : String.substring 0 (String.length a) (a ++ b) = a.
Proof.
  induction a as [|c a IH].
  - destruct b; reflexivity.
  - rewrite string_app_cons. simpl. f_equal. exact IH.
Qed.

(** Extra: [_exclude_conf_spec] holds of a file name exactly when it is a
    configuration name followed by [.conf.spec] and that configuration is
    not one of the package's configurations. *)
Theorem _exclude_conf_spec_iff (configuration : gset string) (filename : string) :
  _exclude_conf_spec configuration filename = true <->
  exists configuration_name,
    filename = (configuration_name ++ ".conf.spec") /\ configuration_name ∉ configuration.
Proof.
  unfold _exclude_conf_spec, endswith. split.
  - destruct (_ && _) eqn:He; [|discriminate].
    apply andb_true_iff in He as [Hle Heq].
    apply Nat.leb_le in Hle. apply String.eqb_eq in Heq.
    intros Hb. apply bool_decide_eq_true in Hb.
    eexists. split; [|exact Hb].
    rewrite <- (substring_split filename (String.length filename - String.length ".conf.spec")) at 1.
    f_equal.
    replace (String.length filename - (String.length filename - String.length ".conf.spec"))
      with (String.length ".conf.spec") by lia.
    exact Heq.
  - intros (configuration_name & -> & Hnot).
    rewrite string_length_app, Nat.add_sub.
    rewrite (proj2 (Nat.leb_le _ _)) by lia.
    rewrite substring_app_r, String.eqb_refl. simpl.
    rewrite substring_app_l. apply bool_decide_eq_true. exact Hnot.
Qed.

Section Facts.
Variable fnmatch : string -> string -> bool.
Variable configuration : gset string.

(** The components [cs] of a directory, in path order, are matched by the
    leading globs of a pattern; a method item there never matches. *)
Fixpoint dirs_match (cs : list string) (p : pattern) : bool :=
  match cs, p with
  | c :: cs', Glob g :: p' => fnmatch c g && dirs_match cs' p'
  | _ :: _, ExcludeConfSpec :: _ => false
  | _, _ => true
  end.

(** A pattern excludes [name] from directory [cs]: it has one item per
    component plus one for the name, its leading items match the components
    and its last item matches the name. *)
Definition excludes (cs : list string) (p : pattern) (name : string) : bool :=
  bool_decide (length p = S (length cs)) && dirs_match cs p &&
  match last p with
  | Some pattern => _get_match_function fnmatch configuration pattern name
  | None => false
  end.

(** Only the last item of a pattern is a method. *)
Definition method_last (p : pattern) : Prop := ExcludeConfSpec ∉ removelast p.

Lemma zip_match_dirs (cs : list string) (p : pattern) :
  length p = S (length cs) -> method_last p ->
  zip_match fnmatch cs p = inr (dirs_match cs p).
Proof.
  unfold method_last. revert p. induction cs as [|c cs IH]; intros p Hlen Hm.
  - destruct p; reflexivity.
  - destruct p as [|i p]; [discriminate|]. simpl in Hlen.
    destruct p as [|i' p]; [discriminate|].
    change (removelast (i :: i' :: p)) with (i :: removelast (i' :: p)) in Hm.
    destruct i as [g|]; [|exfalso; apply Hm; left].
    cbn [zip_match fnmatch_item dirs_match].
    destruct (fnmatch c g); [|reflexivity].
    apply IH; [simpl in *; lia|]. intros Hx. apply Hm. right. exact Hx.
Qed.

Lemma any_match_app (l1 l2 : list (string -> bool)) (name : string) :
  any_match (l1 ++ l2)%list name = any_match l1 name || any_match l2 name.
Proof.
  induction l1 as [|f l1 IH]; [reflexivity|]. simpl. destruct (f name); [reflexivity|]. exact IH.
Qed.

Lemma candidates_loop (cs : list string) (ignore_patterns : list pattern)
    (acc : list (string -> bool)) :
  Forall method_last ignore_patterns ->
  exists candidates,
    foldl (fun acc ignore_pattern =>
      match acc with
      | inl e => inl e
      | inr candidates =>
          if decide (length ignore_pattern <> length (rev cs) + 1) then inr candidates
          else match zip_match fnmatch (rev (rev cs)) ignore_pattern with
               | inl e => inl e
               | inr true =>
                   match last_item ignore_pattern with
                   | inl e => inl e
                   | inr pattern => inr (candidates ++ [_get_match_function fnmatch configuration pattern])%list
                   end
               | inr false => inr candidates
               end
      end) (inr acc) ignore_patterns = inr candidates /\
    forall name, any_match candidates name =
      any_match acc name || existsb (fun p => excludes cs p name) ignore_patterns.
Proof.
  rewrite length_rev, rev_involutive.
  revert acc. induction ignore_patterns as [|p ps IH]; intros acc Hall.
  - exists acc. split; [reflexivity|]. intros name. simpl. rewrite orb_false_r. reflexivity.
  - apply Forall_cons in Hall as [Hp Hps]. cbn [foldl existsb].
    destruct (decide (length p <> length cs + 1)) as [Hne|Heq].
    + destruct (IH acc Hps) as (candidates & Hc & Hm). exists candidates. split; [exact Hc|].
      intros name. rewrite Hm. unfold excludes.
      rewrite (bool_decide_false (length p = S (length cs))) by lia. reflexivity.
    + assert (Hlen : length p = S (length cs)) by lia.
      rewrite (zip_match_dirs cs p Hlen Hp).
      destruct (dirs_match cs p) eqn:Hd.
      * destruct p as [|i p'] eqn:Hpe; [discriminate|].
        destruct (last (i :: p')) as [pattern|] eqn:Hl;
          [|apply last_None in Hl; discriminate].
        unfold last_item. rewrite Hl.
        destruct (IH (acc ++ [_get_match_function fnmatch configuration pattern])%list Hps)
          as (candidates & Hc & Hm).
        exists candidates. split; [exact Hc|].
        intros name. rewrite Hm, any_match_app. unfold excludes.
        rewrite (bool_decide_true _ Hlen), Hd, Hl. simpl.
        destruct (any_match acc name), (_get_match_function fnmatch configuration pattern name); reflexivity.
      * destruct (IH acc Hps) as (candidates & Hc & Hm). exists candidates. split; [exact Hc|].
        intros name. rewrite Hm. unfold excludes. rewrite Hd, andb_false_r. reflexivity.
Qed.

Lemma foldl_ignored (f : string -> bool) (names : list string) (acc : list string) :
  foldl (fun ignored_names filename =>
    if f filename then (ignored_names ++ [filename])%list else ignored_names) acc names
  = (acc ++ List.filter f names)%list.
Proof.
  revert acc. induction names as [|n names IH]; intros acc; simpl.
  - rewrite app_nil_r. reflexivity.
  - rewrite IH. destruct (f n); [rewrite <- app_assoc|]; reflexivity.
Qed.

Lemma excluded_filenames_filter (cs names : list string) (ignore_patterns : list pattern) :
  Forall method_last ignore_patterns ->
  _get_excluded_filenames fnmatch configuration (rev cs) names ignore_patterns =
  inr (List.filter (fun name => existsb (fun p => excludes cs p name) ignore_patterns) names).
Proof.
  intros Hall. unfold _get_excluded_filenames, candidates_of.
  destruct (candidates_loop cs ignore_patterns [] Hall) as (candidates & Hc & Hm).
  rewrite Hc. f_equal.
  destruct (decide (length candidates = 0)) as [H0|H0].
  - apply nil_length_inv in H0. subst candidates.
    assert (Hf : forall n, existsb (fun p => excludes cs p n) ignore_patterns = false)
      by (intros n; specialize (Hm n); simpl in Hm; congruence).
    induction names as [|n names IHn]; [reflexivity|]. simpl. rewrite Hf. exact IHn.
  - rewrite foldl_ignored. simpl. f_equal. apply List.filter_ext. intros name. apply Hm.
Qed.

End Facts.

(** Extra: if no pattern has a method before its last item,
    [_get_excluded_filenames] raises nothing, and for a directory whose
    components in path order are [cs] (given, as [_split_filename] returns
    them, reversed) it keeps, in order and with repetitions, the names that
    some pattern excludes: a pattern of one item per component plus one,
    whose leading globs match the components in path order and whose last
    item (glob or [_exclude_conf_spec]) matches the name. *)
Theorem _get_excluded_filenames_spec (fnmatch : string -> string -> bool)
    (configuration : gset string) (cs names : list string) (ignore_patterns : list pattern) :
  Forall method_last ignore_patterns ->
  _get_excluded_filenames fnmatch configuration (rev cs) names ignore_patterns =
  inr (List.filter (fun name => existsb (fun p => excludes fnmatch configuration cs p name) ignore_patterns) names).
Proof. apply excluded_filenames_filter. Qed.

Definition readme_patterns : list pattern :=
  [[Glob "default"; Glob "data"]; [Glob "README"; ExcludeConfSpec]; [Glob "*.conf"]]%list.

Lemma _get_excluded_filenames_spec_witness :
  Forall method_last readme_patterns /\
  _get_excluded_filenames String.eqb {[ "inputs" ]} (rev ["README"]) ["a.conf.spec"; "inputs.conf.spec"; "x"]
    readme_patterns =
  inr (List.filter (fun name => existsb (fun p => excludes String.eqb {[ "inputs" ]} ["README"] p name)
    readme_patterns) ["a.conf.spec"; "inputs.conf.spec"; "x"]) /\
  _get_excluded_filenames String.eqb {[ "inputs" ]} (rev ["README"]) ["a.conf.spec"; "inputs.conf.spec"; "x"]
    readme_patterns = inr ["a.conf.spec"].
Proof.
  assert (H : Forall method_last readme_patterns)
    by (unfold method_last; apply (bool_decide_unpack _); vm_compute; exact I).
  split; [exact H|]. split; [|vm_compute; reflexivity].
  exact (_get_excluded_filenames_spec String.eqb {[ "inputs" ]} ["README"] _ readme_patterns H).
Defined.

Lemma exclusion_patterns_method_last (workload : gset string) :
  Forall method_last (exclusion_patterns workload).
Proof.
  unfold exclusion_patterns, exclusion_patterns_of.
  rewrite (PackagingFacts.exclusion_patterns_acc _exclusion_rule workload []).
  apply Forall_app. split; [constructor|].
  assert (H : Forall (fun rule : pattern * gset string => method_last rule.1) _exclusion_rule)
    by (unfold method_last; apply (bool_decide_unpack _); vm_compute; exact I).
  rewrite Forall_forall in H. apply Forall_forall. intros p Hp.
  apply list_elem_of_fmap in Hp as (rule & -> & Hr).
  apply list_elem_of_filter in Hr as [_ Hr]. exact (H rule Hr).
Qed.

(** Extra: for the exclusion patterns [AppDeploymentPackage.__init__]
    selects for any workload, [_get_excluded_filenames] never raises: the
    method [_exclude_conf_spec] is only ever the last item of a pattern,
    which [zip] with the directory components never reaches. *)
Theorem _get_excluded_filenames_exclusion_patterns (fnmatch : string -> string -> bool)
    (configuration : gset string) (workload : gset string) (cs names : list string) :
  _get_excluded_filenames fnmatch configuration (rev cs) names (exclusion_patterns workload) =
  inr (List.filter (fun name => existsb (fun p => excludes fnmatch configuration cs p name)
    (exclusion_patterns workload)) names).
Proof. apply excluded_filenames_filter, exclusion_patterns_method_last. Qed.

End ExcludedFilenamesFacts.
